(** * instaAutomation: the message-routing pipeline, embedded and checked

    A shallow embedding of the pieces of the repository that the pipeline
    specification talks about:

    - [packages/shared/src/utils.ts]  (keyword matching, template
      variables, retry with backoff, token encryption),
    - [packages/shared/src/instagram-api.ts] (error conversion, sendMessage),
    - [packages/shared/src/ai-service.ts] (generateResponse, analyzeSentiment),
    - [packages/db/src/index.ts] (addMessageToConversation),
    - [packages/db/src/redis.ts] (queueWebhookEvent),
    - [apps/webhook/src/index.ts] (the GET and POST /webhook handlers).

    Conventions.  A JavaScript function that can throw returns a
    [completion]; a function that also touches the outside world (clock,
    timers, network, database, console) is a state transformer over an
    explicit world record.  Third-party engines (the regular-expression
    engine, the AI SDKs, AES-GCM, PBKDF2) are interfaces: type classes or
    section variables, instantiated by small concrete engines where a
    statement has to be exercised on an input. *)

From Stdlib Require Import ZArith QArith Lia Ascii String List.
From Stdlib Require Import Strings.Byte.
From stdpp Require Import base strings list gmap pretty.

Close Scope Q_scope.
Open Scope string_scope.

(** ** Completions and the world-passing monad *)

Module Eff.

(** The outcome of running JavaScript code: a value or a thrown
    exception. *)
Inductive completion (E A : Type) : Type :=
| Return (a : A)
| Throw (e : E).
Arguments Return {E A} a.
Arguments Throw {E A} e.

Definition is_return {E A} (c : completion E A) : bool :=
  match c with Return _ => true | Throw _ => false end.

(** [try { body } catch (e) { handler e }] on pure completions. *)
Definition try_catch {E A} (body : completion E A)
    (handler : E -> completion E A) : completion E A :=
  match body with
  | Return a => Return a
  | Throw e => handler e
  end.

Definition cbind {E A B} (c : completion E A)
    (k : A -> completion E B) : completion E B :=
  match c with
  | Return a => k a
  | Throw e => Throw e
  end.

(** An [async] function over a world [W]: it consumes the world and
    gives back the completion together with the world it leaves. *)
Definition M (W E A : Type) : Type := W -> completion E A * W.

Definition ret {W E A} (a : A) : M W E A := fun w => (Return a, w).
Definition throw {W E A} (e : E) : M W E A := fun w => (Throw e, w).

Definition bind {W E A B} (m : M W E A) (k : A -> M W E B) : M W E B :=
  fun w =>
    match m w with
    | (Return a, w') => k a w'
    | (Throw e, w') => (Throw e, w')
    end.

(** [try { body } catch (e) { handler e }] with effects: the effects
    performed by [body] before it threw are kept. *)
Definition catch {W E A} (body : M W E A) (handler : E -> M W E A)
    : M W E A :=
  fun w =>
    match body w with
    | (Return a, w') => (Return a, w')
    | (Throw e, w') => handler e w'
    end.

Definition get {W E} : M W E W := fun w => (Return w, w).
Definition modify {W E} (f : W -> W) : M W E unit :=
  fun w => (Return tt, f w).

End Eff.

Export Eff.

Declare Scope eff_scope.
Delimit Scope eff_scope with eff.
Notation "x <- m ;; k" := (Eff.bind m (fun x => k))
  (at level 100, m at next level, right associativity) : eff_scope.
Notation "m ;;; k" := (Eff.bind m (fun _ => k))
  (at level 100, right associativity) : eff_scope.

(** ** JavaScript string primitives

    Strings are sequences of 8-bit characters; the model is exact on
    ASCII text.  [toLowerCase] folds [A-Z] only. *)

Module JS.

Definition is_upper (c : ascii) : bool :=
  let n := nat_of_ascii c in (65 <=? n)%nat && (n <=? 90)%nat.

Definition lower_ascii (c : ascii) : ascii :=
  if is_upper c then ascii_of_nat (nat_of_ascii c + 32) else c.

(** [String.prototype.toLowerCase] *)
Fixpoint toLowerCase (s : string) : string :=
  match s with
  | EmptyString => EmptyString
  | String c s' => String (lower_ascii c) (toLowerCase s')
  end.

(** [String.prototype.startsWith] *)
Definition startsWith (s kw : string) : bool := String.prefix kw s.

(** [String.prototype.includes]: [kw] occurs at some position of [s]. *)
Fixpoint includes (s kw : string) : bool :=
  startsWith s kw ||
  match s with
  | EmptyString => false
  | String _ s' => includes s' kw
  end.

(** [String.prototype.endsWith] *)
Definition endsWith (s kw : string) : bool :=
  let n := String.length s in
  let k := String.length kw in
  (k <=? n)%nat && String.eqb (substring (n - k) k s) kw.

(** [a || b] on strings: the empty string is falsy. *)
Definition or_else (a b : string) : string :=
  match a with EmptyString => b | _ => a end.

End JS.

(** ** JavaScript values, numbers and objects *)

Module JSValue.

Local Open Scope Z_scope.

(** A number that may be [NaN].  Only integers occur in the modelled
    code paths ([parseInt], counters, milliseconds). *)
Inductive number : Type :=
| NaN
| Num (z : Z).

(** [`${n}`] *)
Definition number_to_string (n : number) : string :=
  match n with
  | NaN => "NaN"
  | Num z => pretty z
  end.

Definition is_space (c : ascii) : bool :=
  let n := nat_of_ascii c in
  (n =? 32)%nat || ((9 <=? n)%nat && (n <=? 13)%nat).

Fixpoint trim_start (s : string) : string :=
  match s with
  | String c s' => if is_space c then trim_start s' else s
  | EmptyString => EmptyString
  end.

Definition reverse (s : string) : string :=
  string_of_list_ascii (List.rev (list_ascii_of_string s)).

(** [String.prototype.trim] *)
Definition trim (s : string) : string :=
  reverse (trim_start (reverse (trim_start s))).

Definition digit_value (radix : Z) (c : ascii) : option Z :=
  let n := Z.of_nat (nat_of_ascii c) in
  let v :=
    if (48 <=? n) && (n <=? 57) then Some (n - 48)
    else if (97 <=? n) && (n <=? 122) then Some (n - 87)
    else if (65 <=? n) && (n <=? 90) then Some (n - 55)
    else None in
  match v with
  | Some d => if d <? radix then Some d else None
  | None => None
  end.

(** The longest prefix of digits of [s], read in [radix]; [acc] is
    [None] until a digit has been seen. *)
Fixpoint parse_digits (radix : Z) (s : string) (acc : option Z) : option Z :=
  match s with
  | EmptyString => acc
  | String c s' =>
      match digit_value radix c with
      | Some d => parse_digits radix s' (Some (default 0 acc * radix + d))
      | None => acc
      end
  end.

(** [parseInt(s)] with no radix argument: leading white space, an
    optional sign, an optional [0x] prefix, then digits. *)
Definition parseInt (s : string) : number :=
  let s := trim_start s in
  let '(sign, s) :=
    match s with
    | String "-" r => (-1, r)
    | String "+" r => (1, r)
    | _ => (1, s)
    end in
  let '(radix, s) :=
    match s with
    | String "0" (String "x" r) | String "0" (String "X" r) => (16, r)
    | _ => (10, s)
    end in
  match parse_digits radix s None with
  | Some n => Num (sign * n)
  | None => NaN
  end.

(** The values a property read on a plain object of strings can give. *)
Inductive value : Type :=
| VUndefined
| VString (s : string)
| VFunction (name : string)      (* a built-in function *)
| VObjectPrototype.              (* [Object.prototype] itself *)

Definition truthy (v : value) : bool :=
  match v with
  | VUndefined | VString EmptyString => false
  | _ => true
  end.

(** [String(v)] *)
Definition ToString (v : value) : string :=
  match v with
  | VUndefined => "undefined"
  | VString s => s
  | VFunction name => "function " +:+ name +:+ "() { [native code] }"
  | VObjectPrototype => "[object Object]"
  end.

(** [a || b] *)
Definition or (a b : value) : value := if truthy a then a else b.

(** The methods every plain object inherits from [Object.prototype]. *)
Definition Object_prototype_methods : list string :=
  [ "__defineGetter__"; "__defineSetter__"; "hasOwnProperty";
    "__lookupGetter__"; "__lookupSetter__"; "isPrototypeOf";
    "propertyIsEnumerable"; "toString"; "valueOf"; "toLocaleString" ].

Definition Object_prototype_get (key : string) : value :=
  if String.eqb key "constructor" then VFunction "Object"
  else if String.eqb key "__proto__" then VObjectPrototype
  else if existsb (String.eqb key) Object_prototype_methods then VFunction key
  else VUndefined.

(** [obj[key]] for a plain object ([{...}] literal or [JSON.parse]
    result) whose own properties are the strings in [own]: own
    properties first, then the prototype chain. *)
Definition get_property (own : gmap string string) (key : string) : value :=
  match own !! key with
  | Some s => VString s
  | None => Object_prototype_get key
  end.

End JSValue.

Export JSValue.

(** ** types.ts: the error classes *)

Module Types.

Record GraphAPIError : Type := {
  gae_message : string;
  gae_type : string;
  gae_code : Z;
  gae_error_subcode : option Z;
  gae_fbtrace_id : string;
}.

(** Everything the modelled code can throw.  [Undefined] is what
    [throw lastError!] raises when [lastError] was never assigned.
    [RateLimitError] and [InstagramAPIError] are the [AppError]
    subclasses of types.ts; their fixed [code] and [statusCode] are
    given by [error_code] and [error_statusCode]. *)
Inductive JsError : Type :=
| Undefined
| Error (message : string)
| TypeError (message : string)
| SyntaxError (message : string)
| RateLimitError (message : string) (retryAfter : number)
| InstagramAPIError (message : string) (apiError : option GraphAPIError)
| RemoteError (message : string).   (* thrown by a third-party SDK *)

Definition error_code (e : JsError) : option string :=
  match e with
  | RateLimitError _ _ => Some "RATE_LIMIT_ERROR"
  | InstagramAPIError _ _ => Some "INSTAGRAM_API_ERROR"
  | _ => None
  end.

Definition error_statusCode (e : JsError) : option Z :=
  match e with
  | RateLimitError _ _ => Some 429%Z
  | InstagramAPIError _ _ => Some 502%Z
  | _ => None
  end.

End Types.

Export Types.

(** ** utils.ts *)

(** The regular-expression engine behind [new RegExp(p, flags)] and
    [RegExp.prototype.test].  The constructor throws a SyntaxError on a
    pattern it cannot compile; a match is taken to terminate. *)
Class RegExpEngine := {
  RegExp : Type;
  RegExp_new : string -> string -> completion JsError RegExp;
  RegExp_test : RegExp -> string -> completion JsError bool;
}.

(** A world in which time can pass: [setTimeout]. *)
Class Timers (W : Type) := {
  elapse : Z -> W -> W;
}.

(** A world with a console and [process.env.LOG_LEVEL]. *)
Class Console (W : Type) := {
  console_write : string -> string -> W -> W;   (* level, message *)
  env_LOG_LEVEL : W -> string;
}.

Module Utils.

(** *** String utilities *)

Inductive MatchType : Type :=
| contains | equals | starts_with | ends_with | regex.

(** [matchesKeyword(message, keyword, matchType, caseSensitive)].  The
    regex branch is the only one that can meet an exception, and it is
    wrapped in [try/catch]. *)
Definition matchesKeyword `{RegExpEngine} (message keyword : string)
    (matchType : MatchType) (caseSensitive : bool)
    : completion JsError bool :=
  let msg := if caseSensitive then message else JS.toLowerCase message in
  let kw := if caseSensitive then keyword else JS.toLowerCase keyword in
  match matchType with
  | contains => Return (JS.includes msg kw)
  | equals => Return (String.eqb msg kw)
  | starts_with => Return (JS.startsWith msg kw)
  | ends_with => Return (JS.endsWith msg kw)
  | regex =>
      try_catch
        (cbind (RegExp_new keyword (if caseSensitive then "" else "i"))
               (fun re => RegExp_test re message))
        (fun _ => Return false)
  end.

(** [\w] *)
Definition is_word (c : ascii) : bool :=
  let n := nat_of_ascii c in
  ((48 <=? n) && (n <=? 57) || (65 <=? n) && (n <=? 90)
   || (97 <=? n) && (n <=? 122) || (n =? 95))%nat.

(** The longest run of [\w] characters at the head of [s], and what
    follows it. *)
Fixpoint word_run (s : string) : string * string :=
  match s with
  | String c s' =>
      if is_word c then
        let '(run, rest) := word_run s' in (String c run, rest)
      else (EmptyString, s)
  | EmptyString => (EmptyString, EmptyString)
  end.

(** A match of [/\{\{(\w+)\}\}/] anchored at the head of [s]: the
    captured key.  [\w+] is greedy and [}] is not a word character, so
    only the longest run can be followed by the closing braces. *)
Definition match_placeholder (s : string) : option string :=
  match s with
  | String "{" (String "{" r) =>
      let '(key, rest) := word_run r in
      match key with
      | EmptyString => None
      | _ => if JS.startsWith rest "}}" then Some key else None
      end
  | _ => None
  end.

(** [s.replace(/\{\{(\w+)\}\}/g, callback)]: a left-to-right scan;
    where the pattern matches, the callback's result replaces the match
    and the scan resumes after it, elsewhere one character is copied.
    [skip] counts the characters of the current match still to be
    passed over. *)
Fixpoint replace_placeholders (callback : string -> string -> string)
    (s : string) (skip : nat) : string :=
  match s with
  | EmptyString => EmptyString
  | String c s' =>
      match skip with
      | S k => replace_placeholders callback s' k
      | O =>
          match match_placeholder s with
          | Some key =>
              callback ("{{" +:+ key +:+ "}}") key
                +:+ replace_placeholders callback s' (String.length key + 3)
          | None => String c (replace_placeholders callback s' 0)
          end
      end
  end.

(** [replaceVariables(template, variables)] with the callback
    [(match, key) => variables[key] || match]. *)
Definition replaceVariables (template : string)
    (variables : gmap string string) : string :=
  replace_placeholders
    (fun match_ key =>
       ToString (JSValue.or (get_property variables key) (VString match_)))
    template 0.

(** [key] is the key of a placeholder written in [s]. *)
Definition placeholder_in (key s : string) : Prop :=
  exists pre post, s = pre +:+ "{{" +:+ key +:+ "}}" +:+ post.

(** The keys the scan of [replace_placeholders] captures in [s], in
    order: one for each match of the pattern. *)
Fixpoint placeholder_keys (s : string) (skip : nat) : list string :=
  match s with
  | EmptyString => []
  | String c s' =>
      match skip with
      | S k => placeholder_keys s' k
      | O =>
          match match_placeholder s with
          | Some key => key :: placeholder_keys s' (String.length key + 3)
          | None => placeholder_keys s' 0
          end
      end
  end.

(** [s] is made of [\w] characters only. *)
Fixpoint all_word (s : string) : bool :=
  match s with
  | EmptyString => true
  | String c s' => is_word c && all_word s'
  end.

(** *** Retry utilities *)

(** [sleep(ms)] *)
Definition sleep {W} `{Timers W} (ms : Z) : M W JsError unit :=
  modify (elapse ms).

(** The [for] loop of [retryWithBackoff], entered with counter [i];
    [remaining] is the number of iterations left, [maxRetries - i]
    when that is positive. *)
Fixpoint retry_loop {W T} `{Timers W} (fn : M W JsError T)
    (maxRetries baseDelay : Z) (i : Z) (remaining : nat)
    (lastError : JsError) : M W JsError T :=
  match remaining with
  | O => throw lastError
  | S remaining' =>
      fun w =>
        match fn w with
        | (Return t, w') => (Return t, w')
        | (Throw error, w') =>
            ((if (i <? maxRetries - 1)%Z
              then sleep (baseDelay * 2 ^ i)%Z
              else ret tt) ;;;
             retry_loop fn maxRetries baseDelay (i + 1)%Z remaining' error)%eff
              w'
        end
  end.

(** [retryWithBackoff(fn, maxRetries, baseDelay)] *)
Definition retryWithBackoff {W T} `{Timers W} (fn : M W JsError T)
    (maxRetries baseDelay : Z) : M W JsError T :=
  retry_loop fn maxRetries baseDelay 0 (Z.to_nat maxRetries) Undefined.

(** *** Logging utilities

    [logger.debug] writes only when [LOG_LEVEL] is ["debug"].  The
    [meta] argument of the four functions is not rendered. *)

Definition logger_debug {W} `{Console W} (message : string)
    : M W JsError unit :=
  fun w =>
    if String.eqb (env_LOG_LEVEL w) "debug"
    then (Return tt, console_write "DEBUG" message w)
    else (Return tt, w).

Definition logger_info {W} `{Console W} (message : string)
    : M W JsError unit :=
  modify (console_write "INFO" message).

Definition logger_warn {W} `{Console W} (message : string)
    : M W JsError unit :=
  modify (console_write "WARN" message).

Definition logger_error {W} `{Console W} (message : string)
    : M W JsError unit :=
  modify (console_write "ERROR" message).

End Utils.

(** ** instagram-api.ts *)

Module InstagramApi.

Import Utils.

(** What the client asks of the platform.  Only the message-send
    request is modelled: [POST /{pageId}/messages] with body
    [{recipient: {id}, message: {text}}] and the access token as a
    query parameter. *)
Record AxiosRequest : Type := {
  req_method : string;
  req_url : string;
  req_recipient_id : string;
  req_message_text : string;
  req_access_token : string;
}.

(** [error.response] of an AxiosError. *)
Record ErrorResponse : Type := {
  res_status : Z;
  res_headers : gmap string string;
  res_data_error : option GraphAPIError;   (* [response.data.error] *)
}.

Record AxiosError : Type := {
  ae_message : string;
  ae_response : option ErrorResponse;
}.

(** A 2xx response to the message-send request: [response.data]. *)
Record AxiosResponse : Type := {
  data_message_id : string;
}.

(** How one HTTP exchange ends: the promise is fulfilled with a 2xx
    response, or rejected. *)
Inductive AxiosOutcome : Type :=
| Fulfilled (response : AxiosResponse)
| Rejected (error : AxiosError).

Inductive Event : Type :=
| EvRequest (r : AxiosRequest)
| EvSleep (ms : Z)
| EvLog (level message : string).

(** The world of the sender: what the process has done so far, oldest
    first; how the platform answers the [n]-th request it receives; and
    [process.env.LOG_LEVEL]. *)
Record World : Type := {
  trace : list Event;
  platform : nat -> AxiosRequest -> AxiosOutcome;
  LOG_LEVEL : string;
}.

Definition emit (ev : Event) (w : World) : World :=
  {| trace := trace w ++ [ev]; platform := platform w;
     LOG_LEVEL := LOG_LEVEL w |}.

#[export] Instance world_timers : Timers World :=
  {| elapse ms := emit (EvSleep ms) |}.

Definition is_request (ev : Event) : bool :=
  match ev with EvRequest _ => true | _ => false end.

Definition requests_made (w : World) : nat :=
  length (List.filter is_request (trace w)).

#[export] Instance world_console : Console World :=
  {| console_write level message := emit (EvLog level message);
     env_LOG_LEVEL := LOG_LEVEL |}.

Record InstagramAPIClient : Type := {
  accessToken : string;
}.

(** [handleAPIError(error)]: never returns; the result is the error it
    throws. *)
Definition handleAPIError (error : AxiosError) : JsError :=
  match ae_response error with
  | Some response =>
      let apiError := res_data_error response in
      if (res_status response =? 429)%Z
         || match apiError with
            | Some a => (gae_code a =? 4)%Z
            | None => false
            end
      then
        let retryAfter :=
          parseInt (JS.or_else
                      (default "" (res_headers response !! "retry-after"))
                      "60") in
        RateLimitError
          ("Instagram API rate limit exceeded. Retry after "
             +:+ number_to_string retryAfter +:+ "s")
          retryAfter
      else
        InstagramAPIError
          (JS.or_else (default "" (gae_message <$> apiError))
                      "Instagram API error")
          apiError
  | None =>
      InstagramAPIError
        (JS.or_else (ae_message error) "Failed to connect to Instagram API")
        None
  end.

(** [this.client.post(url, data, config)] through the two
    interceptors: the request interceptor logs at debug level, the
    response interceptor passes responses through and hands rejections
    to [handleAPIError]. *)
Definition client_post (r : AxiosRequest) : M World JsError AxiosResponse :=
  (logger_debug "Instagram API Request" ;;;
   fun w =>
     let outcome := platform w (requests_made w) r in
     let w' := emit (EvRequest r) w in
     match outcome with
     | Fulfilled response => (Return response, w')
     | Rejected error => (Throw (handleAPIError error), w')
     end)%eff.

Record SendMessageResponse : Type := {
  message_id : string;
  recipient_id : string;
}.

Definition send_request (this : InstagramAPIClient)
    (recipientId message pageId : string) : AxiosRequest :=
  {| req_method := "POST";
     req_url := "/" +:+ pageId +:+ "/messages";
     req_recipient_id := recipientId;
     req_message_text := message;
     req_access_token := accessToken this |}.

(** [sendMessage(recipientId, message, pageId)] *)
Definition sendMessage (this : InstagramAPIClient)
    (recipientId message pageId : string)
    : M World JsError SendMessageResponse :=
  catch
    (response <-
       retryWithBackoff
         (client_post (send_request this recipientId message pageId))
         3 1000 ;;
     logger_info "Message sent successfully" ;;;
     ret {| message_id := data_message_id response;
            recipient_id := recipientId |})%eff
    (fun error =>
       logger_error "Failed to send message" ;;;
       throw error)%eff.

(** *** Reading a trace *)

Definition is_log (ev : Event) : bool :=
  match ev with EvLog _ _ => true | _ => false end.

(** The sends and the waits of a trace, in order, without the log
    lines. *)
Definition attempts_and_waits (t : list Event) : list Event :=
  List.filter (fun ev => negb (is_log ev)) t.

(** The time slept from the head of [t] up to the next request, if
    there is one. *)
Fixpoint wait_before_next_attempt (t : list Event) : option Z :=
  match t with
  | [] => None
  | EvRequest _ :: _ => Some 0%Z
  | EvSleep ms :: rest => Z.add ms <$> wait_before_next_attempt rest
  | EvLog _ _ :: rest => wait_before_next_attempt rest
  end.

(** What a caller of [client_post] gets for an outcome. *)
Definition settle (o : AxiosOutcome) : completion JsError AxiosResponse :=
  match o with
  | Fulfilled response => Return response
  | Rejected error => Throw (handleAPIError error)
  end.

(** [w'] is [w] after the sends and waits [evs], and any log lines. *)
Definition grows (w w' : World) (evs : list Event) : Prop :=
  platform w' = platform w
  /\ LOG_LEVEL w' = LOG_LEVEL w
  /\ attempts_and_waits (trace w')
     = (attempts_and_waits (trace w) ++ evs)%list
  /\ requests_made w'
     = (requests_made w + length (List.filter is_request evs))%nat.

(** What [sendMessage] does, by the platform's next three answers:
    the sends and waits, the completion of the retry loop, and the
    completion of [sendMessage]. *)
Definition expected_events (r : AxiosRequest) (o1 o2 : AxiosOutcome)
    : list Event :=
  match o1, o2 with
  | Fulfilled _, _ => [EvRequest r]
  | Rejected _, Fulfilled _ => [EvRequest r; EvSleep 1000; EvRequest r]
  | Rejected _, Rejected _ =>
      [EvRequest r; EvSleep 1000; EvRequest r; EvSleep 2000; EvRequest r]
  end.

Definition expected_answer (o1 o2 o3 : AxiosOutcome)
    : completion JsError AxiosResponse :=
  match o1, o2 with
  | Fulfilled _, _ => settle o1
  | Rejected _, Fulfilled _ => settle o2
  | Rejected _, Rejected _ => settle o3
  end.

Definition respond (recipientId : string)
    (c : completion JsError AxiosResponse)
    : completion JsError SendMessageResponse :=
  match c with
  | Return response =>
      Return {| message_id := data_message_id response;
                recipient_id := recipientId |}
  | Throw e => Throw e
  end.

(** *** A client, and two platforms *)

Local Open Scope Z_scope.

Definition client : InstagramAPIClient := {| accessToken := "token" |}.

Definition hello : AxiosRequest := send_request client "user-1" "hello" "page-1".

Definition server_error : AxiosError :=
  {| ae_message := "Request failed with status code 500";
     ae_response :=
       Some {| res_status := 500; res_headers := ∅;
               res_data_error := None |} |}.

(** A 429 response with [Retry-After: 30]. *)
Definition rate_limited : AxiosError :=
  {| ae_message := "Request failed with status code 429";
     ae_response :=
       Some {| res_status := 429;
               res_headers := {[ "retry-after" := "30" ]};
               res_data_error := None |} |}.

(** The platform fails twice, then accepts. *)
Definition flaky : World :=
  {| trace := [];
     platform n _ :=
       match n with
       | 0%nat | 1%nat => Rejected server_error
       | _ => Fulfilled {| data_message_id := "mid.1" |}
       end;
     LOG_LEVEL := "info" |}.

(** The platform answers 429 with [Retry-After: 30] twice, then
    accepts. *)
Definition throttled : World :=
  {| trace := [];
     platform n _ :=
       match n with
       | 0%nat | 1%nat => Rejected rate_limited
       | _ => Fulfilled {| data_message_id := "mid.1" |}
       end;
     LOG_LEVEL := "info" |}.

(** The platform answers 500, then 429 with [Retry-After: 30], then
    accepts. *)
Definition throttled_late : World :=
  {| trace := [];
     platform n _ :=
       match n with
       | 0%nat => Rejected server_error
       | 1%nat => Rejected rate_limited
       | _ => Fulfilled {| data_message_id := "mid.1" |}
       end;
     LOG_LEVEL := "info" |}.

(** The response is a rate-limit signal: status 429, or API error
    code 4. *)
Definition throttling (response : ErrorResponse) : Prop :=
  res_status response = 429
  \/ exists a, res_data_error response = Some a /\ gae_code a = 4.

(** The time slept along a list of events. *)
Fixpoint waited (t : list Event) : Z :=
  match t with
  | [] => 0
  | EvSleep ms :: rest => ms + waited rest
  | _ :: rest => waited rest
  end.

(** The platform accepts every request. *)
Definition steady : World :=
  {| trace := [];
     platform n _ := Fulfilled {| data_message_id := "mid." +:+ pretty n |};
     LOG_LEVEL := "debug" |}.

End InstagramApi.

(** ** ai-service.ts *)

(** Prices are floating-point numbers; their arithmetic is left to the
    implementation of the two cost functions of utils.ts. *)
Class AiPricing := {
  Cost : Type;
  calculateOpenAICost : string -> Z -> Cost;
  calculateGeminiCost : string -> Z -> Cost;
}.

Module AiService.

Import Utils.
Local Open Scope Z_scope.

Inductive AIProvider : Type := openai | gemini | anthropic.

Definition provider_name (p : AIProvider) : string :=
  match p with
  | openai => "openai"
  | gemini => "gemini"
  | anthropic => "anthropic"
  end.

(** The five presets of [TonePreset], and any other string a caller
    may pass at run time. *)
Inductive TonePreset : Type :=
| professional | friendly | casual | enthusiastic | formal
| other_tone (name : string).

Inductive Role : Type := system | user | assistant.

Record AIMessage : Type := {
  role : Role;
  content : string;
}.

Record AIGenerateRequest : Type := {
  conversationHistory : list AIMessage;
  businessContext : string;
  tone : TonePreset;
  customInstructions : option string;
  maxTokens : option Z;
  temperature : option Q;
}.

(** [openai.chat.completions.create] *)
Record ChatRequest : Type := {
  chat_model : string;
  chat_messages : list AIMessage;
  chat_temperature : Q;
  chat_max_tokens : Z;
}.

Record ChatCompletion : Type := {
  choices : list (option string);      (* [choices[i].message.content] *)
  usage_total_tokens : option Z;       (* [usage?.total_tokens] *)
}.

(** [model.startChat({history, generationConfig}).sendMessage(prompt)];
    the answer is [result.response.text()]. *)
Record GeminiRequest : Type := {
  gemini_model : string;
  gemini_history : list (string * string);   (* role, text *)
  gemini_temperature : Q;
  gemini_maxOutputTokens : Z;
  gemini_prompt : string;
}.

Inductive Call : Type :=
| OpenAICall (r : ChatRequest)
| GeminiCall (r : GeminiRequest).

(** The world of the AI service: the clock read by [Date.now()], the
    console, the calls made to the providers so far, and how each
    provider answers its [n]-th call: after how many milliseconds, and
    with which completion. *)
Record World : Type := {
  clock : Z;
  console : list (string * string);
  calls : list Call;
  openai_api : nat -> ChatRequest -> Z * completion JsError ChatCompletion;
  gemini_api : nat -> GeminiRequest -> Z * completion JsError string;
  LOG_LEVEL : string;
}.

#[export] Instance world_console : Console World :=
  {| console_write level message w :=
       {| clock := clock w;
          console := console w ++ [(level, message)];
          calls := calls w;
          openai_api := openai_api w;
          gemini_api := gemini_api w;
          LOG_LEVEL := LOG_LEVEL w |};
     env_LOG_LEVEL := LOG_LEVEL |}.

Definition after_call (c : Call) (latency : Z) (w : World) : World :=
  {| clock := clock w + latency;
     console := console w;
     calls := calls w ++ [c];
     openai_api := openai_api w;
     gemini_api := gemini_api w;
     LOG_LEVEL := LOG_LEVEL w |}.

(** [Date.now()] *)
Definition Date_now : M World JsError Z := fun w => (Return (clock w), w).

Definition openai_create (r : ChatRequest)
    : M World JsError ChatCompletion :=
  fun w =>
    let '(latency, answer) := openai_api w (length (calls w)) r in
    (answer, after_call (OpenAICall r) latency w).

Definition gemini_sendMessage (r : GeminiRequest) : M World JsError string :=
  fun w =>
    let '(latency, answer) := gemini_api w (length (calls w)) r in
    (answer, after_call (GeminiCall r) latency w).

(** [x || d] on numbers: [undefined] and [0] are falsy. *)
Definition or_Z (x : option Z) (d : Z) : Z :=
  match x with
  | Some 0 | None => d
  | Some z => z
  end.

Definition or_Q (x : option Q) (d : Q) : Q :=
  match x with
  | Some q => if Qeq_bool q 0 then d else q
  | None => d
  end.

Record AIService : Type := {
  provider : AIProvider;
  openai_client : option string;     (* [this.openai], built from the key *)
  gemini_client : option string;     (* [this.gemini] *)
  model : string;
}.

(** [new AIService(provider, apiKey, model)] *)
Definition new_AIService (p : AIProvider) (apiKey : string)
    (model_ : option string) : AIService :=
  match p with
  | openai =>
      {| provider := p; openai_client := Some apiKey; gemini_client := None;
         model := JS.or_else (default "" model_) "gpt-3.5-turbo" |}
  | gemini =>
      {| provider := p; openai_client := None; gemini_client := Some apiKey;
         model := JS.or_else (default "" model_) "gemini-pro" |}
  | anthropic =>
      {| provider := p; openai_client := None; gemini_client := None;
         model := "gpt-3.5-turbo" |}
  end.

(** [getToneInstructions(tone)]: [toneMap[tone] || toneMap.friendly] *)
Definition getToneInstructions (t : TonePreset) : string :=
  match t with
  | professional =>
      "Use professional, polished language. Be respectful and formal. Avoid slang and excessive emojis."
  | casual =>
      "Keep it relaxed and informal. Use everyday language and emojis. Be personable and easy-going."
  | enthusiastic =>
      "Show excitement and energy! Use exclamation points and emojis. Be upbeat and positive."
  | formal =>
      "Maintain strict formality. Use proper grammar and professional vocabulary. No emojis or casual language."
  | friendly | other_tone _ =>
      "Be warm and approachable. Use a conversational tone with occasional emojis. Sound like a helpful friend."
  end.

Definition nl : string := String (ascii_of_nat 10) EmptyString.

(** [buildSystemPrompt(businessContext, tone, customInstructions)] *)
Definition buildSystemPrompt (businessContext_ : string) (tone_ : TonePreset)
    (customInstructions_ : option string) : string :=
  "You are an AI assistant helping with Instagram direct messages for a business." +:+ nl
  +:+ nl
  +:+ "BUSINESS CONTEXT:" +:+ nl
  +:+ businessContext_ +:+ nl
  +:+ nl
  +:+ "TONE & STYLE:" +:+ nl
  +:+ getToneInstructions tone_ +:+ nl
  +:+ nl
  +:+ "INSTRUCTIONS:" +:+ nl
  +:+ "1. Respond naturally and conversationally" +:+ nl
  +:+ "2. Keep responses concise (1-3 sentences max)" +:+ nl
  +:+ "3. Be helpful and address the user's question or concern" +:+ nl
  +:+ "4. Use the business context to provide relevant information" +:+ nl
  +:+ "5. Don't mention that you're an AI unless asked" +:+ nl
  +:+ "6. Use emojis sparingly and appropriately" +:+ nl
  +:+ "7. If you don't know something, be honest and offer to help in another way" +:+ nl
  +:+ match customInstructions_ with
      | Some (String c s) =>
          nl +:+ "ADDITIONAL INSTRUCTIONS:" +:+ nl +:+ String c s
      | _ => ""
      end +:+ nl
  +:+ nl
  +:+ "Generate a response to the user's latest message following these guidelines.".

(** The request [generateOpenAIResponse] sends: the system prompt,
    then the conversation history. *)
Definition openai_request (this : AIService) (request : AIGenerateRequest)
    : ChatRequest :=
  let systemPrompt :=
    buildSystemPrompt (businessContext request) (tone request)
                      (customInstructions request) in
  let messages :=
    {| role := system; content := systemPrompt |}
      :: map (fun msg => {| role := role msg; content := content msg |})
             (conversationHistory request) in
  {| chat_model := model this;
     chat_messages := messages;
     chat_temperature := or_Q (temperature request) (7 # 10);
     chat_max_tokens := or_Z (maxTokens request) 500 |}.

(** The prompt [generateGeminiResponse] sends: the system prompt and
    the last message of the history. *)
Definition gemini_prompt_for (request : AIGenerateRequest)
    (lastMessage : AIMessage) : string :=
  buildSystemPrompt (businessContext request) (tone request)
                    (customInstructions request)
    +:+ nl +:+ nl +:+ "User message: " +:+ content lastMessage.

(** The chat [generateGeminiResponse] opens, on the history without its
    last message, and the prompt it sends. *)
Definition gemini_request (this : AIService) (request : AIGenerateRequest)
    (lastMessage : AIMessage) : GeminiRequest :=
  let history :=
    map (fun msg =>
           (match role msg with
            | assistant => "model"
            | _ => "user"
            end, content msg))
        (removelast (conversationHistory request)) in
  {| gemini_model := model this;
     gemini_history := history;
     gemini_temperature := or_Q (temperature request) (7 # 10);
     gemini_maxOutputTokens := or_Z (maxTokens request) 500;
     gemini_prompt := gemini_prompt_for request lastMessage |}.

Section WithPricing.
Context `{AiPricing}.

Record AIGenerateResponse : Type := {
  message : string;
  tokensUsed : Z;
  response_model : string;
  cost : Cost;
  processingTimeMs : Z;
}.

(** [response.processingTimeMs = ms] *)
Definition set_processingTimeMs (r : AIGenerateResponse) (ms : Z)
    : AIGenerateResponse :=
  {| message := message r; tokensUsed := tokensUsed r;
     response_model := response_model r; cost := cost r;
     processingTimeMs := ms |}.

(** [generateOpenAIResponse(request)] *)
Definition generateOpenAIResponse (this : AIService)
    (request : AIGenerateRequest) : M World JsError AIGenerateResponse :=
  match openai_client this with
  | None => throw (Error "OpenAI client not initialized")
  | Some _ =>
      (completion_ <- openai_create (openai_request this request) ;;
       match choices completion_ with
       | [] =>
           throw (TypeError
                    "Cannot read properties of undefined (reading 'message')")
       | first :: _ =>
           let message_ := JS.or_else (default "" first) "" in
           let tokensUsed_ := or_Z (usage_total_tokens completion_) 0 in
           ret {| message := message_;
                  tokensUsed := tokensUsed_;
                  response_model := model this;
                  cost := calculateOpenAICost (model this) tokensUsed_;
                  processingTimeMs := 0 |}
       end)%eff
  end.

(** [generateGeminiResponse(request)] *)
Definition generateGeminiResponse (this : AIService)
    (request : AIGenerateRequest) : M World JsError AIGenerateResponse :=
  match gemini_client this with
  | None => throw (Error "Gemini client not initialized")
  | Some _ =>
      match last (conversationHistory request) with
      | None =>
          throw (TypeError
                   "Cannot read properties of undefined (reading 'content')")
      | Some lastMessage =>
          let prompt := gemini_prompt_for request lastMessage in
          (message_ <-
             gemini_sendMessage (gemini_request this request lastMessage) ;;
           let tokensUsed_ :=
             (Z.of_nat (String.length message_ + String.length prompt) + 3)
               / 4 in
           ret {| message := message_;
                  tokensUsed := tokensUsed_;
                  response_model := model this;
                  cost := calculateGeminiCost (model this) tokensUsed_;
                  processingTimeMs := 0 |})%eff
      end
  end.

(** The branch of [generateResponse] that picks the provider. *)
Definition call_provider (this : AIService) (request : AIGenerateRequest)
    : M World JsError AIGenerateResponse :=
  match provider this, openai_client this, gemini_client this with
  | openai, Some _, _ => generateOpenAIResponse this request
  | gemini, _, Some _ => generateGeminiResponse this request
  | p, _, _ => throw (Error ("Unsupported AI provider: " +:+ provider_name p))
  end.

(** [generateResponse(request)] *)
Definition generateResponse (this : AIService) (request : AIGenerateRequest)
    : M World JsError AIGenerateResponse :=
  (startTime <- Date_now ;;
   catch
     (logger_info "Generating AI response" ;;;
      response <- call_provider this request ;;
      now_ <- Date_now ;;
      let response := set_processingTimeMs response (now_ - startTime) in
      logger_info "AI response generated" ;;;
      ret response)
     (fun error =>
        logger_error "Failed to generate AI response" ;;;
        throw error))%eff.

End WithPricing.

(** [simpleSentimentAnalysis(message)] *)
Definition positiveWords : list string :=
  ["great"; "awesome"; "excellent"; "love"; "thanks"; "perfect"; "amazing";
   "good"].

Definition negativeWords : list string :=
  ["bad"; "terrible"; "awful"; "hate"; "worst"; "poor"; "disappointed";
   "angry"].

Definition simpleSentimentAnalysis (message_ : string) : string :=
  let lowerMessage := JS.toLowerCase message_ in
  let positiveCount :=
    length (List.filter (fun word => JS.includes lowerMessage word)
                        positiveWords) in
  let negativeCount :=
    length (List.filter (fun word => JS.includes lowerMessage word)
                        negativeWords) in
  if (negativeCount <? positiveCount)%nat then "positive"
  else if (positiveCount <? negativeCount)%nat then "negative"
  else "neutral".

(** The request [analyzeSentiment] sends. *)
Definition sentiment_request (message_ : string) : ChatRequest :=
  {| chat_model := "gpt-3.5-turbo";
     chat_messages :=
       [ {| role := system;
            content := "Analyze the sentiment of the message. Respond with only one word: positive, neutral, or negative." |};
         {| role := user; content := message_ |} ];
     chat_temperature := 3 # 10;
     chat_max_tokens := 10 |}.

(** [analyzeSentiment(message)] *)
Definition analyzeSentiment (this : AIService) (message_ : string)
    : M World JsError string :=
  catch
    (match provider this, openai_client this with
     | openai, Some _ =>
         (completion_ <- openai_create (sentiment_request message_) ;;
          match choices completion_ with
          | [] =>
              throw (TypeError
                       "Cannot read properties of undefined (reading 'message')")
          | first :: _ =>
              let sentiment :=
                default "" ((fun c => trim (JS.toLowerCase c)) <$> first) in
              ret (JS.or_else sentiment "neutral")
          end)%eff
     | _, _ => ret (simpleSentimentAnalysis message_)
     end)
    (fun error =>
       logger_error "Failed to analyze sentiment" ;;;
       ret "neutral")%eff.

(** The world in which [generateResponse] calls the provider: the
    start has been logged. *)
Definition started (w : World) : World :=
  console_write "INFO" "Generating AI response" w.

(** *** A service, a request, an outage *)

Definition support_bot : AIService :=
  new_AIService openai "sk-test" None.

Definition question : AIGenerateRequest :=
  {| conversationHistory := [ {| role := user; content := "Do you ship to Spain?" |} ];
     businessContext := "A small shop selling ceramics.";
     tone := friendly;
     customInstructions := None;
     maxTokens := None;
     temperature := None |}.

(** The provider is down: every call fails after 120 ms. *)
Definition outage : World :=
  {| clock := 1700000000000;
     console := [];
     calls := [];
     openai_api _ _ := (120, Throw (RemoteError "503 Service Unavailable"));
     gemini_api _ _ := (120, Throw (RemoteError "503 Service Unavailable"));
     LOG_LEVEL := "info" |}.

(** The provider answers every call after 850 ms, with one choice and
    no usage report. *)
Definition chatty : World :=
  {| clock := 1700000000000;
     console := [];
     calls := [];
     openai_api _ _ :=
       (850, Return {| choices := [Some "Yes, we ship to Spain!"];
                       usage_total_tokens := None |});
     gemini_api _ _ := (850, Return "Yes, we ship to Spain!");
     LOG_LEVEL := "info" |}.

End AiService.

(** ** packages/db/src/index.ts *)

Module Db.

Inductive MessageRole : Type := user | assistant.

Record Message : Type := {
  role : MessageRole;
  content : string;
  timestamp : Z;                 (* a [Date], in milliseconds *)
  messageId : option string;
}.

(** A row of the [Conversation] table. *)
Record Conversation : Type := {
  igAccountId : string;
  senderId : string;
  senderUsername : option string;
  messages : list Message;       (* the JSON column *)
  firstMessageAt : Z;
  lastMessageAt : Z;
}.

(** The database as the process sees it: the [Conversation] table,
    keyed by row id. *)
Record World : Type := {
  conversation : gmap string Conversation;
}.

(** [db.conversation.findUnique({where: {id}, select: {messages: true}})]:
    the selected column of the row, or [null]. *)
Definition conversation_findUnique (id : string)
    : M World JsError (option (list Message)) :=
  fun w => (Return (messages <$> conversation w !! id), w).

(** [db.conversation.update({where: {id}, data: {messages,
    lastMessageAt}})]: writes the two columns and gives back the row;
    throws when no row has this id. *)
Definition conversation_update (id : string) (messages_ : list Message)
    (lastMessageAt_ : Z) : M World JsError Conversation :=
  fun w =>
    match conversation w !! id with
    | None => (Throw (Error "Record to update not found."), w)
    | Some row =>
        let row' :=
          {| igAccountId := igAccountId row;
             senderId := senderId row;
             senderUsername := senderUsername row;
             messages := messages_;
             firstMessageAt := firstMessageAt row;
             lastMessageAt := lastMessageAt_ |} in
        (Return row', {| conversation := <[id := row']> (conversation w) |})
    end.

(** [addMessageToConversation(conversationId, message)] *)
Definition addMessageToConversation (conversationId : string)
    (message : Message) : M World JsError Conversation :=
  (found <- conversation_findUnique conversationId ;;
   match found with
   | None => throw (Error "Conversation not found")
   | Some messages_ =>
       (* [messages.push(message)] *)
       let messages_ := (messages_ ++ [message])%list in
       conversation_update conversationId messages_ (timestamp message)
   end)%eff.

(** *** Reading a conversation *)

Definition history (w : World) (id : string) : list Message :=
  default [] (messages <$> conversation w !! id).

(** Timestamps never decrease along the list. *)
Fixpoint in_timestamp_order (l : list Message) : bool :=
  match l with
  | m1 :: ((m2 :: _) as rest) =>
      (timestamp m1 <=? timestamp m2)%Z && in_timestamp_order rest
  | _ => true
  end.

(** The world left by a sequence of appends to one conversation, made
    one after the other in the order of the list. *)
Fixpoint append_all (id : string) (arrivals : list Message) (w : World)
    : World :=
  match arrivals with
  | [] => w
  | m :: rest => append_all id rest (snd (addMessageToConversation id m w))
  end.

(** *** Calls that overlap *)

(** [addMessageToConversation] awaits its read and then its write, and
    no transaction holds the two together: between them other calls
    can run.  A call in flight keeps what its read returned. *)
Record Call : Type := {
  call_conversationId : string;
  call_message : Message;
}.

Inductive Step : Type :=
| Find (k : nat)       (* call [k] runs up to the answer of [findUnique] *)
| Update (k : nat).     (* call [k] resumes and runs to its end *)

Record Flight : Type := {
  db : World;
  found : gmap nat (option (list Message));
}.

Definition step (calls : list Call) (f : Flight) (s : Step) : Flight :=
  match s with
  | Find k =>
      match calls !! k with
      | Some c =>
          match conversation_findUnique (call_conversationId c) (db f) with
          | (Return answer, w) =>
              {| db := w; found := <[k := answer]> (found f) |}
          | (Throw _, w) => {| db := w; found := found f |}
          end
      | None => f
      end
  | Update k =>
      match calls !! k, found f !! k with
      | Some c, Some (Some messages_) =>
          let messages_ := (messages_ ++ [call_message c])%list in
          {| db := (conversation_update (call_conversationId c) messages_
                      (timestamp (call_message c)) (db f)).2;
             found := delete k (found f) |}
      | Some c, Some None =>
          (* throws "Conversation not found" *)
          {| db := db f; found := delete k (found f) |}
      | _, _ => f
      end
  end.

(** The database after the calls have run in the order of
    [schedule]. *)
Definition run (calls : list Call) (schedule : list Step) (w : World)
    : World :=
  db (fold_left (step calls) schedule {| db := w; found := ∅ |}).

(** No call starts before the one before it has finished. *)
Definition one_after_the_other (n : nat) : list Step :=
  flat_map (fun k => [Find k; Update k]) (seq 0 n).

(** *** A thread, and two messages sent a second apart *)

Definition early : Message :=
  {| role := user; content := "first"; timestamp := 1000;
     messageId := Some "m1" |}.

Definition late : Message :=
  {| role := user; content := "second"; timestamp := 2000;
     messageId := Some "m2" |}.

Definition fresh_row : Conversation :=
  {| igAccountId := "acct"; senderId := "sender"; senderUsername := None;
     messages := []; firstMessageAt := 0; lastMessageAt := 0 |}.

Definition thread : World := {| conversation := {[ "c1" := fresh_row ]} |}.

End Db.

(** ** packages/db/src/redis.ts, apps/webhook and apps/worker *)

Module Pipeline.

(** redis.ts [WebhookJobData]; [payload] is kept as JSON text. *)
Record WebhookJobData : Type := {
  eventType : string;
  payload : string;
  receivedAt : string;
  igAccountId : option string;
}.

(** A BullMQ job. *)
Record Job : Type := {
  job_id : string;
  job_name : string;
  job_data : WebhookJobData;
  job_priority : Z;
}.

(** A message handed to the platform, and a row of the activity log:
    the two outcomes a processed event can have. *)
Record OutboundMessage : Type := {
  out_recipientId : string;
  out_text : string;
}.

Record ActivityLog : Type := {
  log_incomingMessage : string;
  log_status : string;
}.

(** Everything the webhook server and the worker can act on: the
    console, the Redis queues by name with the counter BullMQ draws job
    ids from, the messages sent to the platform, the activity log
    table, and [process.env.WEBHOOK_VERIFY_TOKEN]. *)
Record World : Type := {
  console : list string;
  queues : gmap string (list Job);
  job_counter : nat;
  sent : list OutboundMessage;
  activityLog : list ActivityLog;
  WEBHOOK_VERIFY_TOKEN : option string;
}.

Definition console_log (line : string) (w : World) : World :=
  {| console := console w ++ [line];
     queues := queues w;
     job_counter := job_counter w;
     sent := sent w;
     activityLog := activityLog w;
     WEBHOOK_VERIFY_TOKEN := WEBHOOK_VERIFY_TOKEN w |}.

Definition queue (w : World) (name : string) : list Job :=
  default [] (queues w !! name).

(** [new Queue(name).add(jobName, data, {priority})] with no [jobId]
    option: BullMQ draws a fresh id and stores the job. *)
Definition Queue_add (name jobName : string) (data : WebhookJobData)
    (priority : Z) : M World JsError Job :=
  fun w =>
    let job :=
      {| job_id := pretty (S (job_counter w));
         job_name := jobName;
         job_data := data;
         job_priority := priority |} in
    (Return job,
     {| console := console w;
        queues := <[name := (queue w name ++ [job])%list]> (queues w);
        job_counter := S (job_counter w);
        sent := sent w;
        activityLog := activityLog w;
        WEBHOOK_VERIFY_TOKEN := WEBHOOK_VERIFY_TOKEN w |}).

(** [queueWebhookEvent(data)] *)
Definition queueWebhookEvent (data : WebhookJobData) : M World JsError Job :=
  Queue_add "webhook-events" "webhook-event" data 1.

(** An Express request after [express.json()]: headers, query string,
    and the parsed body, kept as the text [JSON.stringify(req.body)]
    gives. *)
Record Request : Type := {
  headers : gmap string string;
  query : gmap string string;
  body : string;
}.

Record Response : Type := {
  status : Z;
  sent_body : string;
}.

(** [app.get("/webhook", ...)] *)
Definition get_webhook (req : Request) : M World JsError Response :=
  fun w =>
    let mode := query req !! "hub.mode" in
    let token := query req !! "hub.verify_token" in
    let challenge := query req !! "hub.challenge" in
    if bool_decide (mode = Some "subscribe")
       && bool_decide (token = WEBHOOK_VERIFY_TOKEN w)
    then (Return {| status := 200; sent_body := default "" challenge |}, w)
    else (Return {| status := 403; sent_body := "Forbidden" |}, w).

(** [app.post("/webhook", ...)] *)
Definition post_webhook (req : Request) : M World JsError Response :=
  fun w =>
    let w := console_log ("webhook event " +:+ substring 0 200 (body req)) w in
    (* TODO: push to queue *)
    (Return {| status := 200; sent_body := "OK" |}, w).

(** *** The request before the handler *)






(** apps/worker: the processor of the ["inbound-events"] queue, and the
    ["completed"] listener. *)
Definition process_job (job : Job) : M World JsError unit :=
  (* TODO: process automation logic *)
  modify (console_log ("Processing job " +:+ job_id job +:+ " "
                         +:+ job_name job)).

(** One turn of the worker: it takes the oldest job of
    ["inbound-events"], if there is one, and processes it. *)
Definition worker_step (w : World) : World :=
  match queue w "inbound-events" with
  | [] => w
  | job :: rest =>
      let w :=
        {| console := console w;
           queues := <["inbound-events" := rest]> (queues w);
           job_counter := job_counter w;
           sent := sent w;
           activityLog := activityLog w;
           WEBHOOK_VERIFY_TOKEN := WEBHOOK_VERIFY_TOKEN w |} in
      match process_job job w with
      | (Return _, w) => console_log ("Job completed " +:+ job_id job) w
      | (Throw _, w) => console_log ("Job failed " +:+ job_id job) w
      end
  end.

(** The upstream platform delivers the requests of the list, one after
    the other; the responses are collected. *)
Fixpoint deliver (reqs : list Request) (w : World) : list Response * World :=
  match reqs with
  | [] => ([], w)
  | req :: rest =>
      match post_webhook req w with
      | (Return res, w) =>
          let '(ress, w) := deliver rest w in (res :: ress, w)
      | (Throw _, w) =>
          (* Express answers 500 when a handler throws *)
          let '(ress, w) := deliver rest w in
          ({| status := 500; sent_body := "Internal Server Error" |} :: ress,
           w)
      end
  end.

(** The worker then runs for [turns] turns. *)
Definition run_pipeline (reqs : list Request) (turns : nat) (w : World)
    : list Response * World :=
  let '(ress, w) := deliver reqs w in
  (ress, Nat.iter turns worker_step w).

(** The outcomes that the idempotency property counts: outbound sends
    and activity-log rows. *)
Definition outcomes (w : World) : nat :=
  length (sent w) + length (activityLog w).

(** [queueWebhookEvent] called once per element of the list. *)
Fixpoint enqueue_all (events : list WebhookJobData) (w : World) : World :=
  match events with
  | [] => w
  | data :: rest => enqueue_all rest (snd (queueWebhookEvent data w))
  end.

(** *** Responses, a world at rest, an event *)

(** What [res.sendStatus(200)] sends. *)
Definition ok : Response := {| status := 200; sent_body := "OK" |}.

Local Open Scope Z_scope.

Definition quiet : World :=
  {| console := []; queues := ∅; job_counter := 0; sent := [];
     activityLog := []; WEBHOOK_VERIFY_TOKEN := Some "verify-me" |}.

(** An inbound message event with no signature header. *)
Definition dq : string := String (ascii_of_nat 34) EmptyString.

Definition quoted (s : string) : string := dq +:+ s +:+ dq.

Definition unsigned_event : Request :=
  {| headers := {[ "content-type" := "application/json" ]};
     query := ∅;
     body :=
       "{" +:+ quoted "object" +:+ ":" +:+ quoted "instagram" +:+ ","
       +:+ quoted "entry" +:+ ":[{" +:+ quoted "id" +:+ ":"
       +:+ quoted "acct" +:+ "," +:+ quoted "messaging" +:+ ":[{"
       +:+ quoted "sender" +:+ ":{" +:+ quoted "id" +:+ ":" +:+ quoted "u1"
       +:+ "}," +:+ quoted "message" +:+ ":{" +:+ quoted "mid" +:+ ":"
       +:+ quoted "evt-1" +:+ "," +:+ quoted "text" +:+ ":"
       +:+ quoted "price?" +:+ "}}]}]}" |}.


End Pipeline.

(** ** Buffers, base64 and UTF-8 *)

Module Buffer.

Local Open Scope Z_scope.

(** A Node [Buffer] is a list of bytes. *)
Definition byte_to_Z (b : byte) : Z := Z.of_N (Byte.to_N b).

Definition byte_of_Z (z : Z) : byte :=
  default Byte.x00 (Byte.of_N (Z.to_N z)).

(** [buf.slice(start, end)] and [buf.slice(start)] for indices within
    [0 .. 2^31]; an index past the end is clamped. *)
Definition slice (buf : list byte) (start end_ : nat) : list byte :=
  take (end_ - start) (drop start buf).

Definition slice_from (buf : list byte) (start : nat) : list byte :=
  drop start buf.

(** *** base64 *)

Definition alphabet : string :=
  "ABCDEFGHIJKLMNOPQRSTUVWXYZabcdefghijklmnopqrstuvwxyz0123456789+/".

Definition b64_char (n : Z) : ascii :=
  default "="%char (String.get (Z.to_nat n) alphabet).

(** The value of a base64 character; the URL-safe [-] and [_] are
    accepted too. *)
Definition b64_value (c : ascii) : option Z :=
  let n := Z.of_nat (nat_of_ascii c) in
  if (65 <=? n) && (n <=? 90) then Some (n - 65)
  else if (97 <=? n) && (n <=? 122) then Some (n - 71)
  else if (48 <=? n) && (n <=? 57) then Some (n + 4)
  else if (n =? 43) || (n =? 45) then Some 62
  else if (n =? 47) || (n =? 95) then Some 63
  else None.

(** [buf.toString('base64')] *)
Fixpoint base64_encode (buf : list byte) : string :=
  match buf with
  | [] => ""
  | [a] =>
      let x := byte_to_Z a in
      String (b64_char (x / 4))
        (String (b64_char (x mod 4 * 16)) "==")
  | [a; b] =>
      let x := byte_to_Z a in
      let y := byte_to_Z b in
      String (b64_char (x / 4))
        (String (b64_char (x mod 4 * 16 + y / 16))
           (String (b64_char (y mod 16 * 4)) "="))
  | a :: b :: c :: rest =>
      let x := byte_to_Z a in
      let y := byte_to_Z b in
      let z := byte_to_Z c in
      String (b64_char (x / 4))
        (String (b64_char (x mod 4 * 16 + y / 16))
           (String (b64_char (y mod 16 * 4 + z / 64))
              (String (b64_char (z mod 64)) (base64_encode rest))))
  end.

(** The 6-bit values of a base64 text: characters outside the alphabet
    are passed over, and reading stops at the first [=]. *)
Fixpoint sextets (s : string) : list Z :=
  match s with
  | EmptyString => []
  | String c s' =>
      if Ascii.eqb c "=" then []
      else match b64_value c with
           | Some v => v :: sextets s'
           | None => sextets s'
           end
  end.

Fixpoint bytes_of_sextets (l : list Z) : list byte :=
  match l with
  | s0 :: s1 :: s2 :: s3 :: rest =>
      byte_of_Z (s0 * 4 + s1 / 16)
        :: byte_of_Z (s1 mod 16 * 16 + s2 / 4)
        :: byte_of_Z (s2 mod 4 * 64 + s3)
        :: bytes_of_sextets rest
  | [s0; s1; s2] =>
      [byte_of_Z (s0 * 4 + s1 / 16); byte_of_Z (s1 mod 16 * 16 + s2 / 4)]
  | [s0; s1] => [byte_of_Z (s0 * 4 + s1 / 16)]
  | _ => []
  end.

(** [Buffer.from(s, 'base64')] *)
Definition base64_decode (s : string) : list byte :=
  bytes_of_sextets (sextets s).

(** *** JavaScript strings as UTF-16, and their UTF-8 form

    Where the encoding matters a string is the list of its UTF-16 code
    units, each in [0 .. 0xFFFF]. *)

Definition is_code_unit (u : Z) : bool := (0 <=? u) && (u <? 65536).
Definition is_high_surrogate (u : Z) : bool := (55296 <=? u) && (u <? 56320).
Definition is_low_surrogate (u : Z) : bool := (56320 <=? u) && (u <? 57344).

(** U+FFFD, the replacement character, in UTF-8. *)
Definition replacement : list byte := [Byte.xef; Byte.xbf; Byte.xbd].

(** The UTF-8 form of one code point. *)
Definition encode_code_point (cp : Z) : list byte :=
  if cp <? 128 then [byte_of_Z cp]
  else if cp <? 2048 then
    [byte_of_Z (192 + cp / 64); byte_of_Z (128 + cp mod 64)]
  else if cp <? 65536 then
    [byte_of_Z (224 + cp / 4096); byte_of_Z (128 + cp / 64 mod 64);
     byte_of_Z (128 + cp mod 64)]
  else
    [byte_of_Z (240 + cp / 262144); byte_of_Z (128 + cp / 4096 mod 64);
     byte_of_Z (128 + cp / 64 mod 64); byte_of_Z (128 + cp mod 64)].

(** [Buffer.from(s, 'utf8')]: a surrogate pair is one code point, a
    surrogate on its own becomes U+FFFD. *)
Fixpoint utf8_encode (s : list Z) : list byte :=
  match s with
  | [] => []
  | u :: rest =>
      if is_high_surrogate u then
        match rest with
        | v :: rest' =>
            if is_low_surrogate v then
              encode_code_point
                (65536 + (u - 55296) * 1024 + (v - 56320))
                ++ utf8_encode rest'
            else replacement ++ utf8_encode rest
        | [] => replacement
        end
      else if is_low_surrogate u then replacement ++ utf8_encode rest
      else encode_code_point u ++ utf8_encode rest
  end.

(** The UTF-16 form of one code point. *)
Definition utf16 (cp : Z) : list Z :=
  if cp <? 65536 then [cp]
  else [55296 + (cp - 65536) / 1024; 56320 + (cp - 65536) mod 1024].

(** The decoder is between characters, or inside one: the bits read so
    far, the continuation bytes still due, and the range allowed for
    the next byte. *)
Inductive decoder : Type :=
| Start
| Pending (cp : Z) (due : nat) (lower upper : Z).

(** A byte met between characters: what it emits, and the state it
    leaves. *)
Definition lead (b : Z) : list Z * decoder :=
  if b <=? 127 then ([b], Start)
  else if (194 <=? b) && (b <=? 223) then ([], Pending (b - 192) 0 128 191)
  else if (224 <=? b) && (b <=? 239) then
    ([], Pending (b - 224) 1
           (if b =? 224 then 160 else 128)
           (if b =? 237 then 159 else 191))
  else if (240 <=? b) && (b <=? 244) then
    ([], Pending (b - 240) 2
           (if b =? 240 then 144 else 128)
           (if b =? 244 then 143 else 191))
  else ([65533], Start).

Fixpoint utf8_decode_from (st : decoder) (buf : list byte) : list Z :=
  match buf with
  | [] =>
      match st with
      | Start => []
      | Pending _ _ _ _ => [65533]
      end
  | byte_ :: rest =>
      let b := byte_to_Z byte_ in
      match st with
      | Start =>
          let '(out, st') := lead b in out ++ utf8_decode_from st' rest
      | Pending cp due lower upper =>
          if (lower <=? b) && (b <=? upper) then
            let cp := cp * 64 + (b - 128) in
            match due with
            | O => utf16 cp ++ utf8_decode_from Start rest
            | S due' => utf8_decode_from (Pending cp due' 128 191) rest
            end
          else
            let '(out, st') := lead b in
            65533 :: out ++ utf8_decode_from st' rest
      end
  end.

(** [buf.toString('utf8')] *)
Definition utf8_decode (buf : list byte) : list Z :=
  utf8_decode_from Start buf.

(** A well-formed string: code units in range, every high surrogate
    followed by a low one, no low surrogate elsewhere. *)
Fixpoint well_formed (s : list Z) : bool :=
  match s with
  | [] => true
  | u :: rest =>
      is_code_unit u &&
      if is_high_surrogate u then
        match rest with
        | v :: rest' => is_low_surrogate v && well_formed rest'
        | [] => false
        end
      else negb (is_low_surrogate u) && well_formed rest
  end.

(** A Unicode scalar value: a code point that is not a surrogate. *)
Definition scalar (cp : Z) : Prop :=
  0 <= cp < 1114112 /\ ~ (55296 <= cp < 57344).

(** [s] with every unpaired surrogate replaced by U+FFFD. *)
Fixpoint scrub (s : list Z) : list Z :=
  match s with
  | [] => []
  | u :: rest =>
      if is_high_surrogate u then
        match rest with
        | v :: rest' =>
            if is_low_surrogate v then u :: v :: scrub rest'
            else 65533 :: scrub rest
        | [] => [65533]
        end
      else if is_low_surrogate u then 65533 :: scrub rest
      else u :: scrub rest
  end.

End Buffer.

(** ** utils.ts: encryption utilities *)

(** Node's [crypto]: PBKDF2 and AES-256-GCM.  [gcm_encrypt key iv
    plaintext] gives the ciphertext and the authentication tag;
    [gcm_decrypt key iv ciphertext tag] gives the plaintext when the
    tag authenticates it. *)
Class CryptoEngine := {
  pbkdf2Sync : list Z -> list byte -> Z -> Z -> string -> list byte;
  gcm_encrypt : list byte -> list byte -> list byte -> list byte * list byte;
  gcm_decrypt :
    list byte -> list byte -> list byte -> list byte -> option (list byte);
}.

(** What the round trip needs of AES-256-GCM: tags are 16 bytes long,
    and decryption undoes encryption under the same key and IV. *)
Class CryptoLaws `{CryptoEngine} : Prop := {
  gcm_tag_length : forall key iv plaintext,
    length (gcm_encrypt key iv plaintext).2 = 16%nat;
  gcm_decrypt_encrypt : forall key iv plaintext,
    length iv = 16%nat ->
    gcm_decrypt key iv (gcm_encrypt key iv plaintext).1
                (gcm_encrypt key iv plaintext).2
      = Some plaintext;
}.

Module Encryption.

Import Buffer.

Definition IV_LENGTH : nat := 16.
Definition SALT_LENGTH : nat := 64.
Definition TAG_LENGTH : nat := 16.
Definition TAG_POSITION : nat := SALT_LENGTH + IV_LENGTH.
Definition ENCRYPTED_POSITION : nat := TAG_POSITION + TAG_LENGTH.

(** The source of [crypto.randomBytes]: an unbounded supply of bytes
    and the number already drawn. *)
Record World : Type := {
  entropy : nat -> byte;
  drawn : nat;
}.

(** [crypto.randomBytes(n)] *)
Definition randomBytes (n : nat) : M World JsError (list byte) :=
  fun w =>
    (Return (map (entropy w) (seq (drawn w) n)),
     {| entropy := entropy w; drawn := drawn w + n |}).

Section WithCrypto.
Context `{CryptoEngine}.

(** [encrypt(text, secretKey)] *)
Definition encrypt (text secretKey : list Z) : M World JsError string :=
  (iv <- randomBytes IV_LENGTH ;;
   salt <- randomBytes SALT_LENGTH ;;
   let key := pbkdf2Sync secretKey salt 100000 32 "sha512" in
   let '(encrypted, tag) := gcm_encrypt key iv (utf8_encode text) in
   ret (base64_encode (salt ++ iv ++ tag ++ encrypted)))%eff.

(** [decrypt(encryptedData, secretKey)].  [createDecipheriv] refuses an
    empty IV; [decipher.final] throws when the tag does not
    authenticate the data. *)
Definition decrypt (encryptedData : string) (secretKey : list Z)
    : completion JsError (list Z) :=
  let buffer := base64_decode encryptedData in
  let salt := slice buffer 0 SALT_LENGTH in
  let iv := slice buffer SALT_LENGTH TAG_POSITION in
  let tag := slice buffer TAG_POSITION ENCRYPTED_POSITION in
  let encrypted := slice_from buffer ENCRYPTED_POSITION in
  let key := pbkdf2Sync secretKey salt 100000 32 "sha512" in
  match iv with
  | [] => Throw (TypeError "Invalid initialization vector")
  | _ =>
      match gcm_decrypt key iv encrypted tag with
      | Some plaintext => Return (utf8_decode plaintext)
      | None =>
          Throw (Error "Unsupported state or unable to authenticate data")
      end
  end.

(** [decrypt(encrypt(text, secretKey), secretKey)] gives [text] back. *)
Definition round_trips (text secretKey : list Z) (w : World) : Prop :=
  exists payload w',
    encrypt text secretKey w = (Return payload, w')
    /\ decrypt payload secretKey = Return text.

End WithCrypto.

End Encryption.

(** ** utils.ts: retry with backoff, observed

    The simplest world in which [retryWithBackoff] can be watched: the
    record of the calls made to the retried function and of the time
    slept between them. *)

Module RetryTrace.

Import Utils.

Inductive Step : Type :=
| Called
| Slept (ms : Z).

#[export] Instance steps_timers : Timers (list Step) :=
  {| elapse ms w := (w ++ [Slept ms])%list |}.

Definition is_call (s : Step) : bool :=
  match s with Called => true | Slept _ => false end.

Definition calls_made (w : list Step) : nat :=
  length (List.filter is_call w).

(** A function whose [n]-th call (from 0) completes as [outcomes n]. *)
Definition scripted {T} (outcomes : nat -> completion JsError T)
    : M (list Step) JsError T :=
  fun w => (outcomes (calls_made w), (w ++ [Called])%list).

(** [attempts] calls with the backoff waits between them, the first
    wait being [baseDelay * 2 ^ i]. *)
Fixpoint backoff_trace (baseDelay i : Z) (attempts : nat) : list Step :=
  match attempts with
  | O => []
  | S O => [Called]
  | S attempts' =>
      Called :: Slept (baseDelay * 2 ^ i)
        :: backoff_trace baseDelay (i + 1) attempts'
  end.

Fixpoint total_slept (w : list Step) : Z :=
  match w with
  | [] => 0
  | Called :: rest => total_slept rest
  | Slept ms :: rest => ms + total_slept rest
  end.

(** A function that fails twice and then returns. *)
Definition third_time_lucky (n : nat) : completion JsError string :=
  match n with
  | 0%nat | 1%nat => Throw (Error "ECONNRESET")
  | _ => Return "sent"
  end.

End RetryTrace.

(** ** Decimal numerals

    The decimal text of a natural number, as an HTTP header or a Redis
    reply carries it. *)

Module Decimal.

Local Open Scope Z_scope.

Definition digit_char (d : Z) : ascii := ascii_of_nat (48 + Z.to_nat d).

(** The digits of [n], most significant first, in front of [acc]. *)
Fixpoint decimal_go (fuel : nat) (n : Z) (acc : string) : string :=
  match fuel with
  | O => acc
  | S fuel' =>
      let acc' := String (digit_char (n mod 10)) acc in
      if n <? 10 then acc' else decimal_go fuel' (n / 10) acc'
  end.

Definition decimal (n : Z) : string :=
  decimal_go (S (Z.to_nat n)) n "".

Definition is_digit (c : ascii) : bool :=
  let n := nat_of_ascii c in (48 <=? n)%nat && (n <=? 57)%nat.

Fixpoint all_digits (s : string) : bool :=
  match s with
  | EmptyString => true
  | String c s' => is_digit c && all_digits s'
  end.

End Decimal.

(** ** The in-memory rate limiter *)

(** [checkRateLimit] and [cleanupRateLimits] of the utilities.  The
    reading of [Date.now()] is the argument [now]; counts and
    milliseconds are integers. *)

Module RateLimit.

Local Open Scope Z_scope.

Record RateLimitRecord : Type := {
  count : Z;
  resetAt : Z;
}.

(** [rateLimitStore]: the own properties of the store object. *)
Abbreviation RateLimitStore := (gmap string RateLimitRecord).

(** What [checkRateLimit] returns; a [resetAt] read off an object that
    has none is [undefined], here [None]. *)
Record RateLimitAnswer : Type := {
  allowed : bool;
  remaining : number;
  answer_resetAt : option Z;
}.

(** The first branch: a new window is opened for [key]. *)
Definition open_window (now : Z) (key : string) (maxRequests windowMs : Z)
    (store : RateLimitStore) : RateLimitAnswer * RateLimitStore :=
  ({| allowed := true; remaining := Num (maxRequests - 1);
      answer_resetAt := Some (now + windowMs) |},
   <[key := {| count := 1; resetAt := now + windowMs |}]> store).

(** [checkRateLimit(key, maxRequests, windowMs)].  [rateLimitStore[key]]
    reads own properties first and then [Object.prototype]: for a key
    that names an inherited member the record is that member, its
    [resetAt] and [count] are [undefined], both comparisons are false
    and [record.count++] leaves [NaN] on the member itself, not in the
    store. *)
Definition checkRateLimit (now : Z) (key : string) (maxRequests windowMs : Z)
    (store : RateLimitStore) : RateLimitAnswer * RateLimitStore :=
  match store !! key with
  | Some record =>
      if resetAt record <? now then
        open_window now key maxRequests windowMs store
      else if maxRequests <=? count record then
        ({| allowed := false; remaining := Num 0;
            answer_resetAt := Some (resetAt record) |}, store)
      else
        let record' :=
          {| count := count record + 1; resetAt := resetAt record |} in
        ({| allowed := true; remaining := Num (maxRequests - count record');
            answer_resetAt := Some (resetAt record') |},
         <[key := record']> store)
  | None =>
      if truthy (Object_prototype_get key) then
        ({| allowed := true; remaining := NaN; answer_resetAt := None |},
         store)
      else open_window now key maxRequests windowMs store
  end.

(** [cleanupRateLimits()] *)
Definition cleanupRateLimits (now : Z) (store : RateLimitStore)
    : RateLimitStore :=
  filter (fun entry => ~ resetAt entry.2 < now) store.

(** Successive calls for one key, at the given readings of the clock. *)
Fixpoint check_all (times : list Z) (key : string) (maxRequests windowMs : Z)
    (store : RateLimitStore) : list RateLimitAnswer * RateLimitStore :=
  match times with
  | [] => ([], store)
  | now :: later =>
      let '(answer, store) :=
        checkRateLimit now key maxRequests windowMs store in
      let '(answers, store) :=
        check_all later key maxRequests windowMs store in
      (answer :: answers, store)
  end.

(** The answer to request number [i] of a window that closes at
    [closes]: request 0 opens the window. *)
Definition answer_in_window (maxRequests closes : Z) (i : nat)
    : RateLimitAnswer :=
  if (i =? 0)%nat || (Z.of_nat i <? maxRequests) then
    {| allowed := true; remaining := Num (maxRequests - (Z.of_nat i + 1));
       answer_resetAt := Some closes |}
  else
    {| allowed := false; remaining := Num 0; answer_resetAt := Some closes |}.

(** A store whose only record has run out. *)
Definition lapsed : RateLimitStore :=
  {[ "ip:1" := {| count := 2; resetAt := 3000 |} ]}.

End RateLimit.

(** ** Text and random-string utilities *)

Module TextUtils.

Import Buffer Encryption.

(** [s.substring(0, end_)]: a negative end counts as 0, one past the
    end as the length. *)
Definition substring_to (s : string) (end_ : Z) : string :=
  substring 0 (Z.to_nat end_) s.

(** [truncate(text, maxLength, suffix)], for an integer [maxLength]. *)
Definition truncate (text : string) (maxLength : Z) (suffix : string)
    : string :=
  if (Z.of_nat (String.length text) <=? maxLength)%Z then text
  else
    substring_to text (maxLength - Z.of_nat (String.length suffix)) +:+ suffix.

Definition is_angle_bracket (c : ascii) : bool :=
  Ascii.eqb c "<" || Ascii.eqb c ">".

(** [s.replace(/[<>]/g, '')] *)
Fixpoint remove_angle_brackets (s : string) : string :=
  match s with
  | EmptyString => EmptyString
  | String c s' =>
      if is_angle_bracket c then remove_angle_brackets s'
      else String c (remove_angle_brackets s')
  end.

(** [sanitizeText(text)] *)
Definition sanitizeText (text : string) : string :=
  trim (remove_angle_brackets text).

(** [s] is empty or starts with a character that is not white space. *)
Definition starts_clean (s : string) : bool :=
  match s with
  | EmptyString => true
  | String c _ => negb (is_space c)
  end.

(** Some character of [s] satisfies [test]. *)
Fixpoint some_char (test : ascii -> bool) (s : string) : bool :=
  match s with
  | EmptyString => false
  | String c s' => test c || some_char test s'
  end.

Definition hex_digit (n : Z) : ascii :=
  ascii_of_nat (Z.to_nat (if (n <? 10)%Z then 48 + n else 87 + n)%Z).

(** [buf.toString('hex')] *)
Fixpoint hex_encode (buf : list byte) : string :=
  match buf with
  | [] => EmptyString
  | b :: rest =>
      String (hex_digit (byte_to_Z b / 16))
        (String (hex_digit (byte_to_Z b mod 16)) (hex_encode rest))
  end.

Definition is_hex_digit (c : ascii) : bool :=
  let n := nat_of_ascii c in
  ((48 <=? n)%nat && (n <=? 57)%nat) || ((97 <=? n)%nat && (n <=? 102)%nat).

(** [generateRandomString(length)], for a size [crypto.randomBytes]
    accepts. *)
Definition generateRandomString (length : nat) : M World JsError string :=
  (bytes <- randomBytes length ;;
   ret (hex_encode bytes))%eff.

End TextUtils.

(** ** The Redis helpers *)

(** The Redis server as the helpers of [redis.ts] use it: string keys
    with an optional time to live, and the commands [GET], [SETEX],
    [INCR] and [EXPIRE] as the Redis command reference gives them.  The
    server's clock is read once for each command: [time w n] is its
    reading, in milliseconds, when command number [n] runs. *)

Module RedisCache.

Import Decimal.
Local Open Scope Z_scope.

Record Entry : Type := {
  value : string;
  expires : option Z;       (* the clock reading at which the key is gone *)
}.

Record World : Type := {
  time : nat -> Z;
  issued : nat;
  data : gmap string Entry;
}.

(** The entry of [key], unless its time to live has run out. *)
Definition read (now : Z) (store : gmap string Entry) (key : string)
    : option Entry :=
  match store !! key with
  | Some entry =>
      match expires entry with
      | Some deadline => if now <? deadline then Some entry else None
      | None => Some entry
      end
  | None => None
  end.

(** One command: it runs at the current reading of the clock. *)
Definition command {A : Type}
    (run : Z -> gmap string Entry -> completion JsError A * gmap string Entry)
    : M World JsError A :=
  fun w =>
    let '(reply, store) := run (time w (issued w)) (data w) in
    (reply, {| time := time w; issued := S (issued w); data := store |}).

(** A string that holds an integer the way Redis writes one. *)
Definition redis_unsigned (s : string) : option Z :=
  if all_digits s then
    match parse_digits 10 s None with
    | Some n => if String.eqb (decimal n) s then Some n else None
    | None => None
    end
  else None.

Definition redis_integer (s : string) : option Z :=
  match s with
  | String "-" r =>
      match redis_unsigned r with
      | Some n => if n =? 0 then None else Some (- n)
      | None => None
      end
  | _ => redis_unsigned s
  end.

Definition integer_to_string (n : Z) : string :=
  if n <? 0 then "-" +:+ decimal (- n) else decimal n.

(** [redis.get(key)] *)
Definition redis_get (key : string) : M World JsError (option string) :=
  command (fun now store => (Return (value <$> read now store key), store)).

(** [redis.setex(key, seconds, value)] *)
Definition redis_setex (key : string) (seconds : Z) (value_ : string)
    : M World JsError string :=
  command (fun now store =>
    if seconds <=? 0 then
      (Throw (RemoteError "ERR invalid expire time in 'setex' command"),
       store)
    else
      (Return "OK",
       <[key := {| value := value_;
                   expires := Some (now + seconds * 1000) |}]> store)).

(** [redis.incr(key)]: a key that is not there counts from zero and
    gets no time to live; one that is there keeps its own. *)
Definition redis_incr (key : string) : M World JsError Z :=
  command (fun now store =>
    match read now store key with
    | None =>
        (Return 1, <[key := {| value := "1"; expires := None |}]> store)
    | Some entry =>
        match redis_integer (value entry) with
        | Some n =>
            if (- 2 ^ 63 <=? n) && (n <? 2 ^ 63 - 1) then
              (Return (n + 1),
               <[key := {| value := integer_to_string (n + 1);
                           expires := expires entry |}]> store)
            else
              (Throw (RemoteError
                        "ERR increment or decrement would overflow"),
               store)
        | None =>
            (Throw (RemoteError
                      "ERR value is not an integer or out of range"),
             store)
        end
    end).

(** [redis.expire(key, seconds)]: a time to live that is not positive
    deletes the key. *)
Definition redis_expire (key : string) (seconds : Z) : M World JsError Z :=
  command (fun now store =>
    match read now store key with
    | None => (Return 0, store)
    | Some entry =>
        if seconds <=? 0 then (Return 1, delete key store)
        else
          (Return 1,
           <[key := {| value := value entry;
                       expires := Some (now + seconds * 1000) |}]> store)
    end).

(** [cacheAccessToken(igAccountId, token, expiresIn)] *)
Definition cacheAccessToken (igAccountId token : string) (expiresIn : Z)
    : M World JsError unit :=
  let key := "token:" +:+ igAccountId in
  (_ <- redis_setex key expiresIn token ;;
   ret tt)%eff.

(** [getCachedAccessToken(igAccountId)] *)
Definition getCachedAccessToken (igAccountId : string)
    : M World JsError (option string) :=
  let key := "token:" +:+ igAccountId in
  redis_get key.

(** [checkRateLimit(userId, limit, windowSeconds)] *)
Definition checkRateLimit (userId : string) (limit windowSeconds : Z)
    : M World JsError bool :=
  let key := "ratelimit:" +:+ userId in
  (current <- redis_incr key ;;
   _ <- (if current =? 1 then redis_expire key windowSeconds else ret 0) ;;
   ret (current <=? limit))%eff.

(** [limit - n] on numbers *)
Definition minus (limit : Z) (n : number) : number :=
  match n with
  | Num z => Num (limit - z)
  | NaN => NaN
  end.

(** [getRateLimitRemaining(userId, limit)] *)
Definition getRateLimitRemaining (userId : string) (limit : Z)
    : M World JsError number :=
  let key := "ratelimit:" +:+ userId in
  (current <- redis_get key ;;
   ret (minus limit
          match current with
          | Some (String _ _ as s) => parseInt s
          | _ => Num 0
          end))%eff.

(** [checkRateLimit], [calls] times in a row. *)
Fixpoint check_many (calls : nat) (userId : string) (limit windowSeconds : Z)
    : M World JsError (list bool) :=
  match calls with
  | O => ret []
  | S calls' =>
      (answer <- checkRateLimit userId limit windowSeconds ;;
       answers <- check_many calls' userId limit windowSeconds ;;
       ret (answer :: answers))%eff
  end.

(** A server with no keys whose clock advances 10 ms with each
    command. *)
Definition empty_server : World :=
  {| time := fun n => 10 * Z.of_nat n; issued := 0; data := ∅ |}.

End RedisCache.

(** ** Usage limits *)

(** The [User] table as [checkUsageLimit] and [incrementUsage] use it.
    Dates are milliseconds; [now] is the reading of [new Date()]. *)

Module Usage.

Local Open Scope Z_scope.

Record User : Type := {
  usageCount : Z;
  usageLimit : Z;
  usageResetAt : Z;
}.

Record World : Type := {
  user : gmap string User;
}.

(** [db.user.findUnique({where: {id}, select: {...}})] *)
Definition user_findUnique (id : string) : M World JsError (option User) :=
  fun w => (Return (user w !! id), w).

(** [db.user.update({where: {id}, data})]: throws when no row has this
    id. *)
Definition user_update (id : string) (data : User -> User)
    : M World JsError User :=
  fun w =>
    match user w !! id with
    | None => (Throw (Error "Record to update not found."), w)
    | Some row =>
        (Return (data row), {| user := <[id := data row]> (user w) |})
    end.

(** [checkUsageLimit(userId)] *)
Definition checkUsageLimit (now : Z) (userId : string)
    : M World JsError bool :=
  (found <- user_findUnique userId ;;
   match found with
   | None => ret false
   | Some row =>
       if 24 * 60 * 60 * 1000 <? now - usageResetAt row then
         _ <- user_update userId
                (fun row => {| usageCount := 0;
                               usageLimit := usageLimit row;
                               usageResetAt := now |}) ;;
         ret true
       else ret (usageCount row <? usageLimit row)
   end)%eff.

(** [incrementUsage(userId)] *)
Definition incrementUsage (userId : string) : M World JsError unit :=
  (_ <- user_update userId
          (fun row => {| usageCount := usageCount row + 1;
                         usageLimit := usageLimit row;
                         usageResetAt := usageResetAt row |}) ;;
   ret tt)%eff.

(** [incrementUsage], [n] times in a row. *)
Fixpoint increment_many (n : nat) (userId : string) : M World JsError unit :=
  match n with
  | O => ret tt
  | S n' => (incrementUsage userId ;;; increment_many n' userId)%eff
  end.

(** A user with no allowance whose last reset is two days old. *)
Definition stale : World :=
  {| user := {[ "u1" := {| usageCount := 7; usageLimit := 0;
                           usageResetAt := 0 |} ]} |}.

End Usage.

(** ** Finding or creating a conversation *)

(** [getOrCreateConversation] over the [Conversation] table of [Db].
    The pair ([igAccountId], [senderId]) is the unique key the upsert
    selects by.  [cuid] is the id the database generates for a new row;
    [created], [created'] and [touched] are the readings of the three
    [new Date()] in the order they are evaluated. *)

Module Conversations.

Import Db.

Definition same_pair (igAccountId_ senderId_ : string)
    (entry : string * Conversation) : Prop :=
  igAccountId entry.2 = igAccountId_ /\ senderId entry.2 = senderId_.

#[global] Instance same_pair_dec igAccountId_ senderId_ entry :
  Decision (same_pair igAccountId_ senderId_ entry).
Proof. unfold same_pair. apply _. Defined.

(** The row with this pair, and its id. *)
Definition conversation_findPair (igAccountId_ senderId_ : string)
    (table : gmap string Conversation) : option (string * Conversation) :=
  snd <$> list_find (same_pair igAccountId_ senderId_) (map_to_list table).

(** [db.conversation.upsert({where: {igAccountId_senderId}, create,
    update: {lastMessageAt}})] *)
Definition conversation_upsert (igAccountId_ senderId_ : string)
    (cuid : string) (create : Conversation) (lastMessageAt_ : Z)
    : M World JsError (string * Conversation) :=
  fun w =>
    match conversation_findPair igAccountId_ senderId_ (conversation w) with
    | Some (id, row) =>
        let row' :=
          {| igAccountId := igAccountId row;
             senderId := senderId row;
             senderUsername := senderUsername row;
             messages := messages row;
             firstMessageAt := firstMessageAt row;
             lastMessageAt := lastMessageAt_ |} in
        (Return (id, row'),
         {| conversation := <[id := row']> (conversation w) |})
    | None =>
        match conversation w !! cuid with
        | Some _ =>
            (Throw (Error "Unique constraint failed on the fields: (`id`)"),
             w)
        | None =>
            (Return (cuid, create),
             {| conversation := <[cuid := create]> (conversation w) |})
        end
    end.

(** [getOrCreateConversation(igAccountId, senderId, senderUsername)] *)
Definition getOrCreateConversation (cuid : string)
    (created created' touched : Z)
    (igAccountId_ senderId_ : string) (senderUsername_ : option string)
    : M World JsError (string * Conversation) :=
  conversation_upsert igAccountId_ senderId_ cuid
    {| igAccountId := igAccountId_;
       senderId := senderId_;
       senderUsername := senderUsername_;
       messages := [];
       firstMessageAt := created;
       lastMessageAt := created' |}
    touched.

(** No two rows hold the same pair. *)
Definition unique_pairs (table : gmap string Conversation) : Prop :=
  forall id1 id2 row1 row2,
    table !! id1 = Some row1 ->
    table !! id2 = Some row2 ->
    igAccountId row1 = igAccountId row2 ->
    senderId row1 = senderId row2 ->
    id1 = id2.

End Conversations.

(** ** Small concrete engines

    Instances of the interfaces above, used to run the definitions on
    inputs. *)

Module Engines.

(** A regular-expression engine for literal patterns: a pattern with a
    parenthesis or bracket in it does not compile, any other pattern
    matches where it occurs (in any letter case under the [i] flag). *)
Definition literal_new (pattern flags : string)
    : completion JsError (string * bool) :=
  if JS.includes pattern "(" || JS.includes pattern "["
  then Throw (SyntaxError ("Invalid regular expression: /" +:+ pattern +:+ "/"))
  else Return (pattern, JS.includes flags "i").

Definition literal_test (re : string * bool) (s : string)
    : completion JsError bool :=
  Return (if re.2
          then JS.includes (JS.toLowerCase s) (JS.toLowerCase re.1)
          else JS.includes s re.1).

Definition literal_engine : RegExpEngine :=
  {| RegExp := string * bool;
     RegExp_new := literal_new;
     RegExp_test := literal_test |}.

(** A price list in whole units: one unit per token, whatever the
    model. *)
Definition flat_pricing : AiPricing :=
  {| Cost := Z;
     calculateOpenAICost _ tokensUsed := tokensUsed;
     calculateGeminiCost _ tokensUsed := tokensUsed |}.

(** A stand-in for PBKDF2 and AES-256-GCM with the same interface: the
    key is [keylen] fixed bytes, the ciphertext is the plaintext
    reversed, the tag is sixteen zero bytes, and a tag of any other
    length is refused. *)
Definition mirror_crypto : CryptoEngine :=
  {| pbkdf2Sync _ _ _ keylen _ := repeat Byte.x2a (Z.to_nat keylen);
     gcm_encrypt _ _ plaintext := (rev plaintext, repeat Byte.x00 16);
     gcm_decrypt _ _ ciphertext tag :=
       if (length tag =? 16)%nat then Some (rev ciphertext) else None |}.

(** A supply of bytes that counts up from zero. *)
Definition counting : Encryption.World :=
  {| Encryption.entropy n := Buffer.byte_of_Z (Z.of_nat n mod 256);
     Encryption.drawn := 0 |}.


End Engines.

(** * Properties *)

(** ** Keyword matching *)

Module KeywordProps.

Import Utils.

Section WithEngine.
Context `{RegExpEngine}.

(** C7.  [matchesKeyword("I love your Pricing!", "pricing", "contains",
    false)] is [true], and the same call with [caseSensitive = true] is
    [false]. *)
Theorem matchesKeyword_pricing :
  matchesKeyword "I love your Pricing!" "pricing" contains false
    = Return true
  /\ matchesKeyword "I love your Pricing!" "pricing" contains true
    = Return false.
Proof. split; reflexivity. Qed.

Lemma matchesKeyword_regex_returns message keyword caseSensitive :
  exists b, matchesKeyword message keyword regex caseSensitive = Return b.
Proof.
  unfold matchesKeyword, try_catch, cbind.
  destruct (RegExp_new keyword _) as [re|e]; [|by eexists].
  destruct (RegExp_test re message) as [b|e]; by eexists.
Qed.

(** C8.  With match type [regex] the call completes with a boolean and
    never with an exception, whatever the message, the pattern and the
    flag; and when the pattern does not compile the boolean is
    [false]. *)
Theorem matchesKeyword_regex_total message keyword caseSensitive :
  (exists b, matchesKeyword message keyword regex caseSensitive = Return b)
  /\ (forall e,
        RegExp_new keyword (if caseSensitive then "" else "i") = Throw e ->
        matchesKeyword message keyword regex caseSensitive = Return false).
Proof.
  split; [apply matchesKeyword_regex_returns|].
  intros e He. unfold matchesKeyword. by rewrite He.
Qed.

End WithEngine.

(** C8 on the pattern ["(price"], which the literal engine refuses. *)
Lemma matchesKeyword_regex_total_witness :
  (exists b,
     @matchesKeyword Engines.literal_engine "what is the price" "(price"
       regex false = Return b)
  /\ @matchesKeyword Engines.literal_engine "what is the price" "(price"
       regex false = Return false.
Proof.
  destruct (@matchesKeyword_regex_total Engines.literal_engine
              "what is the price" "(price" false) as [Hret Hbad].
  split; [exact Hret|].
  eapply Hbad. reflexivity.
Defined.

End KeywordProps.

(** ** Template variables *)

Module TemplateProps.

Import Utils.

(** C9, the two renderings the specification gives. *)
Lemma replaceVariables_examples :
  replaceVariables "Hi {{name}}" {[ "name" := "Ana" ]} = "Hi Ana"
  /\ replaceVariables "Hi {{name}}" ∅ = "Hi {{name}}".
Proof. split; vm_compute; reflexivity. Qed.

(** C9, where it fails: a placeholder whose key is not supplied but
    names a property every object inherits is replaced by that
    property. *)
Theorem replaceVariables_inherited_key :
  (∅ : gmap string string) !! "constructor" = None
  /\ replaceVariables "Hi {{constructor}}" ∅
     = "Hi function Object() { [native code] }"
  /\ replaceVariables "Hi {{constructor}}" ∅ <> "Hi {{constructor}}".
Proof. split; [reflexivity|]. split; [vm_compute; reflexivity|]. by vm_compute. Qed.

(** Apart from inherited keys the claim holds: when no placeholder of
    the template resolves to a non-empty value, the template is
    returned as it is. *)

Lemma append_nil (b : string) : "" +:+ b = b.
Proof. reflexivity. Qed.

Lemma append_cons x (a b : string) : String x a +:+ b = String x (a +:+ b).
Proof. reflexivity. Qed.

Ltac push_append :=
  repeat first [rewrite append_cons | rewrite append_nil].

Ltac push_append_in H :=
  repeat first [rewrite append_cons in H | rewrite append_nil in H].

Lemma append_assoc (a b c : string) : (a +:+ b) +:+ c = a +:+ (b +:+ c).
Proof.
  induction a as [|x a IH]; push_append; [reflexivity|]. by rewrite IH.
Qed.

Lemma length_append (a b : string) :
  String.length (a +:+ b) = (String.length a + String.length b)%nat.
Proof.
  induction a as [|x a IH]; push_append; simpl; [reflexivity|].
  by rewrite IH.
Qed.

Lemma startsWith_split (p s : string) :
  JS.startsWith s p = true -> exists r, s = p +:+ r.
Proof.
  unfold JS.startsWith. revert s.
  induction p as [|a p IH]; intros s Hp.
  - by exists s.
  - destruct s as [|b s]; [discriminate|]. simpl in Hp.
    destruct (ascii_dec a b) as [->|]; [|discriminate].
    destruct (IH _ Hp) as [r ->]. by exists r.
Qed.

Lemma word_run_split (s : string) :
  s = (word_run s).1 +:+ (word_run s).2.
Proof.
  induction s as [|c s IH]; simpl; [reflexivity|].
  destruct (is_word c); [|reflexivity].
  destruct (word_run s) as [run rest]; simpl in *.
  push_append. by rewrite <- IH.
Qed.

Lemma match_placeholder_split (s key : string) :
  match_placeholder s = Some key ->
  exists rest, s = "{{" +:+ key +:+ "}}" +:+ rest.
Proof.
  unfold match_placeholder.
  destruct s as [|c0 s]; [discriminate|].
  destruct (Ascii.eqb_spec c0 "{") as [->|Hc0]; cycle 1.
  { destruct c0 as [[] [] [] [] [] [] [] []]; try discriminate.
    by destruct Hc0. }
  destruct s as [|c1 s]; [discriminate|].
  destruct (Ascii.eqb_spec c1 "{") as [->|Hc1]; cycle 1.
  { destruct c1 as [[] [] [] [] [] [] [] []]; try discriminate.
    by destruct Hc1. }
  pose proof (word_run_split s) as Hs.
  destruct (word_run s) as [run rest]; simpl in Hs.
  destruct run as [|r0 run]; [discriminate|].
  destruct (JS.startsWith rest "}}") eqn:Hclose; [|discriminate].
  intros [= <-].
  destruct (startsWith_split _ _ Hclose) as [tail ->].
  exists tail. push_append. by rewrite Hs.
Qed.

Lemma replace_placeholders_skip callback (pre s : string) :
  replace_placeholders callback (pre +:+ s) (String.length pre)
  = replace_placeholders callback s 0.
Proof.
  induction pre as [|c pre IH]; push_append; simpl; [reflexivity|exact IH].
Qed.

Lemma placeholder_in_tail key c s :
  placeholder_in key s -> placeholder_in key (String c s).
Proof. intros (pre & post & ->). by exists (String c pre), post. Qed.

Lemma placeholder_in_app key pre s :
  placeholder_in key s -> placeholder_in key (pre +:+ s).
Proof.
  induction pre as [|c pre IH]; intros Hs; push_append; [done|].
  by apply placeholder_in_tail, IH.
Qed.

Lemma replace_placeholders_identity callback (n : nat) :
  forall s : string,
    (String.length s <= n)%nat ->
    (forall key, placeholder_in key s ->
       callback ("{{" +:+ key +:+ "}}") key = "{{" +:+ key +:+ "}}") ->
    replace_placeholders callback s 0 = s.
Proof.
  induction n as [|n IH]; intros s Hlen Hcb.
  - destruct s; [reflexivity|simpl in Hlen; lia].
  - destruct s as [|c s]; [reflexivity|].
    cbn [replace_placeholders].
    destruct (match_placeholder (String c s)) as [key|] eqn:Hm.
    + destruct (match_placeholder_split _ _ Hm) as [rest Hs].
      assert (placeholder_in key (String c s)) as Hin
        by (exists "", rest; exact Hs).
      rewrite (Hcb _ Hin).
      assert (c = "{"%char) as ->
        by (push_append_in Hs; by injection Hs).
      assert (s = ("{" +:+ key +:+ "}}") +:+ rest) as ->.
      { push_append_in Hs. injection Hs as ->.
        push_append. by rewrite append_assoc. }
      replace (String.length key + 3)%nat
        with (String.length ("{" +:+ key +:+ "}}")).
      2:{ push_append. simpl. rewrite length_append. simpl. lia. }
      rewrite replace_placeholders_skip, IH.
      * push_append. by rewrite !append_assoc.
      * simpl in Hlen. rewrite !length_append in Hlen. simpl in Hlen.
        lia.
      * intros k Hk. apply Hcb.
        apply placeholder_in_tail. by apply placeholder_in_app.
    + f_equal. apply IH; [simpl in Hlen; lia|].
      intros k Hk. apply Hcb. by apply placeholder_in_tail.
Qed.

Lemma replaceVariables_unresolved_verbatim template
    (variables : gmap string string) :
  (forall key, placeholder_in key template ->
     truthy (get_property variables key) = false) ->
  replaceVariables template variables = template.
Proof.
  intros Hkeys. unfold replaceVariables.
  apply (replace_placeholders_identity _ (String.length template));
    [lia|].
  intros key Hin. unfold JSValue.or. by rewrite (Hkeys key Hin).
Qed.

End TemplateProps.

(** ** Conversation history *)

Module ConversationProps.

Import Db.
Local Open Scope Z_scope.

(** One append: the message goes to the end of the stored list and
    [lastMessageAt] becomes its timestamp, whatever that timestamp
    is. *)
Lemma addMessageToConversation_appends id (message : Message) (w : World)
    (row : Conversation) :
  conversation w !! id = Some row ->
  exists row',
    addMessageToConversation id message w
      = (Return row', {| conversation := <[id := row']> (conversation w) |})
    /\ messages row' = (messages row ++ [message])%list
    /\ lastMessageAt row' = timestamp message.
Proof.
  intros Hrow.
  unfold addMessageToConversation, Eff.bind, conversation_findUnique,
    conversation_update.
  rewrite Hrow. simpl. rewrite Hrow. eexists. split; [reflexivity|].
  by split.
Qed.

Lemma addMessageToConversation_missing id (message : Message) (w : World) :
  conversation w !! id = None ->
  addMessageToConversation id message w
    = (Throw (Error "Conversation not found"), w).
Proof.
  intros Hrow.
  unfold addMessageToConversation, Eff.bind, conversation_findUnique.
  by rewrite Hrow.
Qed.

Lemma history_after_append id (message : Message) (w : World)
    (row : Conversation) :
  conversation w !! id = Some row ->
  history (addMessageToConversation id message w).2 id
    = (history w id ++ [message])%list.
Proof.
  intros Hrow.
  destruct (addMessageToConversation_appends id message w row Hrow)
    as (row' & -> & Hmsgs & _).
  unfold history. simpl. rewrite lookup_insert_eq, Hrow. simpl.
  exact Hmsgs.
Qed.

Lemma append_keeps_row id (message : Message) (w : World)
    (row : Conversation) :
  conversation w !! id = Some row ->
  is_Some (conversation (addMessageToConversation id message w).2 !! id).
Proof.
  intros Hrow.
  destruct (addMessageToConversation_appends id message w row Hrow)
    as (row' & -> & _).
  simpl. rewrite lookup_insert_eq. by eexists.
Qed.

Lemma append_all_history id (arrivals : list Message) (w : World)
    (row : Conversation) :
  conversation w !! id = Some row ->
  history (append_all id arrivals w) id = (messages row ++ arrivals)%list.
Proof.
  intros Hrow.
  assert (is_Some (conversation w !! id)) as Hsome by (by eexists).
  assert (history w id = messages row) as <-
    by (unfold history; by rewrite Hrow).
  clear Hrow row. revert w Hsome.
  induction arrivals as [|m rest IH]; intros w [row Hrow]; simpl.
  - by rewrite app_nil_r.
  - rewrite IH by (by eapply append_keeps_row).
    rewrite (history_after_append _ _ _ _ Hrow).
    by rewrite <- app_assoc.
Qed.

(** A read followed at once by the write of the same call is one whole
    call of [addMessageToConversation]. *)
Lemma read_then_write (calls : list Call) (k : nat) (c : Call) (f : Flight) :
  calls !! k = Some c ->
  db (step calls (step calls f (Find k)) (Update k))
  = (addMessageToConversation (call_conversationId c) (call_message c)
       (db f)).2.
Proof.
  intros Hc. unfold step. rewrite Hc.
  unfold addMessageToConversation, Eff.bind, conversation_findUnique, throw.
  cbn [db found]. rewrite lookup_insert_eq.
  by destruct (conversation (db f) !! call_conversationId c).
Qed.

Lemma one_after_the_other_appends id :
  forall (rest before : list Message) (f : Flight),
    db (fold_left
          (step (map (Build_Call id) (before ++ rest)))
          (flat_map (fun k => [Find k; Update k])
             (seq (length before) (length rest)))
          f)
    = append_all id rest (db f).
Proof.
  induction rest as [|m rest IH]; intros before f; [reflexivity|].
  cbn [length seq flat_map app fold_left append_all].
  specialize (IH (before ++ [m])%list).
  rewrite <- app_assoc, length_app, Nat.add_1_r in IH. cbn [app] in IH.
  rewrite IH. f_equal.
  rewrite (read_then_write _ _ (Build_Call id m)); [reflexivity|].
  rewrite list_lookup_fmap, list_lookup_middle; done.
Qed.

(** C3 as amended.  When the calls for a conversation run one after
    the other, the stored list is the previous list followed by the
    appended messages in the order the appends were performed; so it is
    in timestamp order exactly when the previous list followed by the
    arrivals is.  Nothing serializes the calls: when two of them
    overlap, both reading before either writes, the stored list is the
    previous list followed by the message of the call that writes
    last, and the other message is lost. *)
Theorem history_is_arrival_order id (arrivals : list Message) (w : World)
    (row : Conversation) :
  conversation w !! id = Some row ->
  let serial :=
    run (map (Build_Call id) arrivals)
      (one_after_the_other (length arrivals)) w in
  history serial id = (messages row ++ arrivals)%list
  /\ in_timestamp_order (history serial id)
     = in_timestamp_order (messages row ++ arrivals)
  /\ forall m1 m2 first second,
       let calls := [Build_Call id m1; Build_Call id m2] in
       (first = 0%nat /\ second = 1%nat) \/ (first = 1%nat /\ second = 0%nat) ->
       history (run calls [Find first; Find second; Update 0; Update 1] w) id
       = (messages row ++ [m2])%list
       /\ history (run calls [Find first; Find second; Update 1; Update 0] w) id
          = (messages row ++ [m1])%list.
Proof.
  intros Hrow serial.
  assert (history serial id = (messages row ++ arrivals)%list) as Hhist.
  { subst serial. unfold run, one_after_the_other.
    rewrite (one_after_the_other_appends id arrivals []).
    by apply append_all_history. }
  split; [exact Hhist|]. split; [by rewrite Hhist|].
  intros m1 m2 first second calls Horder. subst calls.
  unfold run, history, step, conversation_findUnique, conversation_update.
  destruct Horder as [[-> ->]|[-> ->]];
    cbn [fold_left lookup list_lookup db found call_conversationId
         call_message];
    rewrite ?Hrow; cbn [fmap option_fmap option_map db found];
    repeat first
      [ rewrite lookup_insert_eq
      | rewrite lookup_insert_ne by done
      | rewrite lookup_delete_ne by done
      | rewrite Hrow
      | progress cbn [snd conversation db found fmap option_fmap option_map
                      default messages] ];
    done.
Qed.

(** The later message is appended first: the stored list keeps the
    arrival order; and when the two calls overlap, only the message of
    the last writer is stored. *)
Lemma history_is_arrival_order_witness :
  let calls := map (Build_Call "c1") [late; early] in
  history (run calls (one_after_the_other 2) thread) "c1" = [late; early]
  /\ history (run calls [Find 0; Find 1; Update 0; Update 1] thread) "c1"
     = [early].
Proof.
  destruct (history_is_arrival_order "c1" [late; early] thread fresh_row)
    as (Hserial & _ & Hoverlap); [reflexivity|].
  destruct (Hoverlap late early 0%nat 1%nat) as [Hlost _]; [by left|].
  split; [exact Hserial|exact Hlost].
Defined.

(** C3 as stated fails: two appends for the same conversation, made
    one after the other with the later message arriving first, leave a
    list that is not in timestamp order. *)
Lemma out_of_order_appends_not_sorted :
  let stored :=
    history
      (run (map (Build_Call "c1") [late; early]) (one_after_the_other 2)
         thread)
      "c1" in
  stored = [late; early]
  /\ in_timestamp_order stored = false.
Proof. split; vm_compute; reflexivity. Qed.

End ConversationProps.

(** ** Webhook intake *)

Module IntakeProps.

Import Pipeline.
Local Open Scope Z_scope.


Lemma deliver_repeat (req : Request) (n : nat) (w : World) :
  exists w',
    deliver (repeat req n) w = (repeat ok n, w')
    /\ queues w' = queues w /\ job_counter w' = job_counter w
    /\ sent w' = sent w /\ activityLog w' = activityLog w.
Proof.
  revert w. induction n as [|n IH]; intros w; simpl.
  - by exists w.
  - destruct (IH (console_log ("webhook event "
                                 +:+ substring 0 200 (body req)) w))
      as (w' & -> & Hq & Hc & Hs & Ha).
    by exists w'.
Qed.

Lemma worker_step_outcomes (w : World) :
  sent (worker_step w) = sent w
  /\ activityLog (worker_step w) = activityLog w
  /\ job_counter (worker_step w) = job_counter w
  /\ forall name, name <> "inbound-events" ->
       queue (worker_step w) name = queue w name.
Proof.
  unfold worker_step.
  destruct (queue w "inbound-events") as [|job rest]; [done|].
  simpl. repeat split; try done.
  intros name Hname. unfold queue. simpl.
  by rewrite lookup_insert_ne.
Qed.

Lemma worker_turns_outcomes (turns : nat) (w : World) :
  sent (Nat.iter turns worker_step w) = sent w
  /\ activityLog (Nat.iter turns worker_step w) = activityLog w
  /\ job_counter (Nat.iter turns worker_step w) = job_counter w
  /\ queue (Nat.iter turns worker_step w) "webhook-events"
     = queue w "webhook-events".
Proof.
  induction turns as [|n (Hs & Ha & Hc & Hq)]; [done|].
  simpl.
  destruct (worker_step_outcomes (Nat.iter n worker_step w))
    as (Hs' & Ha' & Hc' & Hq').
  rewrite Hs', Ha', Hc', Hq' by done. done.
Qed.

Lemma enqueue_all_repeat (data : WebhookJobData) (n : nat) (w : World) :
  length (queue (enqueue_all (repeat data n) w) "webhook-events")
  = (length (queue w "webhook-events") + n)%nat.
Proof.
  revert w. induction n as [|n IH]; intros w; simpl; [lia|].
  rewrite IH. unfold queue at 1. simpl. rewrite lookup_insert_eq. simpl.
  rewrite length_app. simpl. lia.
Qed.

(** C1 as amended.  An event delivered [n] times to [POST /webhook] is
    answered 200 each time, and no delivery, first or repeated, leaves
    a job in the webhook queue, an outbound send or an activity-log
    row, however long the worker then runs.  [queueWebhookEvent]
    stores one job per call: [n] calls with the same data leave [n]
    jobs. *)
Theorem deliveries_leave_no_outcome (req : Request) (n turns : nat)
    (w : World) :
  (exists w',
     run_pipeline (repeat req n) turns w = (repeat ok n, w')
     /\ sent w' = sent w
     /\ activityLog w' = activityLog w
     /\ outcomes w' = outcomes w
     /\ queue w' "webhook-events" = queue w "webhook-events"
     /\ job_counter w' = job_counter w)
  /\ forall data,
       length (queue (enqueue_all (repeat data n) w) "webhook-events")
       = (length (queue w "webhook-events") + n)%nat.
Proof.
  split; [|intros data; apply enqueue_all_repeat].
  unfold run_pipeline.
  destruct (deliver_repeat req n w) as (w1 & -> & Hq & Hc & Hs & Ha).
  destruct (worker_turns_outcomes turns w1) as (Hs' & Ha' & Hc' & Hq').
  eexists. split; [reflexivity|].
  unfold outcomes. rewrite Hs', Ha', Hc', Hq', Hs, Ha, Hc.
  unfold queue. by rewrite Hq.
Qed.


(** C1 as stated fails: the event is delivered once, the worker runs,
    and there is neither an outbound send nor an activity-log row. *)
Lemma one_delivery_no_outcome :
  outcomes (run_pipeline (repeat unsigned_event 1) 10 quiet).2 = 0%nat
  /\ outcomes (run_pipeline (repeat unsigned_event 1) 10 quiet).2 <> 1%nat.
Proof. split; [vm_compute; reflexivity|by vm_compute]. Qed.


End IntakeProps.

(** ** Outbound sender *)

Module SenderProps.

Import Utils InstagramApi.
Local Open Scope Z_scope.

(** *** The retry loop, one iteration at a time *)

Section RetryLoop.
Context {W T : Type} `{Timers W}.
Variables (fn : M W JsError T) (maxRetries baseDelay : Z).

Lemma retry_loop_exhausted i lastError w :
  retry_loop fn maxRetries baseDelay i 0 lastError w = (Throw lastError, w).
Proof. reflexivity. Qed.

Lemma retry_loop_success i remaining lastError w t w1 :
  fn w = (Return t, w1) ->
  retry_loop fn maxRetries baseDelay i (S remaining) lastError w
  = (Return t, w1).
Proof. intros Hfn. simpl. by rewrite Hfn. Qed.

(** After a failed attempt that is not the last, the loop sleeps
    [baseDelay * 2 ^ i] and tries again; the error only becomes
    [lastError]. *)
Lemma retry_loop_failure i remaining lastError w error w1 :
  fn w = (Throw error, w1) ->
  i < maxRetries - 1 ->
  retry_loop fn maxRetries baseDelay i (S remaining) lastError w
  = retry_loop fn maxRetries baseDelay (i + 1) remaining error
      (elapse (baseDelay * 2 ^ i) w1).
Proof.
  intros Hfn Hi. simpl. rewrite Hfn.
  apply Z.ltb_lt in Hi. rewrite Hi. reflexivity.
Qed.

Lemma retry_loop_last_failure i remaining lastError w error w1 :
  fn w = (Throw error, w1) ->
  maxRetries - 1 <= i ->
  retry_loop fn maxRetries baseDelay i (S remaining) lastError w
  = retry_loop fn maxRetries baseDelay (i + 1) remaining error w1.
Proof.
  intros Hfn Hi. simpl. rewrite Hfn.
  apply Z.ltb_ge in Hi. rewrite Hi. reflexivity.
Qed.

End RetryLoop.

(** *** Worlds along a run *)

Lemma grows_refl w : grows w w [].
Proof.
  unfold grows. rewrite app_nil_r. simpl. repeat split; lia.
Qed.

Lemma grows_trans w w1 w2 evs1 evs2 :
  grows w w1 evs1 -> grows w1 w2 evs2 -> grows w w2 (evs1 ++ evs2).
Proof.
  intros (Hp1 & Hl1 & Ht1 & Hr1) (Hp2 & Hl2 & Ht2 & Hr2).
  unfold grows. rewrite Hp2, Hl2, Ht2, Hr2, Hp1, Hl1, Ht1, Hr1.
  rewrite List.filter_app, length_app, app_assoc. repeat split; lia.
Qed.

Lemma grows_emit ev w :
  grows w (emit ev w) (if is_log ev then [] else [ev]).
Proof.
  unfold grows, emit, requests_made, attempts_and_waits. simpl.
  rewrite !List.filter_app. simpl.
  destruct ev; simpl; rewrite ?app_nil_r, ?length_app; simpl;
    repeat split; lia.
Qed.

Lemma grows_log level message w :
  grows w (emit (EvLog level message) w) [].
Proof. apply (grows_emit (EvLog level message)). Qed.

Lemma grows_sleep ms w : grows w (elapse ms w) [EvSleep ms].
Proof. apply (grows_emit (EvSleep ms)). Qed.

Lemma logger_debug_grows message w :
  exists w', logger_debug message w = (Return tt, w') /\ grows w w' [].
Proof.
  unfold logger_debug. simpl.
  destruct (String.eqb (LOG_LEVEL w) "debug"); eexists; split;
    try reflexivity; [apply grows_log|apply grows_refl].
Qed.

(** One request: the platform's next answer, settled, and one more
    request in the trace. *)
Lemma client_post_run r w :
  exists w',
    client_post r w = (settle (platform w (requests_made w) r), w')
    /\ grows w w' [EvRequest r].
Proof.
  unfold client_post, Eff.bind.
  destruct (logger_debug_grows "Instagram API Request" w)
    as (w0 & -> & Hg0).
  destruct Hg0 as (Hp & Hl & Ht & Hr).
  rewrite Hp, Hr. simpl. rewrite Nat.add_0_r.
  eexists. split.
  - destruct (platform w (requests_made w) r); reflexivity.
  - apply (grows_trans w w0 _ [] [EvRequest r]); [done|].
    apply (grows_emit (EvRequest r)).
Qed.

(** *** [sendMessage], by the platform's next three answers *)

Lemma sendMessage_run this recipientId message pageId (w : World) :
  let r := send_request this recipientId message pageId in
  let n := requests_made w in
  let o1 := platform w n r in
  let o2 := platform w (n + 1)%nat r in
  let o3 := platform w (n + 2)%nat r in
  exists w',
    sendMessage this recipientId message pageId w
    = (respond recipientId (expected_answer o1 o2 o3), w')
    /\ grows w w' (expected_events r o1 o2).
Proof.
  intros r n o1 o2 o3. subst o1 o2 o3 n.
  unfold sendMessage, catch, Eff.bind, retryWithBackoff.
  change (Z.to_nat 3) with 3%nat. fold r.
  unfold expected_answer, expected_events.
  (* first attempt *)
  destruct (client_post_run r w) as (w1 & E1 & G1).
  destruct (platform w (requests_made w) r) as [m1|e1] eqn:O1;
    simpl in E1.
  { rewrite (retry_loop_success _ _ _ _ _ _ _ _ _ E1). simpl.
    eexists. split; [reflexivity|].
    rewrite <- (app_nil_r [EvRequest r]).
    eapply grows_trans; [exact G1|apply grows_log]. }
  rewrite (retry_loop_failure _ _ _ _ _ _ _ _ _ E1) by lia.
  change (1000 * 2 ^ 0) with 1000. change (0 + 1) with 1.
  pose proof (grows_trans _ _ _ _ _ G1 (grows_sleep 1000 w1)) as G1'.
  (* second attempt *)
  destruct (client_post_run r (elapse 1000 w1)) as (w2 & E2 & G2).
  pose proof (grows_trans _ _ _ _ _ G1' G2) as G2'.
  destruct G1' as (Hp1 & _ & _ & Hr1). rewrite Hp1, Hr1 in E2.
  simpl in E2.
  destruct (platform w (requests_made w + 1)%nat r) as [m2|e2] eqn:O2;
    simpl in E2.
  { rewrite (retry_loop_success _ _ _ _ _ _ _ _ _ E2). simpl.
    eexists. split; [reflexivity|].
    rewrite <- (app_nil_r [EvRequest r; EvSleep 1000; EvRequest r]).
    eapply grows_trans; [exact G2'|apply grows_log]. }
  rewrite (retry_loop_failure _ _ _ _ _ _ _ _ _ E2) by lia.
  change (1000 * 2 ^ 1) with 2000. change (1 + 1) with 2.
  pose proof (grows_trans _ _ _ _ _ G2' (grows_sleep 2000 w2)) as G2''.
  (* third attempt *)
  destruct (client_post_run r (elapse 2000 w2)) as (w3 & E3 & G3).
  pose proof (grows_trans _ _ _ _ _ G2'' G3) as G3'.
  destruct G2'' as (Hp2 & _ & _ & Hr2). rewrite Hp2, Hr2 in E3.
  simpl in E3.
  destruct (platform w (requests_made w + 2)%nat r) as [m3|e3] eqn:O3;
    simpl in E3.
  { rewrite (retry_loop_success _ _ _ _ _ _ _ _ _ E3). simpl.
    eexists. split; [reflexivity|].
    rewrite <- (app_nil_r [EvRequest r; EvSleep 1000; EvRequest r;
                           EvSleep 2000; EvRequest r]).
    eapply grows_trans; [exact G3'|apply grows_log]. }
  rewrite (retry_loop_last_failure _ _ _ _ _ _ _ _ _ E3) by lia.
  rewrite retry_loop_exhausted. simpl.
  eexists. split; [reflexivity|].
  rewrite <- (app_nil_r [EvRequest r; EvSleep 1000; EvRequest r;
                         EvSleep 2000; EvRequest r]).
  eapply grows_trans; [exact G3'|apply grows_log].
Qed.

(** C5.  [sendMessage] retries three times from a base delay of 1000
    ms.  When the first two attempts fail and the third succeeds,
    exactly three requests are made, with waits of 1000 ms and 2000 ms
    between them, and the third attempt's message id is returned; when
    all three fail, the error of the last attempt is thrown. *)
Theorem sendMessage_three_attempts this recipientId message pageId
    (w : World) :
  let r := send_request this recipientId message pageId in
  let n := requests_made w in
  (forall e1 e2 response,
     platform w n r = Rejected e1 ->
     platform w (n + 1)%nat r = Rejected e2 ->
     platform w (n + 2)%nat r = Fulfilled response ->
     exists w',
       sendMessage this recipientId message pageId w
       = (Return {| message_id := data_message_id response;
                    recipient_id := recipientId |}, w')
       /\ attempts_and_waits (trace w')
          = (attempts_and_waits (trace w)
             ++ [EvRequest r; EvSleep 1000; EvRequest r; EvSleep 2000;
                 EvRequest r])%list
       /\ requests_made w' = (n + 3)%nat)
  /\ (forall e1 e2 e3,
        platform w n r = Rejected e1 ->
        platform w (n + 1)%nat r = Rejected e2 ->
        platform w (n + 2)%nat r = Rejected e3 ->
        exists w',
          sendMessage this recipientId message pageId w
          = (Throw (handleAPIError e3), w')
          /\ attempts_and_waits (trace w')
             = (attempts_and_waits (trace w)
                ++ [EvRequest r; EvSleep 1000; EvRequest r; EvSleep 2000;
                    EvRequest r])%list
          /\ requests_made w' = (n + 3)%nat).
Proof.
  intros r n.
  destruct (sendMessage_run this recipientId message pageId w)
    as (w' & Hrun & _ & _ & Htrace & Hcount).
  fold r n in Hrun, Htrace, Hcount.
  split.
  - intros e1 e2 response H1 H2 H3. rewrite H1, H2, H3 in *.
    exists w'. by repeat split.
  - intros e1 e2 e3 H1 H2 H3. rewrite H1, H2, H3 in *.
    exists w'. by repeat split.
Qed.

(** C4 as amended.  Whenever an attempt of [sendMessage] fails with a
    [RateLimitError] carrying the retry-after value [d] and an attempt
    is left, the wait before the next attempt is the backoff delay:
    1000 ms after the first attempt and 2000 ms after the second,
    whatever [d] is and however the attempts before it failed.  After
    the third attempt there is no wait: the [RateLimitError] is thrown
    with its [d]. *)
Theorem wait_is_backoff_delay this recipientId message pageId (w : World) :
  let r := send_request this recipientId message pageId in
  let n := requests_made w in
  exists res w' evs,
    sendMessage this recipientId message pageId w = (res, w')
    /\ attempts_and_waits (trace w')
       = (attempts_and_waits (trace w) ++ evs)%list
    /\ (forall message1 d1,
          settle (platform w n r) = Throw (RateLimitError message1 d1) ->
          exists rest,
            evs = EvRequest r :: rest
            /\ wait_before_next_attempt rest = Some 1000)
    /\ (forall e1 message2 d2,
          platform w n r = Rejected e1 ->
          settle (platform w (n + 1)%nat r)
            = Throw (RateLimitError message2 d2) ->
          exists rest,
            evs = EvRequest r :: EvSleep 1000 :: EvRequest r :: rest
            /\ wait_before_next_attempt rest = Some 2000)
    /\ (forall e1 e2 message3 d3,
          platform w n r = Rejected e1 ->
          platform w (n + 1)%nat r = Rejected e2 ->
          settle (platform w (n + 2)%nat r)
            = Throw (RateLimitError message3 d3) ->
          res = Throw (RateLimitError message3 d3)
          /\ evs = [EvRequest r; EvSleep 1000; EvRequest r; EvSleep 2000;
                    EvRequest r]).
Proof.
  intros r n.
  destruct (sendMessage_run this recipientId message pageId w)
    as (w' & Hrun & _ & _ & Htrace & _).
  fold r n in Hrun, Htrace.
  exists (respond recipientId
            (expected_answer (platform w n r) (platform w (n + 1)%nat r)
               (platform w (n + 2)%nat r))),
    w', (expected_events r (platform w n r) (platform w (n + 1)%nat r)).
  split; [exact Hrun|]. split; [exact Htrace|]. split; [|split].
  - intros message1 d1 H1.
    destruct (platform w n r) as [m1|e1]; [discriminate|].
    destruct (platform w (n + 1)%nat r) as [m2|e2]; by eexists.
  - intros e1 message2 d2 -> H2.
    destruct (platform w (n + 1)%nat r) as [m2|e2]; [discriminate|].
    by eexists.
  - intros e1 e2 message3 d3 -> -> H3.
    unfold expected_answer, expected_events. by rewrite H3.
Qed.

(** C5 on a platform that answers 500 twice and then accepts. *)
Lemma sendMessage_three_attempts_witness :
  exists w',
    sendMessage client "user-1" "hello" "page-1" flaky
    = (Return {| message_id := "mid.1"; recipient_id := "user-1" |}, w')
    /\ attempts_and_waits (trace w')
       = [EvRequest hello; EvSleep 1000; EvRequest hello; EvSleep 2000;
          EvRequest hello]
    /\ requests_made w' = 3%nat.
Proof.
  destruct (sendMessage_three_attempts client "user-1" "hello" "page-1" flaky)
    as [Hthird _].
  apply (Hthird server_error server_error {| data_message_id := "mid.1" |});
    reflexivity.
Defined.

(** C4 on a platform that answers 500 and then 429 with
    [Retry-After: 30]: the wait after the second attempt is 2000 ms. *)
Lemma wait_is_backoff_delay_witness :
  exists res w' rest,
    sendMessage client "user-1" "hello" "page-1" throttled_late = (res, w')
    /\ attempts_and_waits (trace w')
       = EvRequest hello :: EvSleep 1000 :: EvRequest hello :: rest
    /\ wait_before_next_attempt rest = Some 2000.
Proof.
  destruct (wait_is_backoff_delay client "user-1" "hello" "page-1"
              throttled_late)
    as (res & w' & evs & Hrun & Htrace & _ & Hsecond & _).
  destruct (Hsecond server_error
              "Instagram API rate limit exceeded. Retry after 30s" (Num 30)
              eq_refl eq_refl)
    as (rest & Hevs & Hwait).
  exists res, w', rest. rewrite Hevs in Htrace. by repeat split.
Defined.

(** C4 as stated fails: the first attempt fails with a
    [RateLimitError] whose retry-after is 30 seconds, and the second
    attempt is made after a wait of 1000 ms. *)
Lemma retry_after_not_honoured :
  settle (platform throttled 0%nat hello)
  = Throw (RateLimitError
             "Instagram API rate limit exceeded. Retry after 30s" (Num 30))
  /\ exists rest,
       attempts_and_waits
         (trace (sendMessage client "user-1" "hello" "page-1" throttled).2)
       = EvRequest hello :: rest
       /\ wait_before_next_attempt rest = Some 1000
       /\ 1000 < 30 * 1000.
Proof.
  split; [vm_compute; reflexivity|].
  eexists. split; [vm_compute; reflexivity|]. split; [reflexivity|lia].
Qed.

End SenderProps.

(** ** AI responses *)

Module AiProps.

Import Utils AiService.
Local Open Scope Z_scope.

Section WithPricing.
Context `{AiPricing}.

(** [generateResponse] is the provider call between two log lines: a
    response comes back with its processing time filled in, an error
    comes back as it is. *)
Lemma generateResponse_unfold this request (w : World) :
  generateResponse this request w
  = match call_provider this request (started w) with
    | (Return r, w1) =>
        (Return (set_processingTimeMs r (clock w1 - clock w)),
         console_write "INFO" "AI response generated" w1)
    | (Throw e, w1) =>
        (Throw e, console_write "ERROR" "Failed to generate AI response" w1)
    end.
Proof.
  unfold generateResponse, Eff.bind, catch, Date_now, logger_info,
    logger_error, modify, throw, ret, started.
  destruct (call_provider this request _) as [[r|e] w1]; reflexivity.
Qed.

Lemma generateResponse_throws this request (w : World) e w1 :
  call_provider this request (started w) = (Throw e, w1) ->
  exists w', generateResponse this request w = (Throw e, w').
Proof. intros Hcall. rewrite generateResponse_unfold, Hcall. by eexists. Qed.

Lemma generateResponse_returns this request (w : World) r w' :
  generateResponse this request w = (Return r, w') ->
  exists r0 w1,
    call_provider this request (started w) = (Return r0, w1)
    /\ message r = message r0.
Proof.
  rewrite generateResponse_unfold.
  destruct (call_provider this request _) as [[r0|e] w1]; [|discriminate].
  intros [= <- _]. by exists r0, w1.
Qed.

Lemma openai_failure_propagates this request (w : World) key latency e :
  provider this = openai ->
  openai_client this = Some key ->
  openai_api w (length (calls w)) (openai_request this request)
    = (latency, Throw e) ->
  exists w', generateResponse this request w = (Throw e, w').
Proof.
  intros Hp Hk Hapi. eapply generateResponse_throws.
  unfold call_provider, generateOpenAIResponse. rewrite Hp, Hk.
  unfold Eff.bind, openai_create. simpl. rewrite Hapi. reflexivity.
Qed.

Lemma gemini_failure_propagates this request (w : World) key lastMessage
    latency e :
  provider this = gemini ->
  gemini_client this = Some key ->
  last (conversationHistory request) = Some lastMessage ->
  gemini_api w (length (calls w)) (gemini_request this request lastMessage)
    = (latency, Throw e) ->
  exists w', generateResponse this request w = (Throw e, w').
Proof.
  intros Hp Hk Hlast Hapi. eapply generateResponse_throws.
  unfold call_provider, generateGeminiResponse. rewrite Hp, Hk, Hlast.
  unfold Eff.bind, gemini_sendMessage. simpl. rewrite Hapi. reflexivity.
Qed.

Lemma unsupported_provider_throws this request (w : World) :
  provider this = anthropic ->
  exists w',
    generateResponse this request w
    = (Throw (Error "Unsupported AI provider: anthropic"), w').
Proof.
  intros Hp. eapply generateResponse_throws.
  unfold call_provider. rewrite Hp.
  destruct (openai_client this), (gemini_client this); reflexivity.
Qed.

End WithPricing.

(** Without an OpenAI client [analyzeSentiment] answers with the
    keyword heuristic, and touches nothing. *)
Lemma analyzeSentiment_fallback this text (w : World) :
  provider this <> openai ->
  analyzeSentiment this text w = (Return (simpleSentimentAnalysis text), w).
Proof.
  intros Hp. unfold analyzeSentiment, catch.
  destruct (provider this); [done| |];
    destruct (openai_client this); reflexivity.
Qed.

(** With an OpenAI client it never throws either: a failed call is
    answered ["neutral"]. *)
Lemma analyzeSentiment_openai_failure this text (w : World) key latency e :
  provider this = openai ->
  openai_client this = Some key ->
  openai_api w (length (calls w)) (sentiment_request text)
    = (latency, Throw e) ->
  exists w', analyzeSentiment this text w = (Return "neutral", w').
Proof.
  intros Hp Hk Hapi.
  unfold analyzeSentiment, catch, Eff.bind, openai_create.
  rewrite Hp, Hk, Hapi. by eexists.
Qed.

(** C6.  [generateResponse] hands the provider's failure to its caller:
    whenever the provider call throws [e], whether the OpenAI call or
    the Gemini call failed or the provider is not supported, so does
    [generateResponse]; the message of a response it returns is the
    provider's; and the keyword heuristic is what [analyzeSentiment]
    answers when there is no OpenAI client. *)
Theorem generateResponse_propagates_errors `{AiPricing} this request
    (w : World) :
  (forall e w1,
     call_provider this request (started w) = (Throw e, w1) ->
     exists w', generateResponse this request w = (Throw e, w'))
  /\ (forall key latency e,
        provider this = openai ->
        openai_client this = Some key ->
        openai_api w (length (calls w)) (openai_request this request)
          = (latency, Throw e) ->
        exists w', generateResponse this request w = (Throw e, w'))
  /\ (forall key lastMessage latency e,
        provider this = gemini ->
        gemini_client this = Some key ->
        last (conversationHistory request) = Some lastMessage ->
        gemini_api w (length (calls w))
                   (gemini_request this request lastMessage)
          = (latency, Throw e) ->
        exists w', generateResponse this request w = (Throw e, w'))
  /\ (provider this = anthropic ->
      exists w',
        generateResponse this request w
        = (Throw (Error "Unsupported AI provider: anthropic"), w'))
  /\ (forall r w',
        generateResponse this request w = (Return r, w') ->
        exists r0 w1,
          call_provider this request (started w) = (Return r0, w1)
          /\ message r = message r0)
  /\ (forall text,
        provider this <> openai ->
        analyzeSentiment this text w
        = (Return (simpleSentimentAnalysis text), w)).
Proof.
  split; [intros e w1; apply generateResponse_throws|].
  split; [intros key latency e; apply openai_failure_propagates|].
  split; [intros key lastMessage latency e; apply gemini_failure_propagates|].
  split; [apply unsupported_provider_throws|].
  split; [intros r w'; apply generateResponse_returns|].
  intros text. apply analyzeSentiment_fallback.
Qed.

(** C6 during an outage of the provider. *)
Lemma generateResponse_propagates_errors_witness :
  exists w',
    @generateResponse Engines.flat_pricing support_bot question outage
    = (Throw (RemoteError "503 Service Unavailable"), w').
Proof.
  destruct (@generateResponse_propagates_errors Engines.flat_pricing
              support_bot question outage) as (_ & Hopenai & _).
  apply (Hopenai "sk-test" 120); reflexivity.
Defined.

End AiProps.

(** ** Token encryption *)

Module EncryptionProps.

Import Buffer Encryption.
Local Open Scope Z_scope.

(** *** Bytes *)

Lemma byte_to_Z_range (b : byte) : 0 <= byte_to_Z b < 256.
Proof.
  unfold byte_to_Z. pose proof (Byte.to_N_bounded b). lia.
Qed.

Lemma byte_of_to_Z (b : byte) : byte_of_Z (byte_to_Z b) = b.
Proof.
  unfold byte_of_Z, byte_to_Z. by rewrite N2Z.id, Byte.of_to_N.
Qed.

Lemma byte_to_of_Z (z : Z) : 0 <= z < 256 -> byte_to_Z (byte_of_Z z) = z.
Proof.
  intros Hz. unfold byte_of_Z, byte_to_Z.
  destruct (Byte.of_N (Z.to_N z)) as [b|] eqn:Hb; simpl.
  - apply Byte.to_of_N in Hb. rewrite Hb. lia.
  - apply Byte.of_N_None_iff in Hb. lia.
Qed.

(** *** base64 *)

Lemma b64_value_char (n : Z) :
  0 <= n < 64 ->
  b64_value (b64_char n) = Some n /\ Ascii.eqb (b64_char n) "=" = false.
Proof.
  intros Hn.
  assert (exists k : nat, n = Z.of_nat k /\ (k < 64)%nat) as (k & -> & Hk)
    by (exists (Z.to_nat n); lia).
  clear Hn.
  do 64 (destruct k as [|k]; [split; reflexivity|]). lia.
Qed.

Lemma sextets_char (n : Z) (s : string) :
  0 <= n < 64 -> sextets (String (b64_char n) s) = n :: sextets s.
Proof.
  intros Hn. destruct (b64_value_char n Hn) as [Hv Hpad].
  simpl. by rewrite Hpad, Hv.
Qed.

Lemma sextets_padding (s : string) : sextets (String "=" s) = [].
Proof. reflexivity. Qed.

Lemma list_ind3 {A} (P : list A -> Prop) :
  P [] ->
  (forall a, P [a]) ->
  (forall a b, P [a; b]) ->
  (forall a b c l, P l -> P (a :: b :: c :: l)) ->
  forall l, P l.
Proof.
  intros H0 H1 H2 H3. fix IH 1.
  intros [|a [|b [|c l]]];
    [exact H0|apply H1|apply H2|apply H3, IH].
Qed.

Ltac byte_ranges :=
  repeat match goal with
         | b : byte |- _ =>
             lazymatch goal with
             | _ : 0 <= byte_to_Z b < 256 |- _ => fail
             | _ => pose proof (byte_to_Z_range b)
             end
         end.

Ltac divmod := Z.div_mod_to_equations; lia.

(** Decoding undoes encoding. *)
Lemma byte_of_Z_eq (z : Z) (b : byte) : z = byte_to_Z b -> byte_of_Z z = b.
Proof. intros ->. apply byte_of_to_Z. Qed.

Lemma base64_decode_encode (buf : list byte) :
  base64_decode (base64_encode buf) = buf.
Proof.
  unfold base64_decode.
  induction buf as [|a|a b|a b c rest IH] using list_ind3.
  - reflexivity.
  - byte_ranges. cbn [base64_encode].
    rewrite !sextets_char, sextets_padding by divmod.
    cbn [bytes_of_sextets]. f_equal. apply byte_of_Z_eq. divmod.
  - byte_ranges. cbn [base64_encode].
    rewrite !sextets_char, sextets_padding by divmod.
    cbn [bytes_of_sextets].
    f_equal; [|f_equal]; apply byte_of_Z_eq; divmod.
  - byte_ranges. cbn [base64_encode].
    rewrite !sextets_char by divmod.
    cbn [bytes_of_sextets]. rewrite IH.
    f_equal; [|f_equal; [|f_equal]]; apply byte_of_Z_eq; divmod.
Qed.

(** *** UTF-8 *)

Ltac bool_to_prop :=
  repeat match goal with
         | H : _ && _ = true |- _ => apply andb_true_iff in H; destruct H
         | H : _ && _ = false |- _ => apply andb_false_iff in H; destruct H
         | H : _ || _ = true |- _ => apply orb_true_iff in H; destruct H
         | H : _ || _ = false |- _ => apply orb_false_iff in H; destruct H
         | H : negb _ = true |- _ => apply negb_true_iff in H
         | H : negb _ = false |- _ => apply negb_false_iff in H
         | H : (_ <=? _) = true |- _ => apply Z.leb_le in H
         | H : (_ <=? _) = false |- _ => apply Z.leb_gt in H
         | H : (_ <? _) = true |- _ => apply Z.ltb_lt in H
         | H : (_ <? _) = false |- _ => apply Z.ltb_ge in H
         | H : (_ =? _) = true |- _ => apply Z.eqb_eq in H
         | H : (_ =? _) = false |- _ => apply Z.eqb_neq in H
         end.

(** Decide the next test of the goal, discarding the branch that
    arithmetic excludes. *)
Ltac decide_test :=
  match goal with
  | |- context [if ?c then _ else _] =>
      lazymatch c with
      | context [if _ then _ else _] => fail
      | _ =>
          let E := fresh "E" in
          destruct c eqn:E; bool_to_prop; try (exfalso; divmod)
      end
  end.

Ltac same_code_point :=
  match goal with
  | |- (utf16 ?e ++ _)%list = (utf16 ?cp ++ _)%list =>
      by replace e with cp by divmod
  end.

(** The decoder reads back the code point the encoder wrote. *)
Lemma decode_code_point (cp : Z) (rest : list byte) :
  scalar cp ->
  utf8_decode_from Start (encode_code_point cp ++ rest)
  = (utf16 cp ++ utf8_decode_from Start rest)%list.
Proof.
  intros [Hrange Hsurrogate]. unfold encode_code_point.
  destruct (Z.ltb_spec cp 128); [|destruct (Z.ltb_spec cp 2048);
    [|destruct (Z.ltb_spec cp 65536)]].
  - cbn [app utf8_decode_from]. rewrite byte_to_of_Z by lia.
    unfold lead, utf16. repeat decide_test. reflexivity.
  - cbn [app utf8_decode_from]. rewrite !byte_to_of_Z by divmod.
    unfold lead. repeat decide_test. cbn [app]. same_code_point.
  - cbn [app utf8_decode_from]. rewrite !byte_to_of_Z by divmod.
    unfold lead. repeat decide_test. all: cbn [app]; same_code_point.
  - cbn [app utf8_decode_from]. rewrite !byte_to_of_Z by divmod.
    unfold lead. repeat decide_test. all: cbn [app]; same_code_point.
Qed.

Lemma utf8_decode_encode_bounded (n : nat) :
  forall s : list Z,
    (length s <= n)%nat ->
    well_formed s = true ->
    utf8_decode (utf8_encode s) = s.
Proof.
  unfold utf8_decode.
  induction n as [|n IH]; intros s Hlen Hwf.
  { destruct s; [reflexivity|simpl in Hlen; lia]. }
  destruct s as [|u rest]; [reflexivity|].
  cbn [utf8_encode well_formed] in *.
  apply andb_true_iff in Hwf as [Hunit Hwf].
  destruct (is_high_surrogate u) eqn:Hhigh.
  - destruct rest as [|v rest']; [discriminate|].
    apply andb_true_iff in Hwf as [Hlow Hwf]. rewrite Hlow.
    unfold is_code_unit, is_high_surrogate, is_low_surrogate in *.
    bool_to_prop.
    rewrite decode_code_point by (unfold scalar; lia).
    rewrite IH by (simpl in Hlen; done || lia).
    unfold utf16. decide_test. cbn [app].
    f_equal; [|f_equal]; divmod.
  - apply andb_true_iff in Hwf as [Hlow Hwf].
    apply negb_true_iff in Hlow. rewrite Hlow.
    unfold is_code_unit, is_high_surrogate, is_low_surrogate in *.
    rewrite decode_code_point.
    2:{ unfold scalar. bool_to_prop; lia. }
    rewrite IH by (simpl in Hlen; done || lia).
    unfold utf16. bool_to_prop; decide_test; reflexivity.
Qed.

(** Decoding undoes encoding on well-formed strings. *)
Lemma utf8_decode_encode (s : list Z) :
  well_formed s = true -> utf8_decode (utf8_encode s) = s.
Proof. apply (utf8_decode_encode_bounded (length s)). lia. Qed.

(** *** The packed payload *)

Section WithCrypto.
Context `{CryptoLaws}.

(** [decrypt] finds the four parts where [encrypt] put them. *)
Lemma decrypt_packed (salt iv tag encrypted : list byte) secretKey :
  length salt = SALT_LENGTH ->
  length iv = IV_LENGTH ->
  length tag = TAG_LENGTH ->
  decrypt (base64_encode (salt ++ iv ++ tag ++ encrypted)) secretKey
  = match gcm_decrypt (pbkdf2Sync secretKey salt 100000 32 "sha512")
                      iv encrypted tag with
    | Some plaintext => Return (utf8_decode plaintext)
    | None => Throw (Error "Unsupported state or unable to authenticate data")
    end.
Proof.
  intros Hsalt Hiv Htag. unfold decrypt.
  rewrite base64_decode_encode.
  unfold slice, slice_from, ENCRYPTED_POSITION, TAG_POSITION.
  assert (take (SALT_LENGTH - 0) (drop 0 (salt ++ iv ++ tag ++ encrypted))
          = salt) as ->.
  { rewrite Nat.sub_0_r, drop_0. by apply take_app_length'. }
  assert (take (SALT_LENGTH + IV_LENGTH - SALT_LENGTH)
               (drop SALT_LENGTH (salt ++ iv ++ tag ++ encrypted))
          = iv) as ->.
  { rewrite drop_app_length' by done.
    replace (SALT_LENGTH + IV_LENGTH - SALT_LENGTH)%nat with IV_LENGTH
      by lia.
    by apply take_app_length'. }
  assert (take (SALT_LENGTH + IV_LENGTH + TAG_LENGTH
                - (SALT_LENGTH + IV_LENGTH))
               (drop (SALT_LENGTH + IV_LENGTH)
                     (salt ++ iv ++ tag ++ encrypted))
          = tag) as ->.
  { rewrite (app_assoc salt iv).
    rewrite drop_app_length' by (rewrite length_app; lia).
    replace (SALT_LENGTH + IV_LENGTH + TAG_LENGTH
             - (SALT_LENGTH + IV_LENGTH))%nat with TAG_LENGTH by lia.
    by apply take_app_length'. }
  assert (drop (SALT_LENGTH + IV_LENGTH + TAG_LENGTH)
               (salt ++ iv ++ tag ++ encrypted)
          = encrypted) as ->.
  { rewrite (app_assoc salt iv), (app_assoc (salt ++ iv) tag).
    apply drop_app_length'. rewrite !length_app. lia. }
  destruct iv; [discriminate|reflexivity].
Qed.

(** What comes back from [decrypt (encrypt text)]: the text after a
    passage through UTF-8. *)
Lemma decrypt_encrypt (text secretKey : list Z) (w : World) :
  exists payload w',
    encrypt text secretKey w = (Return payload, w')
    /\ decrypt payload secretKey = Return (utf8_decode (utf8_encode text)).
Proof.
  unfold encrypt, Eff.bind, randomBytes, ret. cbn [entropy drawn].
  set (iv := map (entropy w) (seq (drawn w) IV_LENGTH)).
  set (salt := map (entropy w) (seq (drawn w + IV_LENGTH) SALT_LENGTH)).
  set (key := pbkdf2Sync secretKey salt 100000 32 "sha512").
  pose proof (gcm_tag_length key iv (utf8_encode text)) as Htag.
  pose proof (gcm_decrypt_encrypt key iv (utf8_encode text)) as Hgcm.
  destruct (gcm_encrypt key iv (utf8_encode text)) as [encrypted tag].
  cbn [fst snd] in Htag, Hgcm.
  eexists _, _. split; [reflexivity|].
  rewrite decrypt_packed.
  - fold key. rewrite Hgcm; [reflexivity|].
    subst iv. by rewrite length_map, length_seq.
  - subst salt. by rewrite length_map, length_seq.
  - subst iv. by rewrite length_map, length_seq.
  - exact Htag.
Qed.

(** C10 as amended.  For every well-formed text (its UTF-16 code units
    in range and its surrogates paired) and every secret key, [encrypt]
    returns a payload from which [decrypt], under the same key,
    returns the text. *)
Theorem encrypt_decrypt_round_trip (text secretKey : list Z) (w : World) :
  well_formed text = true ->
  round_trips text secretKey w.
Proof.
  intros Hwf. unfold round_trips.
  destruct (decrypt_encrypt text secretKey w) as (payload & w' & He & Hd).
  exists payload, w'. split; [exact He|].
  by rewrite Hd, utf8_decode_encode.
Qed.

(** A high surrogate on its own comes back as U+FFFD. *)
Lemma lone_surrogate_replaced (secretKey : list Z) (w : World) :
  ~ round_trips [55296] secretKey w.
Proof.
  intros (payload & w' & He & Hd).
  destruct (decrypt_encrypt [55296] secretKey w)
    as (payload2 & w2 & He2 & Hd2).
  rewrite He in He2. injection He2 as <- <-.
  rewrite Hd in Hd2. vm_compute in Hd2. discriminate.
Qed.

End WithCrypto.

Lemma mirror_crypto_laws : @CryptoLaws Engines.mirror_crypto.
Proof.
  split.
  - intros key iv plaintext. reflexivity.
  - intros key iv plaintext _. simpl. by rewrite rev_involutive.
Qed.

(** The text ["Hi"] under the key ["k"]. *)
Lemma encrypt_decrypt_round_trip_witness :
  @round_trips Engines.mirror_crypto [72; 105] [107] Engines.counting.
Proof.
  apply (@encrypt_decrypt_round_trip Engines.mirror_crypto mirror_crypto_laws).
  reflexivity.
Defined.

(** C10 as stated fails: the one-character text made of the high
    surrogate U+D800 is a string, and it does not survive the round
    trip, under any key and any implementation of the cipher. *)
Lemma lone_surrogate_not_recovered :
  utf8_decode (utf8_encode [55296]) = [65533]
  /\ ~ @round_trips Engines.mirror_crypto [55296] [107] Engines.counting
  /\ forall (engine : CryptoEngine) (laws : CryptoLaws) secretKey w,
       ~ round_trips [55296] secretKey w.
Proof.
  split; [reflexivity|]. split.
  - apply (@lone_surrogate_replaced Engines.mirror_crypto mirror_crypto_laws).
  - intros engine laws. apply lone_surrogate_replaced.
Qed.

End EncryptionProps.

(** ** Template rendering, beyond the claims *)

Module RenderingProps.

Import Utils TemplateProps.

Lemma placeholder_keys_skip (pre s : string) :
  placeholder_keys (pre +:+ s) (String.length pre) = placeholder_keys s 0.
Proof.
  induction pre as [|c pre IH]; push_append; simpl; [reflexivity|exact IH].
Qed.

Lemma replace_placeholders_fixed callback (n : nat) :
  forall s : string,
    (String.length s <= n)%nat ->
    Forall (fun key =>
              callback ("{{" +:+ key +:+ "}}") key = "{{" +:+ key +:+ "}}")
           (placeholder_keys s 0) ->
    replace_placeholders callback s 0 = s.
Proof.
  induction n as [|n IH]; intros s Hlen Hkeys.
  - destruct s; [reflexivity|simpl in Hlen; lia].
  - destruct s as [|c s]; [reflexivity|].
    cbn [replace_placeholders placeholder_keys] in *.
    destruct (match_placeholder (String c s)) as [key|] eqn:Hm.
    + destruct (match_placeholder_split _ _ Hm) as [rest Hs].
      apply Forall_cons in Hkeys as [Hkey Hkeys]. rewrite Hkey.
      assert (c = "{"%char) as ->
        by (push_append_in Hs; by injection Hs).
      assert (s = ("{" +:+ key +:+ "}}") +:+ rest) as ->.
      { push_append_in Hs. injection Hs as ->.
        push_append. by rewrite append_assoc. }
      replace (String.length key + 3)%nat
        with (String.length ("{" +:+ key +:+ "}}")) in *.
      2:{ push_append. simpl. rewrite length_append. simpl. lia. }
      rewrite replace_placeholders_skip.
      rewrite placeholder_keys_skip in Hkeys. rewrite IH; [| |done].
      * push_append. by rewrite !append_assoc.
      * simpl in Hlen. rewrite !length_append in Hlen. simpl in Hlen.
        lia.
    + f_equal. apply IH; [simpl in Hlen; lia|done].
Qed.

(** X1.  A template comes back unchanged when none of the keys its
    placeholders capture resolves to a non-empty value: unresolved
    placeholders are kept as written, and text around them is never
    altered. *)
Theorem unresolved_placeholders_kept template
    (variables : gmap string string) :
  Forall (fun key => truthy (get_property variables key) = false)
         (placeholder_keys template 0) ->
  replaceVariables template variables = template.
Proof.
  intros Hkeys. unfold replaceVariables.
  apply (replace_placeholders_fixed _ (String.length template)); [lia|].
  eapply Forall_impl; [exact Hkeys|].
  intros key Hkey. unfold JSValue.or. by rewrite Hkey.
Qed.

Lemma unresolved_placeholders_kept_witness :
  replaceVariables "Dear {{title}} {{surname}}, your {{ order }} is {{"
                   {[ "name" := "Ana"; "title" := "" ]}
  = "Dear {{title}} {{surname}}, your {{ order }} is {{".
Proof.
  apply unresolved_placeholders_kept.
  vm_compute. repeat constructor.
Defined.

Lemma match_placeholder_other (c : ascii) (s : string) :
  c <> "{"%char -> match_placeholder (String c s) = None.
Proof.
  intros Hc. unfold match_placeholder.
  destruct c as [[] [] [] [] [] [] [] []]; try reflexivity.
  by destruct Hc.
Qed.

Lemma includes_brace_cons (c : ascii) (s : string) :
  JS.includes (String c s) "{" = false ->
  c <> "{"%char /\ JS.includes s "{" = false.
Proof.
  cbn [JS.includes]. unfold JS.startsWith at 1. cbn [String.prefix].
  destruct (ascii_dec "{" c) as [<-|Hc].
  - destruct s; discriminate.
  - cbn [orb]. intros Hs. split; [congruence|exact Hs].
Qed.

(** Text without a brace is copied as it is. *)
Lemma replace_placeholders_plain callback (pre s : string) :
  JS.includes pre "{" = false ->
  replace_placeholders callback (pre +:+ s) 0
  = pre +:+ replace_placeholders callback s 0.
Proof.
  induction pre as [|c pre IH]; intros Hpre; push_append; [reflexivity|].
  apply includes_brace_cons in Hpre as [Hc Hpre].
  cbn [replace_placeholders].
  rewrite (match_placeholder_other _ _ Hc). by rewrite IH.
Qed.

Lemma word_run_key (key rest : string) :
  all_word key = true ->
  word_run (key +:+ String "}" rest) = (key, String "}" rest).
Proof.
  induction key as [|c key IH]; intros Hkey.
  - reflexivity.
  - simpl in Hkey. apply andb_true_iff in Hkey as [Hc Hkey].
    rewrite append_cons. cbn [word_run]. by rewrite Hc, IH.
Qed.

Lemma match_placeholder_key (key post : string) :
  all_word key = true ->
  key <> "" ->
  match_placeholder ("{{" +:+ key +:+ "}}" +:+ post) = Some key.
Proof.
  intros Hword Hkey. push_append. unfold match_placeholder.
  rewrite (word_run_key _ _ Hword).
  destruct key as [|c key]; [done|].
  unfold JS.startsWith. destruct post; reflexivity.
Qed.

Lemma replace_placeholders_at_match callback (c : ascii) (s key : string) :
  match_placeholder (String c s) = Some key ->
  replace_placeholders callback (String c s) 0
  = callback ("{{" +:+ key +:+ "}}") key
      +:+ replace_placeholders callback s (String.length key + 3).
Proof. intros Hm. cbn [replace_placeholders]. by rewrite Hm. Qed.

Lemma replace_placeholders_match callback (key post : string) :
  all_word key = true ->
  key <> "" ->
  replace_placeholders callback ("{{" +:+ key +:+ "}}" +:+ post) 0
  = callback ("{{" +:+ key +:+ "}}") key
      +:+ replace_placeholders callback post 0.
Proof.
  intros Hword Hkey.
  pose proof (match_placeholder_key key post Hword Hkey) as Hm.
  replace ("{{" +:+ key +:+ "}}" +:+ post)
    with (String "{" (("{" +:+ key +:+ "}}") +:+ post)) in *
    by (push_append; rewrite append_assoc; by push_append).
  rewrite (replace_placeholders_at_match _ _ _ _ Hm). f_equal.
  replace (String.length key + 3)%nat
    with (String.length ("{" +:+ key +:+ "}}")).
  2:{ push_append. simpl. rewrite length_append. simpl. lia. }
  apply replace_placeholders_skip.
Qed.

(** X2.  A placeholder whose key is supplied with a non-empty value is
    replaced by that value, the text before it (when it holds no
    brace) is kept, and the scan goes on after the placeholder: the
    inserted value is not scanned again. *)
Theorem supplied_placeholder_rendered (pre key post value : string)
    (variables : gmap string string) :
  JS.includes pre "{" = false ->
  all_word key = true ->
  key <> "" ->
  variables !! key = Some value ->
  value <> "" ->
  replaceVariables (pre +:+ "{{" +:+ key +:+ "}}" +:+ post) variables
  = pre +:+ value +:+ replaceVariables post variables.
Proof.
  intros Hpre Hword Hkey Hvar Hvalue. unfold replaceVariables.
  rewrite replace_placeholders_plain by done.
  rewrite replace_placeholders_match by done.
  unfold get_property, JSValue.or. rewrite Hvar.
  destruct value; [done|reflexivity].
Qed.

Lemma supplied_placeholder_rendered_witness :
  replaceVariables ("Hi " +:+ "{{" +:+ "name" +:+ "}}" +:+ ", see {{link}}")
                   {[ "name" := "Ana {{link}}" ]}
  = "Hi " +:+ "Ana {{link}}"
      +:+ replaceVariables ", see {{link}}" {[ "name" := "Ana {{link}}" ]}.
Proof.
  apply supplied_placeholder_rendered; try reflexivity; discriminate.
Defined.

End RenderingProps.

(** ** Keyword matching, beyond the claims *)

Module MatchingProps.

Import Utils.

Lemma prefix_refl (s : string) : String.prefix s s = true.
Proof.
  induction s as [|c s IH]; [reflexivity|]. simpl.
  by destruct (ascii_dec c c).
Qed.

Lemma prefix_empty (s : string) : String.prefix "" s = true.
Proof. by destruct s. Qed.

Lemma includes_startsWith (s kw : string) :
  JS.startsWith s kw = true -> JS.includes s kw = true.
Proof. intros Hs. destruct s; cbn [JS.includes]; by rewrite Hs. Qed.

Lemma includes_tail (c : ascii) (s kw : string) :
  JS.includes s kw = true -> JS.includes (String c s) kw = true.
Proof. intros Hs. cbn [JS.includes]. rewrite Hs. apply orb_true_r. Qed.

Lemma substring_nothing (i : nat) (s : string) : substring i 0 s = "".
Proof.
  revert s. induction i as [|i IH]; intros [|c s]; simpl; auto.
Qed.

Lemma substring_whole (s : string) : substring 0 (String.length s) s = s.
Proof. induction s as [|c s IH]; simpl; [reflexivity|by rewrite IH]. Qed.

(** A keyword found at position [i] occurs in the message. *)
Lemma includes_substring (i : nat) (s kw : string) :
  substring i (String.length kw) s = kw -> JS.includes s kw = true.
Proof.
  revert s. induction i as [|i IH]; intros s Hs.
  - apply includes_startsWith. unfold JS.startsWith.
    by apply prefix_correct.
  - destruct s as [|c s].
    + simpl in Hs. subst kw. reflexivity.
    + apply includes_tail, IH. exact Hs.
Qed.

Lemma includes_endsWith (s kw : string) :
  JS.endsWith s kw = true -> JS.includes s kw = true.
Proof.
  unfold JS.endsWith. intros Hs.
  apply andb_true_iff in Hs as [_ Hs]. apply String.eqb_eq in Hs.
  by eapply includes_substring.
Qed.

Lemma toLowerCase_empty (s : string) : JS.toLowerCase s = "" <-> s = "".
Proof. destruct s; simpl; split; congruence. Qed.

Section WithEngine.
Context `{RegExpEngine}.

(** X3.  The four literal match types nest: a message that [equals] the
    keyword also starts and ends with it, and a message that starts
    or ends with the keyword contains it, under either case
    setting. *)
Theorem match_types_nest (message keyword : string) (caseSensitive : bool) :
  let matches matchType :=
    matchesKeyword message keyword matchType caseSensitive = Return true in
  (matches equals -> matches starts_with /\ matches ends_with)
  /\ (matches starts_with -> matches contains)
  /\ (matches ends_with -> matches contains).
Proof.
  intros matches. subst matches. unfold matchesKeyword.
  set (msg := if caseSensitive then message else JS.toLowerCase message).
  set (kw := if caseSensitive then keyword else JS.toLowerCase keyword).
  split; [|split].
  - intros [= Heq]. apply String.eqb_eq in Heq. rewrite Heq. split.
    + unfold JS.startsWith. by rewrite prefix_refl.
    + unfold JS.endsWith. rewrite Nat.leb_refl, Nat.sub_diag.
      by rewrite substring_whole, String.eqb_refl.
  - intros [= Hs]. by rewrite includes_startsWith.
  - intros [= Hs]. by rewrite includes_endsWith.
Qed.

(** X4.  An empty keyword matches every message under [contains],
    [starts_with] and [ends_with]; under [equals] it matches the empty
    message only. *)
Theorem empty_keyword_matches (message : string) (caseSensitive : bool) :
  matchesKeyword message "" contains caseSensitive = Return true
  /\ matchesKeyword message "" starts_with caseSensitive = Return true
  /\ matchesKeyword message "" ends_with caseSensitive = Return true
  /\ (matchesKeyword message "" equals caseSensitive = Return true
      <-> message = "").
Proof.
  unfold matchesKeyword.
  set (msg := if caseSensitive then message else JS.toLowerCase message).
  assert (msg = "" <-> message = "") as Hmsg.
  { subst msg. destruct caseSensitive; [done|apply toLowerCase_empty]. }
  replace (if caseSensitive then "" else JS.toLowerCase "") with ""
    by (by destruct caseSensitive).
  split; [|split; [|split; [|split]]].
  - rewrite includes_startsWith; [done|apply prefix_empty].
  - unfold JS.startsWith. by rewrite prefix_empty.
  - unfold JS.endsWith. simpl. by rewrite substring_nothing.
  - intros [= Heq]. apply String.eqb_eq in Heq. by apply Hmsg.
  - intros Hm. apply Hmsg in Hm. by rewrite Hm.
Qed.

End WithEngine.

End MatchingProps.

(** ** Retry with backoff, for any ceiling and base delay *)

Module RetryProps.

Import Utils RetryTrace SenderProps.
Local Open Scope Z_scope.

(** With a ceiling of zero or less the function is never called and
    what is thrown is [undefined], the unassigned [lastError]. *)
Theorem retry_without_attempts {W T} `{Timers W} (fn : M W JsError T)
    (maxRetries baseDelay : Z) (w : W) :
  maxRetries <= 0 ->
  retryWithBackoff fn maxRetries baseDelay w = (Throw Undefined, w).
Proof.
  intros Hmax. unfold retryWithBackoff.
  replace (Z.to_nat maxRetries) with 0%nat by lia. reflexivity.
Qed.

Lemma retry_without_attempts_witness :
  retryWithBackoff (scripted (fun _ => Return "sent")) 0 1000 []
  = (Throw Undefined, []).
Proof. apply retry_without_attempts. lia. Defined.

Lemma calls_made_app (w v : list Step) :
  calls_made (w ++ v) = (calls_made w + calls_made v)%nat.
Proof. unfold calls_made. by rewrite List.filter_app, length_app. Qed.

Lemma calls_made_after_wait (w : list Step) (ms : Z) :
  calls_made ((w ++ [Called]) ++ [Slept ms]) = S (calls_made w).
Proof. rewrite !calls_made_app. unfold calls_made. simpl. lia. Qed.

Section Scripted.
Context {T : Type}.
Variables (outcomes : nat -> completion JsError T).
Variables (maxRetries baseDelay : Z).

Lemma scripted_run (w : list Step) :
  scripted outcomes w = (outcomes (calls_made w), (w ++ [Called])%list).
Proof. reflexivity. Qed.

(** The loop reaches the first success: [k] failures, then a value. *)
Lemma retry_loop_reaches_success (t : T) (k : nat) :
  forall (i : Z) (remaining : nat) (lastError : JsError) (w : list Step),
    (k < remaining)%nat ->
    i + Z.of_nat remaining = maxRetries ->
    (forall j, (j < k)%nat ->
       exists e, outcomes (calls_made w + j)%nat = Throw e) ->
    outcomes (calls_made w + k)%nat = Return t ->
    retry_loop (scripted outcomes) maxRetries baseDelay i remaining
               lastError w
    = (Return t, (w ++ backoff_trace baseDelay i (S k))%list).
Proof.
  induction k as [|k IH]; intros i remaining lastError w Hk Hi Hfail Hok.
  - destruct remaining as [|remaining]; [lia|].
    rewrite Nat.add_0_r in Hok.
    apply (retry_loop_success (scripted outcomes)).
    by rewrite scripted_run, Hok.
  - destruct remaining as [|remaining]; [lia|].
    destruct (Hfail 0%nat) as [e He]; [lia|].
    rewrite Nat.add_0_r in He.
    rewrite (retry_loop_failure (scripted outcomes) _ _ _ _ _ _ e
               (w ++ [Called])%list)
      by (rewrite ?scripted_run, ?He; done || lia).
    cbn [elapse steps_timers].
    rewrite (IH (i + 1) remaining e); try lia.
    + rewrite <- !app_assoc. reflexivity.
    + intros j Hj. rewrite calls_made_after_wait.
      replace (S (calls_made w) + j)%nat
        with (calls_made w + S j)%nat by lia.
      apply Hfail. lia.
    + rewrite calls_made_after_wait.
      replace (S (calls_made w) + k)%nat
        with (calls_made w + S k)%nat by lia.
      exact Hok.
Qed.

(** The loop runs out: every remaining attempt fails. *)
Lemma retry_loop_runs_out :
  forall (remaining : nat) (errors : nat -> JsError) (i : Z)
         (lastError : JsError) (w : list Step),
    i + Z.of_nat remaining = maxRetries ->
    (forall j, (j < remaining)%nat ->
       outcomes (calls_made w + j)%nat = Throw (errors j)) ->
    retry_loop (scripted outcomes) maxRetries baseDelay i remaining
               lastError w
    = (Throw (match remaining with
              | O => lastError
              | S last => errors last
              end),
       (w ++ backoff_trace baseDelay i remaining)%list).
Proof.
  induction remaining as [|remaining IH];
    intros errors i lastError w Hi Hfail.
  - by rewrite app_nil_r.
  - pose proof (Hfail 0%nat ltac:(lia)) as He. rewrite Nat.add_0_r in He.
    destruct remaining as [|remaining].
    + rewrite (retry_loop_last_failure (scripted outcomes) _ _ _ _ _ _
                 (errors 0%nat) (w ++ [Called])%list)
        by (rewrite ?scripted_run, ?He; done || lia).
      reflexivity.
    + rewrite (retry_loop_failure (scripted outcomes) _ _ _ _ _ _
                 (errors 0%nat) (w ++ [Called])%list)
        by (rewrite ?scripted_run, ?He; done || lia).
      cbn [elapse steps_timers].
      rewrite (IH (fun j => errors (S j)) (i + 1) (errors 0%nat));
        try lia.
      * rewrite <- !app_assoc. reflexivity.
      * intros j Hj. rewrite calls_made_after_wait.
        replace (S (calls_made w) + j)%nat
          with (calls_made w + S j)%nat by lia.
        rewrite Hfail by lia. reflexivity.
Qed.

End Scripted.

Lemma calls_made_backoff (baseDelay : Z) (attempts : nat) :
  forall i, calls_made (backoff_trace baseDelay i attempts) = attempts.
Proof.
  induction attempts as [|attempts IH]; intros i; [reflexivity|].
  destruct attempts as [|attempts]; [reflexivity|].
  change (calls_made (backoff_trace baseDelay i (S (S attempts))))
    with (S (calls_made (backoff_trace baseDelay (i + 1) (S attempts)))).
  by rewrite IH.
Qed.

Lemma total_slept_backoff (baseDelay : Z) (attempts : nat) :
  forall i,
    0 <= i ->
    total_slept (backoff_trace baseDelay i (S attempts))
    = baseDelay * 2 ^ i * (2 ^ Z.of_nat attempts - 1).
Proof.
  induction attempts as [|attempts IH]; intros i Hi.
  - simpl. lia.
  - change (total_slept (backoff_trace baseDelay i (S (S attempts))))
      with (baseDelay * 2 ^ i
            + total_slept (backoff_trace baseDelay (i + 1) (S attempts))).
    rewrite IH by lia.
    rewrite Nat2Z.inj_succ, Z.pow_succ_r by lia.
    rewrite (Z.pow_add_r 2 i 1) by lia. change (2 ^ 1) with 2. ring.
Qed.

(** X5.  [retryWithBackoff] stops at the first success.  When the first
    [k] calls fail and call [k] succeeds, with [k] below the ceiling,
    the function is called [k + 1] times and never again, the value of
    the last call is returned, the waits are
    [baseDelay * 2 ^ 0 .. baseDelay * 2 ^ (k - 1)], and their sum is
    [baseDelay * (2 ^ k - 1)]. *)
Theorem retry_stops_at_first_success {T}
    (outcomes : nat -> completion JsError T)
    (maxRetries baseDelay : Z) (t : T) (k : nat) :
  Z.of_nat k < maxRetries ->
  (forall j, (j < k)%nat -> exists e, outcomes j = Throw e) ->
  outcomes k = Return t ->
  exists w,
    retryWithBackoff (scripted outcomes) maxRetries baseDelay [] = (Return t, w)
    /\ w = backoff_trace baseDelay 0 (S k)
    /\ calls_made w = S k
    /\ total_slept w = baseDelay * (2 ^ Z.of_nat k - 1).
Proof.
  intros Hk Hfail Hok. eexists. split; [|split; [reflexivity|split]].
  - unfold retryWithBackoff.
    rewrite (retry_loop_reaches_success outcomes maxRetries baseDelay t k);
      [reflexivity|lia|lia|done|done].
  - apply calls_made_backoff.
  - rewrite total_slept_backoff by lia. ring.
Qed.

(** X6.  When every call fails, [retryWithBackoff] calls the function
    exactly [maxRetries] times, waits between the calls but not after
    the last one, for [baseDelay * (2 ^ (maxRetries - 1) - 1)] in all,
    and throws the error of the last call. *)
Theorem retry_gives_up_after_ceiling {T}
    (outcomes : nat -> completion JsError T) (errors : nat -> JsError)
    (maxRetries baseDelay : Z) :
  1 <= maxRetries ->
  (forall j, Z.of_nat j < maxRetries -> outcomes j = Throw (errors j)) ->
  exists w,
    retryWithBackoff (scripted outcomes) maxRetries baseDelay []
    = (Throw (errors (Z.to_nat (maxRetries - 1))), w)
    /\ w = backoff_trace baseDelay 0 (Z.to_nat maxRetries)
    /\ Z.of_nat (calls_made w) = maxRetries
    /\ total_slept w = baseDelay * (2 ^ (maxRetries - 1) - 1).
Proof.
  intros Hmax Hfail. eexists. split; [|split; [reflexivity|split]].
  - unfold retryWithBackoff.
    rewrite (retry_loop_runs_out outcomes maxRetries baseDelay
               (Z.to_nat maxRetries) errors);
      [|lia|intros j Hj; apply Hfail; lia].
    replace (Z.to_nat maxRetries) with (S (Z.to_nat (maxRetries - 1)))
      by lia.
    reflexivity.
  - rewrite calls_made_backoff. lia.
  - replace (Z.to_nat maxRetries) with (S (Z.to_nat (maxRetries - 1)))
      by lia.
    rewrite total_slept_backoff by lia.
    rewrite Z2Nat.id by lia. ring.
Qed.

(** Two failures, then a value, under a ceiling of five. *)
Lemma retry_stops_at_first_success_witness :
  exists w,
    retryWithBackoff (scripted third_time_lucky) 5 3000 [] = (Return "sent", w)
    /\ w = backoff_trace 3000 0 3
    /\ calls_made w = 3%nat
    /\ total_slept w = 3000 * (2 ^ Z.of_nat 2 - 1).
Proof.
  apply (retry_stops_at_first_success third_time_lucky 5 3000 "sent" 2).
  - lia.
  - intros [|[|j]] Hj; [by eexists|by eexists|lia].
  - reflexivity.
Defined.

Lemma retry_gives_up_after_ceiling_witness :
  exists w,
    retryWithBackoff (T := string)
      (scripted (fun n => Throw (Error (pretty n)))) 5 3000 []
    = (Throw (Error (pretty (Z.to_nat (5 - 1)))), w)
    /\ w = backoff_trace 3000 0 (Z.to_nat 5)
    /\ Z.of_nat (calls_made w) = 5
    /\ total_slept w = 3000 * (2 ^ (5 - 1) - 1).
Proof.
  apply (retry_gives_up_after_ceiling
           (fun n => Throw (Error (pretty n))) (fun n => Error (pretty n))).
  - lia.
  - reflexivity.
Defined.

End RetryProps.

(** ** Outbound sender, beyond the claims *)

Module SendingProps.

Import Utils InstagramApi SenderProps.
Local Open Scope Z_scope.

(** X7.  Whatever the platform answers, [sendMessage] makes at least one
    and at most three requests and sleeps at most 3000 ms in all; it
    never sleeps after its last request. *)
Theorem sendMessage_is_bounded this recipientId message pageId (w : World) :
  exists res w' evs,
    sendMessage this recipientId message pageId w = (res, w')
    /\ attempts_and_waits (trace w')
       = (attempts_and_waits (trace w) ++ evs)%list
    /\ (1 <= length (List.filter is_request evs) <= 3)%nat
    /\ 0 <= waited evs <= 3000
    /\ (exists r, last evs = Some (EvRequest r)).
Proof.
  destruct (sendMessage_run this recipientId message pageId w)
    as (w' & Hrun & _ & _ & Htrace & _).
  eexists _, w', _. split; [exact Hrun|]. split; [exact Htrace|].
  set (r := send_request this recipientId message pageId).
  destruct (platform w (requests_made w) r);
    [|destruct (platform w (requests_made w + 1)%nat r)];
    simpl; repeat split; try lia; by eexists.
Qed.

(** X8.  When the platform accepts the first request, [sendMessage] makes
    that one request, does not wait, and returns the id the platform
    gave. *)
Theorem sendMessage_first_attempt this recipientId message pageId
    (w : World) response :
  let r := send_request this recipientId message pageId in
  platform w (requests_made w) r = Fulfilled response ->
  exists w',
    sendMessage this recipientId message pageId w
    = (Return {| message_id := data_message_id response;
                 recipient_id := recipientId |}, w')
    /\ attempts_and_waits (trace w')
       = (attempts_and_waits (trace w) ++ [EvRequest r])%list.
Proof.
  intros r Hfirst.
  destruct (sendMessage_run this recipientId message pageId w)
    as (w' & Hrun & _ & _ & Htrace & _).
  fold r in Hrun, Htrace. rewrite Hfirst in Hrun, Htrace.
  exists w'. by split.
Qed.

Lemma sendMessage_first_attempt_witness :
  exists w',
    sendMessage client "user-1" "hello" "page-1" steady
    = (Return {| message_id := "mid.0"; recipient_id := "user-1" |}, w')
    /\ attempts_and_waits (trace w') = [EvRequest hello].
Proof.
  apply (sendMessage_first_attempt client "user-1" "hello" "page-1" steady
           {| data_message_id := "mid.0" |}).
  reflexivity.
Defined.

End SendingProps.

(** ** Reading numbers *)

Module NumberProps.

Import Decimal.
Local Open Scope Z_scope.

Lemma digit_value_char (d : Z) :
  0 <= d < 10 ->
  digit_value 10 (digit_char d) = Some d /\ is_digit (digit_char d) = true.
Proof.
  intros Hd.
  assert (exists k : nat, d = Z.of_nat k /\ (k < 10)%nat) as (k & -> & Hk)
    by (exists (Z.to_nat d); lia).
  clear Hd. do 10 (destruct k as [|k]; [split; reflexivity|]). lia.
Qed.

Lemma parse_decimal_go (fuel : nat) :
  forall (n : Z) (acc : string) (st : option Z),
    0 <= n < Z.of_nat fuel ->
    default 0 st = 0 ->
    parse_digits 10 (decimal_go fuel n acc) st
    = parse_digits 10 acc (Some n).
Proof.
  induction fuel as [|fuel IH]; intros n acc st Hn Hst; [lia|].
  cbn [decimal_go].
  assert (0 <= n mod 10 < 10) as Hd by (apply Z.mod_pos_bound; lia).
  destruct (Z.ltb_spec n 10) as [Hsmall|Hbig].
  - cbn [parse_digits].
    rewrite (proj1 (digit_value_char _ Hd)), Hst.
    rewrite Z.mod_small by lia. reflexivity.
  - rewrite IH; [|Z.div_mod_to_equations; lia|exact Hst].
    cbn [parse_digits]. rewrite (proj1 (digit_value_char _ Hd)).
    change (default 0 (Some (n / 10))) with (n / 10).
    by replace (n / 10 * 10 + n mod 10) with n
      by (Z.div_mod_to_equations; lia).
Qed.

Lemma all_digits_decimal_go (fuel : nat) :
  forall (n : Z) (acc : string),
    0 <= n ->
    all_digits acc = true ->
    all_digits (decimal_go fuel n acc) = true.
Proof.
  induction fuel as [|fuel IH]; intros n acc Hn Hacc; [exact Hacc|].
  cbn [decimal_go].
  assert (0 <= n mod 10 < 10) as Hd by (apply Z.mod_pos_bound; lia).
  assert (all_digits (String (digit_char (n mod 10)) acc) = true) as Hacc'.
  { cbn [all_digits]. by rewrite (proj2 (digit_value_char _ Hd)), Hacc. }
  destruct (n <? 10); [exact Hacc'|].
  apply IH; [Z.div_mod_to_equations; lia|exact Hacc'].
Qed.

Lemma decimal_go_nonempty (fuel : nat) :
  forall (n : Z) (acc : string),
    fuel <> 0%nat \/ acc <> "" -> decimal_go fuel n acc <> "".
Proof.
  induction fuel as [|fuel IH]; intros n acc Hne.
  - by destruct Hne.
  - cbn [decimal_go]. destruct (n <? 10); [discriminate|].
    apply IH. by right.
Qed.

Lemma decimal_nonempty (n : Z) : decimal n <> "".
Proof. apply decimal_go_nonempty. by left. Qed.

Lemma digit_is_plain (c : ascii) :
  is_digit c = true ->
  is_space c = false
  /\ c <> "-"%char /\ c <> "+"%char /\ c <> "x"%char /\ c <> "X"%char.
Proof.
  destruct c as [[] [] [] [] [] [] [] []]; intros Hc;
    try (vm_compute in Hc; discriminate Hc);
    repeat split; done.
Qed.

(** On a text of decimal digits [parseInt] reads in base ten from the
    first character. *)
Lemma parseInt_digits (s : string) :
  all_digits s = true ->
  s <> "" ->
  parseInt s
  = match parse_digits 10 s None with
    | Some n => Num n
    | None => NaN
    end.
Proof.
  intros Hs Hne. destruct s as [|c s]; [done|]. clear Hne.
  cbn [all_digits] in Hs. apply andb_true_iff in Hs as [Hc Hs].
  destruct (digit_is_plain c Hc) as (Hspace & Hminus & Hplus & _).
  unfold parseInt. cbn [trim_start]. rewrite Hspace.
  assert ((let '(sign, s0) :=
             match String c s with
             | String "-" r => (-1, r)
             | String "+" r => (1, r)
             | _ => (1, String c s)
             end in
           let '(radix, s1) :=
             match s0 with
             | String "0" (String "x" r) | String "0" (String "X" r) =>
                 (16, r)
             | _ => (10, s0)
             end in
           match parse_digits radix s1 None with
           | Some n => Num (sign * n)
           | None => NaN
           end)
          = match parse_digits 10 (String c s) None with
            | Some n => Num (1 * n)
            | None => NaN
            end) as ->.
  { assert (match String c s with
            | String "-" r => (-1, r)
            | String "+" r => (1, r)
            | _ => (1, String c s)
            end = (1, String c s)) as ->.
    { clear -Hminus Hplus.
      destruct c as [[] [] [] [] [] [] [] []]; try reflexivity;
        by (destruct Hminus || destruct Hplus). }
    assert (match String c s with
            | String "0" (String "x" r) | String "0" (String "X" r) =>
                (16, r)
            | _ => (10, String c s)
            end = (10, String c s)) as ->; [|reflexivity].
    destruct s as [|c2 s2].
    { clear. destruct c as [[] [] [] [] [] [] [] []]; reflexivity. }
    cbn [all_digits] in Hs. apply andb_true_iff in Hs as [Hc2 _].
    destruct (digit_is_plain c2 Hc2) as (_ & _ & _ & Hx & HX).
    clear -Hx HX.
    destruct c as [[] [] [] [] [] [] [] []]; try reflexivity.
    destruct c2 as [[] [] [] [] [] [] [] []]; try reflexivity;
      by (destruct Hx || destruct HX). }
  destruct (parse_digits 10 (String c s) None); [|reflexivity].
  by rewrite Z.mul_1_l.
Qed.

(** [parseInt] reads back the decimal text of a natural number. *)
Lemma parseInt_decimal (n : Z) : 0 <= n -> parseInt (decimal n) = Num n.
Proof.
  intros Hn. rewrite parseInt_digits.
  - unfold decimal. rewrite parse_decimal_go; [reflexivity|lia|reflexivity].
  - apply all_digits_decimal_go; [lia|reflexivity].
  - apply decimal_nonempty.
Qed.

End NumberProps.

(** ** Platform errors *)

Module ApiErrorProps.

Import InstagramApi Decimal NumberProps.
Local Open Scope Z_scope.

Lemma throttling_test (response : ErrorResponse) :
  throttling response <->
  (res_status response =? 429)
  || match res_data_error response with
     | Some a => gae_code a =? 4
     | None => false
     end = true.
Proof.
  unfold throttling. rewrite orb_true_iff, Z.eqb_eq.
  destruct (res_data_error response) as [a|].
  - rewrite Z.eqb_eq. split; intros [Hs|Ha]; auto.
    + destruct Ha as (a' & [= <-] & Hcode). by right.
    + right. by exists a.
  - split; intros [Hs|Ha]; auto; [by destruct Ha as (a & [=] & _)|done].
Qed.

(** X9.  Every error the client meets is turned into one of two kinds: a
    [RateLimitError] (status code 429) exactly when the platform
    answered with status 429 or API error code 4, an
    [InstagramAPIError] (status code 502) otherwise, also when there
    was no answer at all. *)
Theorem handleAPIError_classifies (error : AxiosError) :
  (error_statusCode (handleAPIError error) = Some 429
   <-> exists response,
         ae_response error = Some response /\ throttling response)
  /\ (error_statusCode (handleAPIError error) = Some 429
      \/ error_statusCode (handleAPIError error) = Some 502).
Proof.
  unfold handleAPIError.
  destruct (ae_response error) as [response|].
  - pose proof (throttling_test response) as Ht.
    destruct (_ || _); simpl.
    + split; [|by left]. split; [|done].
      intros _. exists response. split; [done|]. by apply Ht.
    + split; [|by right]. split; [done|].
      intros (r & [= <-] & Hr). apply Ht in Hr. discriminate.
  - simpl. split; [|by right]. split; [done|].
    by intros (r & [=] & _).
Qed.

(** X10.  The [RateLimitError] carries the number of the [Retry-After]
    header when the header is a decimal numeral, and 60 when there is
    no such header. *)
Theorem rate_limit_carries_retry_after (error : AxiosError)
    (response : ErrorResponse) (seconds : option Z) :
  ae_response error = Some response ->
  throttling response ->
  (forall n, seconds = Some n -> 0 <= n) ->
  res_headers response !! "retry-after" = decimal <$> seconds ->
  exists message,
    handleAPIError error = RateLimitError message (Num (default 60 seconds)).
Proof.
  intros Hresponse Hthrottling Hseconds Hheader.
  unfold handleAPIError. rewrite Hresponse.
  apply throttling_test in Hthrottling. rewrite Hthrottling, Hheader.
  destruct seconds as [n|]; simpl.
  - assert (JS.or_else (decimal n) "60" = decimal n) as ->.
    { pose proof (decimal_nonempty n). by destruct (decimal n). }
    rewrite parseInt_decimal by (by apply Hseconds). by eexists.
  - by eexists.
Qed.

(** A 429 response with [Retry-After: 120]. *)
Lemma rate_limit_carries_retry_after_witness :
  exists message,
    handleAPIError
      {| ae_message := "Request failed with status code 429";
         ae_response :=
           Some {| res_status := 429;
                   res_headers := {[ "retry-after" := "120" ]};
                   res_data_error := None |} |}
    = RateLimitError message (Num 120).
Proof.
  eapply (rate_limit_carries_retry_after _ _ (Some 120));
    [reflexivity|by left|intros n [= <-]; lia|reflexivity].
Defined.

End ApiErrorProps.

(** ** AI service, beyond the claims *)

Module AiMoreProps.

Import Utils AiService AiProps.
Local Open Scope Z_scope.

(** X11.  [analyzeSentiment] never throws: whatever the provider does, it
    completes with a label, and a failed or empty answer of the
    provider gives ["neutral"]. *)
Theorem analyzeSentiment_never_throws this text (w : World) :
  (exists label w', analyzeSentiment this text w = (Return label, w'))
  /\ (forall key latency e,
        provider this = openai ->
        openai_client this = Some key ->
        openai_api w (length (calls w)) (sentiment_request text)
          = (latency, Throw e) ->
        exists w', analyzeSentiment this text w = (Return "neutral", w')).
Proof.
  split.
  - unfold analyzeSentiment, catch, Eff.bind, openai_create.
    destruct (provider this); try (do 2 eexists; reflexivity).
    destruct (openai_client this); [|do 2 eexists; reflexivity].
    destruct (openai_api w _ _) as [latency [completion_|e]];
      [|do 2 eexists; reflexivity].
    destruct (choices completion_); do 2 eexists; reflexivity.
  - intros key latency e. apply analyzeSentiment_openai_failure.
Qed.

Lemma count_none (message : string) (words : list string) :
  (forall word, In word words -> JS.includes message word = false) ->
  List.filter (fun word => JS.includes message word) words = [].
Proof.
  induction words as [|w words IH]; intros Hnone; [reflexivity|].
  simpl. rewrite Hnone by (by left). apply IH.
  intros word Hword. apply Hnone. by right.
Qed.

Lemma count_some (message word : string) (words : list string) :
  In word words ->
  JS.includes message word = true ->
  (0 < length (List.filter (fun word => JS.includes message word) words))%nat.
Proof.
  intros Hin Hword.
  assert (In word (List.filter (fun word => JS.includes message word) words))
    as Hfound by (apply List.filter_In; by split).
  destruct (List.filter _ words); [done|simpl; lia].
Qed.

(** X12.  The keyword heuristic looks for the listed words anywhere in the
    lower-cased message, also inside longer words.  A message with a
    positive word and no negative word is tagged ["positive"], one with
    a negative word and no positive word ["negative"], one with neither
    ["neutral"]; no other label is ever given. *)
Theorem simpleSentimentAnalysis_labels (message : string) :
  let occurs word := JS.includes (JS.toLowerCase message) word = true in
  let absent words :=
    forall word, In word words ->
      JS.includes (JS.toLowerCase message) word = false in
  ((exists word, In word positiveWords /\ occurs word) ->
   absent negativeWords ->
   simpleSentimentAnalysis message = "positive")
  /\ ((exists word, In word negativeWords /\ occurs word) ->
      absent positiveWords ->
      simpleSentimentAnalysis message = "negative")
  /\ (absent positiveWords -> absent negativeWords ->
      simpleSentimentAnalysis message = "neutral")
  /\ (simpleSentimentAnalysis message = "positive"
      \/ simpleSentimentAnalysis message = "negative"
      \/ simpleSentimentAnalysis message = "neutral").
Proof.
  intros occurs absent. subst occurs absent.
  unfold simpleSentimentAnalysis.
  set (lowerMessage := JS.toLowerCase message).
  split; [|split; [|split]].
  - intros (word & Hin & Hword) Hnone.
    rewrite (count_none _ _ Hnone). cbn [length].
    pose proof (count_some _ _ _ Hin Hword) as Hsome.
    apply Nat.ltb_lt in Hsome. by rewrite Hsome.
  - intros (word & Hin & Hword) Hnone.
    rewrite (count_none _ _ Hnone). cbn [length].
    pose proof (count_some _ _ _ Hin Hword) as Hsome.
    apply Nat.ltb_lt in Hsome. rewrite Hsome.
    by destruct (length _).
  - intros Hpos Hneg.
    by rewrite (count_none _ _ Hpos), (count_none _ _ Hneg).
  - destruct (_ <? _)%nat; [by left|].
    destruct (_ <? _)%nat; [right; by left|right; by right].
Qed.

Section WithPricing.
Context `{AiPricing}.

(** X13.  With Gemini and an empty conversation history [generateResponse]
    throws a TypeError before any call to the provider is made. *)
Theorem gemini_needs_a_message this request (w : World) key :
  provider this = gemini ->
  gemini_client this = Some key ->
  conversationHistory request = [] ->
  exists w',
    generateResponse this request w
    = (Throw (TypeError
                "Cannot read properties of undefined (reading 'content')"),
       w')
    /\ calls w' = calls w
    /\ clock w' = clock w.
Proof.
  intros Hp Hk Hh. rewrite generateResponse_unfold.
  unfold call_provider, generateGeminiResponse. rewrite Hp, Hk, Hh.
  destruct (openai_client this); eexists; by split.
Qed.

(** X14.  With OpenAI, [generateResponse] makes exactly one call to the
    provider and does not retry, whether the call answers or throws.
    When the call throws, that error is thrown.  When it answers, the
    reply is the content of the first choice (the empty text when that
    is [null]), the token count is the reported total (0 when there is
    no usage report), and [processingTimeMs] is the time the call
    took; when it answers with no choice at all, a TypeError is
    thrown. *)
Theorem openai_answer_is_first_choice this request (w : World) key latency
    outcome :
  provider this = openai ->
  openai_client this = Some key ->
  openai_api w (length (calls w)) (openai_request this request)
    = (latency, outcome) ->
  exists res w',
    generateResponse this request w = (res, w')
    /\ calls w' = (calls w ++ [OpenAICall (openai_request this request)])%list
    /\ clock w' = clock w + latency
    /\ match outcome with
       | Throw e => res = Throw e
       | Return completion_ =>
           match choices completion_ with
           | first :: _ =>
               exists r,
                 res = Return r
                 /\ message r = default "" first
                 /\ tokensUsed r = or_Z (usage_total_tokens completion_) 0
                 /\ response_model r = model this
                 /\ processingTimeMs r = latency
           | [] =>
               res
               = Throw (TypeError
                   "Cannot read properties of undefined (reading 'message')")
           end
       end.
Proof.
  intros Hp Hk Hapi. rewrite generateResponse_unfold.
  unfold call_provider, generateOpenAIResponse. rewrite Hp, Hk.
  unfold Eff.bind, openai_create.
  change (openai_api (started w)) with (openai_api w).
  change (calls (started w)) with (calls w).
  rewrite Hapi.
  destruct outcome as [completion_|e].
  - destruct (choices completion_) as [|first others].
    + eexists _, _. split; [reflexivity|]. by repeat split.
    + eexists _, _. split; [reflexivity|]. simpl.
      repeat split; try done.
      eexists. split; [reflexivity|]. simpl.
      repeat split; try lia.
      by destruct first as [[|c s]|].
  - eexists _, _. split; [reflexivity|]. by repeat split.
Qed.

End WithPricing.

(** The provider answers at once with one choice and no usage
    report. *)
Lemma openai_answer_is_first_choice_witness :
  exists res w',
    @generateResponse Engines.flat_pricing support_bot question chatty
    = (res, w')
    /\ calls w' = [OpenAICall (openai_request support_bot question)]
    /\ clock w' = clock chatty + 850
    /\ exists r,
         res = Return r
         /\ message r = "Yes, we ship to Spain!"
         /\ tokensUsed r = 0
         /\ response_model r = "gpt-3.5-turbo"
         /\ processingTimeMs r = 850.
Proof.
  apply (@openai_answer_is_first_choice Engines.flat_pricing support_bot
           question chatty "sk-test" 850
           (Return {| choices := [Some "Yes, we ship to Spain!"];
                      usage_total_tokens := None |}));
    reflexivity.
Defined.

Lemma gemini_needs_a_message_witness :
  exists w',
    @generateResponse Engines.flat_pricing
      (new_AIService gemini "g-test" None)
      {| conversationHistory := []; businessContext := "";
         tone := formal; customInstructions := None;
         maxTokens := None; temperature := None |}
      chatty
    = (Throw (TypeError
                "Cannot read properties of undefined (reading 'content')"),
       w')
    /\ calls w' = calls chatty
    /\ clock w' = clock chatty.
Proof.
  apply (@gemini_needs_a_message Engines.flat_pricing _ _ chatty "g-test");
    reflexivity.
Defined.

End AiMoreProps.

(** ** Conversations, beyond the claims *)

Module ConversationMoreProps.

Import Db ConversationProps.
Local Open Scope Z_scope.

(** X15.  An append writes one row and two of its columns.  Every other
    conversation is left as it was; in the conversation itself the
    account, the sender and [firstMessageAt] are kept, and
    [lastMessageAt] becomes the timestamp of the appended message,
    whether or not that is later than the previous value.  When the
    conversation does not exist the call throws
    ["Conversation not found"] and writes nothing. *)
Theorem append_touches_one_row id (message : Message) (w : World) :
  let w' := (addMessageToConversation id message w).2 in
  (forall other, other <> id ->
     conversation w' !! other = conversation w !! other)
  /\ (forall row,
        conversation w !! id = Some row ->
        exists row',
          conversation w' !! id = Some row'
          /\ igAccountId row' = igAccountId row
          /\ senderId row' = senderId row
          /\ senderUsername row' = senderUsername row
          /\ firstMessageAt row' = firstMessageAt row
          /\ lastMessageAt row' = timestamp message)
  /\ (conversation w !! id = None ->
      addMessageToConversation id message w
      = (Throw (Error "Conversation not found"), w)).
Proof.
  intros w'. subst w'.
  destruct (conversation w !! id) as [row|] eqn:Hrow.
  - destruct (addMessageToConversation_appends id message w row Hrow)
      as (row' & Hrun & Hmsgs & Hlast).
    pose proof Hrun as Hrow'.
    unfold addMessageToConversation, Eff.bind, conversation_findUnique,
      conversation_update in Hrow'.
    rewrite Hrow in Hrow'. simpl in Hrow'. rewrite Hrow in Hrow'.
    injection Hrow' as Hrow' _.
    rewrite Hrun. simpl. split; [|split; [|done]].
    + intros other Hother. by rewrite lookup_insert_ne.
    + intros ? [= <-]. exists row'. rewrite lookup_insert_eq.
      subst row'. by repeat split.
  - rewrite (addMessageToConversation_missing id message w Hrow).
    split; [done|split; [intros row [=]|done]].
Qed.

End ConversationMoreProps.

(** ** Webhook and worker, beyond the claims *)

Module WebhookProps.

Import Pipeline IntakeProps.
Local Open Scope Z_scope.

(** [GET /webhook] answers 200 with the challenge exactly when the
    mode is ["subscribe"] and the request's token is the configured
    one, and 403 otherwise; the comparison is between possibly absent
    values, so a request without a token is verified when no token is
    configured.  The handler changes nothing. *)
Theorem get_webhook_verifies (req : Request) (w : World) :
  exists res,
    get_webhook req w = (Return res, w)
    /\ (status res = 200
        <-> query req !! "hub.mode" = Some "subscribe"
            /\ query req !! "hub.verify_token" = WEBHOOK_VERIFY_TOKEN w)
    /\ (status res = 200 ->
        sent_body res = default "" (query req !! "hub.challenge"))
    /\ (status res = 200 \/ status res = 403).
Proof.
  unfold get_webhook.
  destruct (bool_decide (query req !! "hub.mode" = Some "subscribe"))
    eqn:Hmode;
    destruct (bool_decide (query req !! "hub.verify_token"
                           = WEBHOOK_VERIFY_TOKEN w)) eqn:Htoken;
    simpl; eexists; (split; [reflexivity|]); simpl;
    try apply bool_decide_eq_true in Hmode;
    try apply bool_decide_eq_true in Htoken;
    try apply bool_decide_eq_false in Hmode;
    try apply bool_decide_eq_false in Htoken;
    repeat split; try done; try (by left); try (by right);
    try (intros [? ?]; done).
Qed.

Lemma queue_after_event (data : WebhookJobData) (w : World) :
  exists job,
    queue (queueWebhookEvent data w).2 "webhook-events"
    = (queue w "webhook-events" ++ [job])%list
    /\ job_data job = data
    /\ sent (queueWebhookEvent data w).2 = sent w
    /\ activityLog (queueWebhookEvent data w).2 = activityLog w.
Proof.
  eexists. unfold queue at 1. simpl. rewrite lookup_insert_eq. simpl.
  repeat split; reflexivity.
Qed.

Lemma enqueue_all_data (events : list WebhookJobData) :
  forall w : World,
    map job_data (queue (enqueue_all events w) "webhook-events")
    = (map job_data (queue w "webhook-events") ++ events)%list
    /\ sent (enqueue_all events w) = sent w
    /\ activityLog (enqueue_all events w) = activityLog w.
Proof.
  induction events as [|data rest IH]; intros w; cbn [enqueue_all].
  - by rewrite app_nil_r.
  - destruct (IH (queueWebhookEvent data w).2) as (Hq & Hs & Ha).
    destruct (queue_after_event data w) as (job & Hjob & Hdata & Hs' & Ha').
    rewrite Hq, Hs, Ha, Hjob, Hs', Ha'.
    rewrite map_app. simpl. by rewrite Hdata, <- app_assoc.
Qed.

(** X16.  Jobs stored by [queueWebhookEvent] are never taken by the worker:
    it reads the queue ["inbound-events"], they sit in
    ["webhook-events"].  However long the worker runs after any number
    of calls, the jobs are still queued, in the order of the calls,
    and nothing was sent or logged for them. *)
Theorem queued_events_are_never_processed (events : list WebhookJobData)
    (turns : nat) (w : World) :
  let w' := Nat.iter turns worker_step (enqueue_all events w) in
  map job_data (queue w' "webhook-events")
  = (map job_data (queue w "webhook-events") ++ events)%list
  /\ sent w' = sent w
  /\ activityLog w' = activityLog w.
Proof.
  intros w'. subst w'.
  destruct (worker_turns_outcomes turns (enqueue_all events w))
    as (Hs & Ha & _ & Hq).
  destruct (enqueue_all_data events w) as (Hq' & Hs' & Ha').
  by rewrite Hs, Ha, Hq, Hq', Hs', Ha'.
Qed.

End WebhookProps.

(** ** Token encryption, beyond the claims *)

Module EncryptionMoreProps.

Import Buffer Encryption EncryptionProps.
Local Open Scope Z_scope.

Lemma decode_replacement (rest : list byte) :
  utf8_decode_from Start (replacement ++ rest)
  = 65533 :: utf8_decode_from Start rest.
Proof.
  change replacement with (encode_code_point 65533).
  rewrite decode_code_point by (unfold scalar; lia). reflexivity.
Qed.

(** What UTF-8 gives back for any string of code units. *)
Lemma utf8_decode_encode_scrubs (n : nat) :
  forall s : list Z,
    (length s <= n)%nat ->
    forallb is_code_unit s = true ->
    utf8_decode (utf8_encode s) = scrub s.
Proof.
  unfold utf8_decode.
  induction n as [|n IH]; intros s Hlen Hunits.
  { destruct s; [reflexivity|simpl in Hlen; lia]. }
  destruct s as [|u rest]; [reflexivity|].
  cbn [utf8_encode scrub forallb] in *.
  apply andb_true_iff in Hunits as [Hu Hrest].
  destruct (is_high_surrogate u) eqn:Hhigh.
  - destruct rest as [|v rest'].
    + rewrite <- (app_nil_r replacement). by rewrite decode_replacement.
    + destruct (is_low_surrogate v) eqn:Hlow.
      * cbn [forallb] in Hrest. apply andb_true_iff in Hrest as [Hv Hrest].
        unfold is_code_unit, is_high_surrogate, is_low_surrogate in *.
        bool_to_prop.
        rewrite decode_code_point by (unfold scalar; lia).
        rewrite IH by (cbn [length] in *; done || lia).
        unfold utf16. decide_test. cbn [app].
        f_equal; [|f_equal]; divmod.
      * rewrite decode_replacement.
        by rewrite IH by (cbn [length] in *; done || lia).
  - destruct (is_low_surrogate u) eqn:Hlow.
    + rewrite decode_replacement.
      by rewrite IH by (cbn [length] in *; done || lia).
    + unfold is_code_unit, is_high_surrogate, is_low_surrogate in *.
      rewrite decode_code_point.
      2:{ unfold scalar. bool_to_prop; lia. }
      rewrite IH by (cbn [length] in *; done || lia).
      unfold utf16. bool_to_prop; decide_test; reflexivity.
Qed.

Lemma scrub_well_formed (n : nat) :
  forall s : list Z,
    (length s <= n)%nat ->
    forallb is_code_unit s = true ->
    well_formed (scrub s) = true.
Proof.
  induction n as [|n IH]; intros s Hlen Hunits.
  { destruct s; [reflexivity|simpl in Hlen; lia]. }
  destruct s as [|u rest]; [reflexivity|].
  cbn [scrub forallb] in *.
  apply andb_true_iff in Hunits as [Hu Hrest].
  destruct (is_high_surrogate u) eqn:Hhigh.
  - destruct rest as [|v rest']; [reflexivity|].
    destruct (is_low_surrogate v) eqn:Hlow.
    + cbn [forallb] in Hrest. apply andb_true_iff in Hrest as [Hv Hrest].
      cbn [well_formed]. rewrite Hu, Hhigh, Hlow. simpl.
      apply IH; [cbn [length] in *; lia|done].
    + change (well_formed (65533 :: scrub (v :: rest')))
        with (well_formed (scrub (v :: rest'))).
      apply IH; [cbn [length] in *; lia|done].
  - destruct (is_low_surrogate u) eqn:Hlow.
    + change (well_formed (65533 :: scrub rest))
        with (well_formed (scrub rest)).
      apply IH; [cbn [length] in *; lia|done].
    + cbn [well_formed]. rewrite Hu, Hhigh, Hlow. simpl.
      apply IH; [cbn [length] in *; lia|done].
Qed.

Section WithCrypto.
Context `{CryptoLaws}.

(** X17.  For every text, [decrypt (encrypt text)] succeeds and gives the
    text with each unpaired surrogate replaced by U+FFFD and everything
    else as it was; what it gives is well-formed. *)
Theorem decrypt_encrypt_scrubs (text secretKey : list Z) (w : World) :
  forallb is_code_unit text = true ->
  exists payload w',
    encrypt text secretKey w = (Return payload, w')
    /\ decrypt payload secretKey = Return (scrub text)
    /\ well_formed (scrub text) = true
    /\ drawn w' = (drawn w + 80)%nat.
Proof.
  intros Hunits.
  destruct (decrypt_encrypt text secretKey w) as (payload & w' & He & Hd).
  exists payload, w'. split; [exact He|]. split; [|split].
  - rewrite Hd. f_equal.
    by apply (utf8_decode_encode_scrubs (length text)).
  - by apply (scrub_well_formed (length text)).
  - unfold encrypt, Eff.bind, randomBytes, ret in He.
    cbn [entropy drawn] in He.
    destruct (gcm_encrypt _ _ _) in He. injection He as _ <-.
    cbn [drawn]. unfold IV_LENGTH, SALT_LENGTH. lia.
Qed.

End WithCrypto.

(** The text ["a"], a lone low surrogate, ["b"]. *)
Lemma decrypt_encrypt_scrubs_witness :
  exists payload w',
    @encrypt Engines.mirror_crypto [97; 56320; 98] [107] Engines.counting
    = (Return payload, w')
    /\ @decrypt Engines.mirror_crypto payload [107] = Return [97; 65533; 98]
    /\ well_formed [97; 65533; 98] = true
    /\ drawn w' = 80%nat.
Proof.
  apply (@decrypt_encrypt_scrubs Engines.mirror_crypto mirror_crypto_laws
           [97; 56320; 98] [107] Engines.counting).
  reflexivity.
Defined.

(** X18.  A payload that decodes to 64 bytes or fewer holds no IV:
    [decrypt] throws, whatever the key. *)
Theorem decrypt_rejects_short_payload `{CryptoEngine} (payload : string)
    (secretKey : list Z) :
  (length (base64_decode payload) <= 64)%nat ->
  decrypt payload secretKey = Throw (TypeError "Invalid initialization vector").
Proof.
  intros Hshort. unfold decrypt, slice, TAG_POSITION, SALT_LENGTH.
  rewrite (drop_ge (base64_decode payload) 64) by exact Hshort.
  by rewrite take_nil.
Qed.

Lemma decrypt_rejects_short_payload_witness :
  @decrypt Engines.mirror_crypto "c2hvcnQ=" [107]
  = Throw (TypeError "Invalid initialization vector").
Proof.
  apply (@decrypt_rejects_short_payload Engines.mirror_crypto).
  vm_compute. lia.
Defined.

End EncryptionMoreProps.

(** ** The in-memory rate limiter *)

Module RateLimitProps.

Import RateLimit.
Local Open Scope Z_scope.

(** Inside an open window whose record counts [min i (max 1 m)]
    requests, the next requests are numbers [i], [i + 1], ... *)
Lemma check_all_in_window (key : string) (maxRequests windowMs closes : Z) :
  forall (later : list Z) (i : nat) (store : RateLimitStore),
    (1 <= i)%nat ->
    store !! key
    = Some {| count := Z.min (Z.of_nat i) (Z.max 1 maxRequests);
              resetAt := closes |} ->
    Forall (fun now => now <= closes) later ->
    (check_all later key maxRequests windowMs store).1
    = map (answer_in_window maxRequests closes) (seq i (length later)).
Proof.
  induction later as [|now later IH]; intros i store Hi Hrecord Hlater;
    [reflexivity|].
  apply Forall_cons in Hlater as [Hnow Hlater].
  cbn [check_all length seq map]. unfold checkRateLimit.
  rewrite Hrecord. cbn [count resetAt].
  destruct (Z.ltb_spec closes now) as [?|_]; [lia|].
  assert (answer_in_window maxRequests closes i
          = if maxRequests <=? Z.min (Z.of_nat i) (Z.max 1 maxRequests)
            then {| allowed := false; remaining := Num 0;
                    answer_resetAt := Some closes |}
            else {| allowed := true;
                    remaining :=
                      Num (maxRequests
                           - (Z.min (Z.of_nat i) (Z.max 1 maxRequests) + 1));
                    answer_resetAt := Some closes |}) as ->.
  { unfold answer_in_window.
    destruct (Nat.eqb_spec i 0) as [?|_]; [lia|]. cbn [orb].
    destruct (Z.leb_spec maxRequests
                (Z.min (Z.of_nat i) (Z.max 1 maxRequests)));
      destruct (Z.ltb_spec (Z.of_nat i) maxRequests); try lia; [done|].
    do 2 f_equal. lia. }
  destruct (Z.leb_spec maxRequests
              (Z.min (Z.of_nat i) (Z.max 1 maxRequests))) as [Hfull|Hroom].
  - specialize (IH (S i) store).
    destruct (check_all later key maxRequests windowMs store)
      as [answers store'] eqn:Hrun.
    cbn [fst] in *. f_equal. apply IH; [lia| |done].
    rewrite Hrecord. do 2 f_equal. lia.
  - match goal with
    | |- context [check_all later _ _ _ ?s] =>
        specialize (IH (S i) s); destruct (check_all later _ _ _ s)
          as [answers store'] eqn:Hrun
    end.
    cbn [fst] in *. f_equal.
    apply IH; [lia| |done].
    rewrite lookup_insert_eq. do 2 f_equal. lia.
Qed.

(** X19.  One window of the limiter, request by request.  For a key with no
    record, the first request opens a window that closes [windowMs]
    later; of the requests made until it closes, number [i] (from 0) is
    allowed exactly when [i = 0] or [i < maxRequests], so a limit of
    zero or less still lets the first request through, with a negative
    [remaining].  Refused requests are not counted. *)
Theorem one_window (key : string) (maxRequests windowMs now : Z)
    (later : list Z) (store : RateLimitStore) :
  truthy (Object_prototype_get key) = false ->
  store !! key = None ->
  Forall (fun t => t <= now + windowMs) later ->
  let '(answers, store') :=
    check_all (now :: later) key maxRequests windowMs store in
  answers
  = map (answer_in_window maxRequests (now + windowMs))
        (seq 0 (S (length later)))
  /\ (exists record,
        store' !! key = Some record
        /\ resetAt record = now + windowMs
        /\ count record
           = Z.min (Z.of_nat (S (length later))) (Z.max 1 maxRequests)).
Proof.
  intros Hplain Hnone Hlater.
  cbn [check_all]. unfold checkRateLimit. rewrite Hnone, Hplain.
  unfold open_window.
  set (store1 := <[key := _]> store).
  pose proof (check_all_in_window key maxRequests windowMs (now + windowMs)
                later 1 store1) as Hanswers.
  assert (forall (ts : list Z) (i : nat) (s : RateLimitStore),
            (1 <= i)%nat ->
            s !! key
            = Some {| count := Z.min (Z.of_nat i) (Z.max 1 maxRequests);
                      resetAt := now + windowMs |} ->
            Forall (fun t => t <= now + windowMs) ts ->
            (check_all ts key maxRequests windowMs s).2 !! key
            = Some {| count := Z.min (Z.of_nat (i + length ts))
                                 (Z.max 1 maxRequests);
                      resetAt := now + windowMs |}) as Hstore.
  { clear. induction ts as [|t ts IH]; intros i s Hi Hrecord Hts.
    - cbn [check_all length snd]. rewrite Hrecord. do 3 f_equal. lia.
    - apply Forall_cons in Hts as [Ht Hts].
      cbn [check_all length]. unfold checkRateLimit.
      rewrite Hrecord. cbn [count resetAt].
      destruct (Z.ltb_spec (now + windowMs) t) as [?|_]; [lia|].
      destruct (Z.leb_spec maxRequests
                  (Z.min (Z.of_nat i) (Z.max 1 maxRequests)))
        as [Hfull|Hroom].
      + specialize (IH (S i) s).
        destruct (check_all ts key maxRequests windowMs s)
          as [answers s'] eqn:Hrun.
        cbn [snd] in *. rewrite IH; [|lia| |done].
        * do 3 f_equal. lia.
        * rewrite Hrecord. do 2 f_equal. lia.
      + match goal with
        | |- context [check_all ts _ _ _ ?s1] =>
            specialize (IH (S i) s1); destruct (check_all ts _ _ _ s1)
              as [answers s'] eqn:Hrun
        end.
        cbn [snd] in *. rewrite IH; [|lia| |done].
        * do 3 f_equal. lia.
        * rewrite lookup_insert_eq. do 2 f_equal. lia. }
  specialize (Hstore later 1%nat store1).
  destruct (check_all later key maxRequests windowMs store1)
    as [answers store'] eqn:Hrun.
  cbn [fst snd] in *. split.
  - cbn [seq map]. f_equal.
    apply Hanswers; [lia| |done].
    subst store1. rewrite lookup_insert_eq. do 2 f_equal. lia.
  - eexists. split; [apply Hstore; [lia| |done]|split; [reflexivity|]].
    + subst store1. rewrite lookup_insert_eq. do 2 f_equal. lia.
    + cbn [count]. f_equal.
Qed.

(** A limit of two for ["ip:1"]: four requests inside one second. *)
Lemma one_window_witness :
  (check_all [1000; 1100; 1200; 1300] "ip:1" 2 1000 ∅).1
  = [ {| allowed := true; remaining := Num 1; answer_resetAt := Some 2000 |};
      {| allowed := true; remaining := Num 0; answer_resetAt := Some 2000 |};
      {| allowed := false; remaining := Num 0; answer_resetAt := Some 2000 |};
      {| allowed := false; remaining := Num 0; answer_resetAt := Some 2000 |} ].
Proof.
  pose proof (one_window "ip:1" 2 1000 1000 [1100; 1200; 1300] ∅) as Hwindow.
  destruct (check_all [1000; 1100; 1200; 1300] "ip:1" 2 1000 ∅)
    as [answers store'].
  destruct Hwindow as [-> _].
  - reflexivity.
  - apply lookup_empty.
  - repeat constructor; lia.
  - reflexivity.
Defined.

(** X20.  A key that names a member every object inherits ([constructor],
    [toString], [__proto__], ...) is never limited: every request is
    allowed with [remaining] [NaN] and no [resetAt], whatever the limit,
    and nothing is stored. *)
Theorem inherited_key_never_limited (key : string) (maxRequests windowMs : Z)
    (times : list Z) (store : RateLimitStore) :
  truthy (Object_prototype_get key) = true ->
  store !! key = None ->
  check_all times key maxRequests windowMs store
  = (map (fun _ => {| allowed := true; remaining := NaN;
                      answer_resetAt := None |}) times,
     store).
Proof.
  intros Hinherited Hnone.
  induction times as [|now later IH]; [reflexivity|].
  cbn [check_all map]. unfold checkRateLimit.
  rewrite Hnone, Hinherited. by rewrite IH.
Qed.

Lemma inherited_key_never_limited_witness :
  check_all [1000; 1001; 1002] "constructor" 1 60000 ∅
  = ([ {| allowed := true; remaining := NaN; answer_resetAt := None |};
       {| allowed := true; remaining := NaN; answer_resetAt := None |};
       {| allowed := true; remaining := NaN; answer_resetAt := None |} ],
     ∅).
Proof.
  apply (inherited_key_never_limited "constructor" 1 60000
           [1000; 1001; 1002] ∅).
  - reflexivity.
  - apply lookup_empty.
Defined.

(** X21.  Cleaning up never changes an answer: as long as the clock has not
    gone back since the cleanup, [checkRateLimit] answers the same with
    the cleaned store as with the original one, and the record it
    leaves for the key is the same. *)
Theorem cleanup_is_invisible (key : string) (maxRequests windowMs : Z)
    (cleaned now : Z) (store : RateLimitStore) :
  cleaned <= now ->
  let before := checkRateLimit now key maxRequests windowMs store in
  let after :=
    checkRateLimit now key maxRequests windowMs
      (cleanupRateLimits cleaned store) in
  (store !! key = None \/ truthy (Object_prototype_get key) = false ->
   after.1 = before.1 /\ after.2 !! key = before.2 !! key).
Proof.
  intros Hclock before after Hreachable. subst before after.
  unfold checkRateLimit, cleanupRateLimits.
  destruct (store !! key) as [record|] eqn:Hrecord.
  - destruct Hreachable as [?|Hplain]; [done|].
    destruct (decide (resetAt record < cleaned)) as [Hold|Hlive].
    + rewrite map_lookup_filter_None_2.
      2:{ right. intros ? Hrecord'. rewrite Hrecord in Hrecord'.
          injection Hrecord' as <-. simpl. tauto. }
      rewrite Hplain.
      destruct (Z.ltb_spec (resetAt record) now) as [_|?]; [|lia].
      unfold open_window. cbn [fst snd]. by rewrite !lookup_insert_eq.
    + rewrite (map_lookup_filter_Some_2 _ _ key record Hrecord)
        by (simpl; exact Hlive).
      destruct (resetAt record <? now);
        [|destruct (maxRequests <=? count record)];
        unfold open_window; cbn [fst snd];
        rewrite ?lookup_insert_eq; try done.
      split; [done|].
      rewrite map_lookup_filter_Some_2 with (x := record);
        [done|done|simpl; exact Hlive].
  - rewrite map_lookup_filter_None_2 by (left; exact Hrecord).
    destruct (truthy (Object_prototype_get key)).
    + cbn [fst snd]. split; [done|].
      rewrite Hrecord.
      apply map_lookup_filter_None_2. by left.
    + unfold open_window. cbn [fst snd]. by rewrite !lookup_insert_eq.
Qed.

Lemma cleanup_is_invisible_witness :
  let before := checkRateLimit 5000 "ip:1" 2 1000 lapsed in
  let after :=
    checkRateLimit 5000 "ip:1" 2 1000 (cleanupRateLimits 4000 lapsed) in
  after.1 = before.1 /\ after.2 !! "ip:1" = before.2 !! "ip:1".
Proof.
  apply (cleanup_is_invisible "ip:1" 2 1000 4000 5000 lapsed).
  - lia.
  - by right.
Defined.

End RateLimitProps.

(** ** Text and random-string utilities *)

Module TextProps.

Import TextUtils Buffer Encryption TemplateProps.

Lemma length_substring_to (n : nat) :
  forall s : string,
    String.length (substring 0 n s) = Nat.min n (String.length s).
Proof.
  induction n as [|n IH]; intros [|c s]; simpl; try reflexivity.
  by rewrite IH.
Qed.

(** X22.  The length of what [truncate] returns: a text that fits is
    returned whole; a longer one comes back exactly [maxLength] long
    when the suffix fits in [maxLength], and as the bare suffix, longer
    than [maxLength], when it does not. *)
Theorem truncate_length (text : string) (maxLength : Z) (suffix : string) :
  let length_of s := Z.of_nat (String.length s) in
  length_of (truncate text maxLength suffix)
  = (if length_of text <=? maxLength then length_of text
     else Z.max maxLength (length_of suffix))%Z
  /\ ((maxLength < length_of text)%Z ->
      (maxLength < length_of suffix)%Z ->
      truncate text maxLength suffix = suffix).
Proof.
  intros length_of. subst length_of. unfold truncate, substring_to.
  destruct (Z.leb_spec (Z.of_nat (String.length text)) maxLength)
    as [Hfits|Hlong].
  - split; [reflexivity|lia].
  - split.
    + rewrite length_append, length_substring_to. lia.
    + intros _ Hsuffix.
      replace (Z.to_nat (maxLength - Z.of_nat (String.length suffix)))
        with 0%nat by lia.
      by destruct text.
Qed.

Lemma some_char_append test (a b : string) :
  some_char test (a +:+ b) = some_char test a || some_char test b.
Proof.
  induction a as [|c a IH]; push_append; simpl; [reflexivity|].
  by rewrite IH, orb_assoc.
Qed.

Lemma reverse_cons (c : ascii) (s : string) :
  reverse (String c s) = reverse s +:+ String c "".
Proof.
  unfold reverse. cbn [list_ascii_of_string rev].
  generalize (rev (list_ascii_of_string s)). intros l.
  induction l as [|x l IH]; [reflexivity|].
  cbn [app string_of_list_ascii]. push_append. by rewrite IH.
Qed.

Lemma reverse_append (a b : string) :
  reverse (a +:+ b) = reverse b +:+ reverse a.
Proof.
  induction a as [|c a IH]; push_append.
  - change (reverse "") with "". clear.
    induction (reverse b) as [|x r IH]; push_append; [reflexivity|].
    by rewrite <- IH.
  - by rewrite !reverse_cons, IH, append_assoc.
Qed.

Lemma reverse_involutive (s : string) : reverse (reverse s) = s.
Proof.
  induction s as [|c s IH]; [reflexivity|].
  rewrite reverse_cons, reverse_append, IH. reflexivity.
Qed.

Lemma some_char_reverse test (s : string) :
  some_char test (reverse s) = some_char test s.
Proof.
  induction s as [|c s IH]; [reflexivity|].
  rewrite reverse_cons, some_char_append, IH. simpl.
  rewrite orb_false_r. apply orb_comm.
Qed.

Lemma trim_start_split (s : string) :
  exists spaces, s = spaces +:+ trim_start s.
Proof.
  induction s as [|c s [spaces IH]]; [by exists ""|].
  simpl. destruct (is_space c).
  - exists (String c spaces). push_append. by rewrite <- IH.
  - by exists "".
Qed.

Lemma some_char_trim_start test (s : string) :
  some_char test s = false -> some_char test (trim_start s) = false.
Proof.
  destruct (trim_start_split s) as [spaces Hs]. intros Hnone.
  rewrite Hs, some_char_append in Hnone.
  by apply orb_false_iff in Hnone as [_ ?].
Qed.

Lemma some_char_trim test (s : string) :
  some_char test s = false -> some_char test (trim s) = false.
Proof.
  intros Hnone. unfold trim.
  rewrite some_char_reverse. apply some_char_trim_start.
  rewrite some_char_reverse. by apply some_char_trim_start.
Qed.

Lemma trim_start_clean (s : string) : starts_clean (trim_start s) = true.
Proof.
  induction s as [|c s IH]; [reflexivity|].
  simpl. destruct (is_space c) eqn:Hc; [exact IH|]. simpl. by rewrite Hc.
Qed.

Lemma trim_start_fixed (s : string) :
  starts_clean s = true -> trim_start s = s.
Proof.
  destruct s as [|c s]; [reflexivity|]. simpl.
  by destruct (is_space c).
Qed.

Lemma trim_idempotent (s : string) : trim (trim s) = trim s.
Proof.
  unfold trim.
  set (t := trim_start s).
  assert (starts_clean t = true) as Ht by apply trim_start_clean.
  clearbody t. clear s.
  set (u := trim_start (reverse t)).
  assert (starts_clean u = true) as Hu by apply trim_start_clean.
  assert (starts_clean (reverse u) = true) as Hr.
  { destruct (trim_start_split (reverse t)) as [spaces Hsplit].
    fold u in Hsplit.
    apply (f_equal reverse) in Hsplit.
    rewrite reverse_involutive, reverse_append in Hsplit.
    destruct (reverse u) as [|c r]; [reflexivity|].
    rewrite Hsplit in Ht. exact Ht. }
  rewrite (trim_start_fixed (reverse u)) by exact Hr.
  rewrite reverse_involutive.
  by rewrite (trim_start_fixed u).
Qed.

Lemma remove_angle_brackets_clean (s : string) :
  some_char is_angle_bracket (remove_angle_brackets s) = false.
Proof.
  induction s as [|c s IH]; [reflexivity|].
  simpl. destruct (is_angle_bracket c) eqn:Hc; [exact IH|].
  simpl. by rewrite Hc, IH.
Qed.

Lemma remove_angle_brackets_fixed (s : string) :
  some_char is_angle_bracket s = false -> remove_angle_brackets s = s.
Proof.
  induction s as [|c s IH]; [reflexivity|].
  simpl. intros Hnone. apply orb_false_iff in Hnone as [-> Hs].
  by rewrite IH.
Qed.

(** X23.  What [sanitizeText] returns holds no angle bracket and neither
    starts nor ends with white space, and sanitizing it again changes
    nothing. *)
Theorem sanitizeText_is_clean (text : string) :
  let clean := sanitizeText text in
  some_char is_angle_bracket clean = false
  /\ starts_clean clean = true
  /\ starts_clean (reverse clean) = true
  /\ sanitizeText clean = clean.
Proof.
  intros clean. subst clean. unfold sanitizeText.
  assert (some_char is_angle_bracket (trim (remove_angle_brackets text))
          = false) as Hclean
    by apply some_char_trim, remove_angle_brackets_clean.
  split; [exact Hclean|]. split; [|split].
  - rewrite <- trim_idempotent. unfold trim at 1.
    set (u := trim_start (reverse _)).
    assert (starts_clean u = true) as Hu by apply trim_start_clean.
    destruct (trim_start_split
                (reverse (trim_start (trim (remove_angle_brackets text)))))
      as [spaces Hsplit].
    fold u in Hsplit. apply (f_equal reverse) in Hsplit.
    rewrite reverse_involutive, reverse_append in Hsplit.
    destruct (reverse u) as [|c r]; [reflexivity|].
    pose proof (trim_start_clean (trim (remove_angle_brackets text))) as Ht.
    rewrite Hsplit in Ht. exact Ht.
  - unfold trim. rewrite reverse_involutive. apply trim_start_clean.
  - rewrite remove_angle_brackets_fixed by exact Hclean.
    apply trim_idempotent.
Qed.

Lemma hex_digit_is_hex (n : Z) :
  (0 <= n < 16)%Z -> is_hex_digit (hex_digit n) = true.
Proof.
  intros Hn.
  rewrite <- (Z2Nat.id n) by lia.
  assert (Z.to_nat n < 16)%nat as Hdigit by lia.
  revert Hdigit. generalize (Z.to_nat n) as d. intros d Hdigit.
  do 16 (destruct d as [|d]; [reflexivity|]).
  lia.
Qed.

Lemma hex_encode_shape (buf : list byte) :
  String.length (hex_encode buf) = (2 * length buf)%nat
  /\ some_char (fun c => negb (is_hex_digit c)) (hex_encode buf) = false.
Proof.
  induction buf as [|b buf [IHlength IHhex]]; [done|].
  cbn [hex_encode String.length length some_char].
  split; [rewrite IHlength; lia|].
  pose proof (EncryptionProps.byte_to_Z_range b) as Hb.
  rewrite !hex_digit_is_hex by (Z.div_mod_to_equations; lia).
  exact IHhex.
Qed.

(** X24.  [generateRandomString(n)] returns [2 * n] characters, every one a
    lower-case hexadecimal digit, and draws exactly [n] bytes: the next
    call reads the bytes after them. *)
Theorem generateRandomString_hex (n : nat) (w : World) :
  exists s,
    generateRandomString n w
    = (Return s, {| entropy := entropy w; drawn := drawn w + n |})
    /\ String.length s = (2 * n)%nat
    /\ some_char (fun c => negb (is_hex_digit c)) s = false.
Proof.
  unfold generateRandomString, Eff.bind, randomBytes, ret.
  eexists. split; [reflexivity|].
  destruct (hex_encode_shape (map (entropy w) (seq (drawn w) n)))
    as [Hlength Hhex].
  by rewrite Hlength, length_map, length_seq.
Qed.

End TextProps.

(** ** The Redis helpers *)

Module RedisProps.

Import Decimal RedisCache NumberProps TemplateProps.
Local Open Scope Z_scope.

Lemma redis_unsigned_decimal (n : Z) :
  0 <= n -> redis_unsigned (decimal n) = Some n.
Proof.
  intros Hn. unfold redis_unsigned.
  assert (all_digits (decimal n) = true) as ->
    by (apply all_digits_decimal_go; [lia|reflexivity]).
  assert (parse_digits 10 (decimal n) None = Some n) as ->
    by (unfold decimal; rewrite parse_decimal_go;
        [reflexivity|lia|reflexivity]).
  by rewrite String.eqb_refl.
Qed.

Lemma redis_integer_decimal (n : Z) :
  0 <= n -> redis_integer (decimal n) = Some n.
Proof.
  intros Hn. rewrite <- (redis_unsigned_decimal n Hn).
  pose proof (all_digits_decimal_go (S (Z.to_nat n)) n "") as Hdigits.
  fold (decimal n) in Hdigits.
  pose proof (decimal_nonempty n) as Hne.
  destruct (decimal n) as [|c r]; [done|].
  specialize (Hdigits Hn eq_refl). cbn [all_digits] in Hdigits.
  apply andb_true_iff in Hdigits as [Hc _].
  destruct (digit_is_plain c Hc) as (_ & Hminus & _).
  unfold redis_integer.
  destruct c as [[] [] [] [] [] [] [] []]; done.
Qed.

Section OneUser.

Variables (userId : string) (limit windowSeconds : Z).

Let key : string := "ratelimit:" +:+ userId.

(** The call that finds no live counter. *)
Lemma checkRateLimit_opens (w : World) :
  read (time w (issued w)) (data w) key = None ->
  checkRateLimit userId limit windowSeconds w
  = (Return (1 <=? limit),
     {| time := time w; issued := S (S (issued w));
        data :=
          if windowSeconds <=? 0 then delete key (data w)
          else <[key := {| value := "1";
                           expires := Some (time w (S (issued w))
                                            + windowSeconds * 1000) |}]>
                 (data w) |}).
Proof.
  intros Hnone.
  unfold checkRateLimit, bind, redis_incr, redis_expire, command, ret.
  fold key. rewrite Hnone. cbn [time issued data Z.eqb Pos.eqb].
  unfold read. rewrite lookup_insert_eq. cbn [expires value].
  destruct (windowSeconds <=? 0).
  - by rewrite delete_insert_eq.
  - by rewrite insert_insert_eq.
Qed.

(** A call inside an open window. *)
Lemma checkRateLimit_counts (w : World) (i deadline : Z) :
  data w !! key = Some {| value := decimal i; expires := Some deadline |} ->
  time w (issued w) < deadline ->
  1 <= i < 2 ^ 63 - 1 ->
  checkRateLimit userId limit windowSeconds w
  = (Return (i + 1 <=? limit),
     {| time := time w; issued := S (issued w);
        data := <[key := {| value := decimal (i + 1);
                            expires := Some deadline |}]> (data w) |}).
Proof.
  intros Hentry Hopen Hi.
  unfold checkRateLimit, bind, redis_incr, command, ret.
  fold key. unfold read. rewrite Hentry. cbv beta iota delta [expires value].
  destruct (Z.ltb_spec (time w (issued w)) deadline) as [_|?]; [|lia].
  rewrite redis_integer_decimal by lia.
  destruct (Z.leb_spec (- 2 ^ 63) i) as [_|?]; [|lia].
  destruct (Z.ltb_spec i (2 ^ 63 - 1)) as [_|?]; [|lia].
  cbn [andb].
  destruct (Z.eqb_spec (i + 1) 1) as [?|_]; [lia|].
  unfold integer_to_string.
  destruct (Z.ltb_spec (i + 1) 0) as [?|_]; [lia|].
  reflexivity.
Qed.

Lemma check_many_counts (deadline : Z) :
  forall (calls i : nat) (w : World),
    (1 <= i)%nat ->
    Z.of_nat (i + calls) < 2 ^ 63 ->
    data w !! key
    = Some {| value := decimal (Z.of_nat i); expires := Some deadline |} ->
    (forall j, (j < calls)%nat -> time w (issued w + j) < deadline) ->
    exists w',
      check_many calls userId limit windowSeconds w
      = (Return (map (fun n => Z.of_nat n <=? limit) (seq (S i) calls)), w')
      /\ time w' = time w
      /\ issued w' = (issued w + calls)%nat
      /\ data w' !! key
         = Some {| value := decimal (Z.of_nat (i + calls));
                   expires := Some deadline |}.
Proof.
  induction calls as [|calls IH]; intros i w Hi Hrange Hentry Hopen.
  - exists w. cbn [check_many]. unfold ret.
    rewrite !Nat.add_0_r. by repeat split.
  - cbn [check_many]. unfold bind at 1.
    rewrite (checkRateLimit_counts w (Z.of_nat i) deadline Hentry).
    2:{ specialize (Hopen 0%nat). rewrite Nat.add_0_r in Hopen.
        apply Hopen. lia. }
    2:{ lia. }
    set (w1 := {| time := time w; issued := S (issued w); data := _ |}).
    destruct (IH (S i) w1) as (w' & Hrun & Htime & Hissued & Hdata).
    + lia.
    + lia.
    + subst w1. cbn [data]. rewrite lookup_insert_eq.
      do 3 f_equal. lia.
    + intros j Hj. subst w1. cbn [time issued].
      replace (S (issued w) + j)%nat with (issued w + S j)%nat by lia.
      apply Hopen. lia.
    + exists w'. unfold bind. rewrite Hrun. unfold ret.
      split; [|split; [|split]].
      * cbn [seq map]. do 3 f_equal. f_equal. lia.
      * by rewrite Htime.
      * rewrite Hissued. subst w1. cbn [issued]. lia.
      * rewrite Hdata. do 3 f_equal. lia.
Qed.

(** X25.  One window of the Redis limiter.  The call that finds no live
    counter opens a window of [windowSeconds]; while it is open, call
    number [i] (from 1) answers [i <= limit].  Refused calls are
    counted too: after [calls] calls [getRateLimitRemaining] gives
    [limit - calls], below zero once the limit is passed. *)
Theorem redis_window (calls : nat) (w : World) :
  read (time w (issued w)) (data w) key = None ->
  0 < windowSeconds ->
  (1 <= calls)%nat ->
  Z.of_nat calls < 2 ^ 63 ->
  (forall j, (2 <= j <= S calls)%nat ->
     time w (issued w + j)
     < time w (issued w + 1) + windowSeconds * 1000) ->
  exists w',
    check_many calls userId limit windowSeconds w
    = (Return (map (fun i => Z.of_nat i <=? limit) (seq 1 calls)), w')
    /\ (getRateLimitRemaining userId limit w').1
       = Return (Num (limit - Z.of_nat calls)).
Proof.
  intros Hnone Hwindow Hcalls Hrange Hopen.
  destruct calls as [|calls]; [lia|].
  cbn [check_many]. unfold bind at 1.
  rewrite (checkRateLimit_opens w Hnone).
  destruct (Z.leb_spec windowSeconds 0) as [?|_]; [lia|].
  set (deadline := time w (S (issued w)) + windowSeconds * 1000).
  set (w1 := {| time := time w; issued := S (S (issued w)); data := _ |}).
  destruct (check_many_counts deadline calls 1 w1)
    as (w' & Hrun & Htime & Hissued & Hdata).
  - lia.
  - lia.
  - subst w1. cbn [data]. by rewrite lookup_insert_eq.
  - intros j Hj. subst w1 deadline. cbn [time issued].
    replace (S (S (issued w)) + j)%nat with (issued w + (2 + j))%nat by lia.
    replace (S (issued w)) with (issued w + 1)%nat by lia.
    apply Hopen. lia.
  - exists w'. unfold bind. rewrite Hrun. unfold ret. split.
    + cbn [seq map]. reflexivity.
    + unfold getRateLimitRemaining, bind, redis_get, command, ret.
      fold key. unfold read. rewrite Hdata. cbn [expires].
      rewrite Htime, Hissued. subst w1. cbn [time issued].
      specialize (Hopen (S (S calls))).
      replace (S (S (issued w)) + calls)%nat
        with (issued w + S (S calls))%nat by lia.
      rewrite Nat.add_1_r in Hopen.
      destruct (Z.ltb_spec (time w (issued w + S (S calls))) deadline)
        as [_|Hlate].
      2:{ subst deadline. specialize (Hopen ltac:(lia)). lia. }
      cbn [fmap option_fmap option_map value fst].
      pose proof (decimal_nonempty (Z.of_nat (1 + calls))) as Hne.
      pose proof (parseInt_decimal (Z.of_nat (1 + calls)) ltac:(lia))
        as Hparse.
      destruct (decimal (Z.of_nat (1 + calls))) as [|c r]; [done|].
      rewrite Hparse. cbn [minus]. do 2 f_equal.
Qed.

(** X26.  With a window of zero seconds or less [EXPIRE] deletes the counter
    the call has just made, so every call is a first call and answers
    [1 <= limit]: nothing is ever limited for a limit of one or more. *)
Theorem redis_window_not_positive (calls : nat) (w : World) :
  read (time w (issued w)) (data w) key = None ->
  windowSeconds <= 0 ->
  (check_many calls userId limit windowSeconds w).1
  = Return (replicate calls (1 <=? limit)).
Proof.
  intros Hnone Hwindow. revert w Hnone.
  induction calls as [|calls IH]; intros w Hnone; [reflexivity|].
  cbn [check_many]. unfold bind at 1.
  rewrite (checkRateLimit_opens w Hnone).
  destruct (Z.leb_spec windowSeconds 0) as [_|?]; [|lia].
  set (w1 := {| time := time w; issued := S (S (issued w)); data := _ |}).
  specialize (IH w1). unfold bind.
  destruct (check_many calls userId limit windowSeconds w1)
    as [answers w'] eqn:Hrun.
  cbn [fst] in IH. rewrite IH.
  - reflexivity.
  - subst w1. cbn [time issued data]. unfold read.
    by rewrite lookup_delete_eq.
Qed.

End OneUser.

(** Five calls with a limit of three, inside one minute. *)
Lemma redis_window_witness :
  exists w',
    check_many 5 "u1" 3 60 empty_server
    = (Return [true; true; true; false; false], w')
    /\ (getRateLimitRemaining "u1" 3 w').1 = Return (Num (-2)).
Proof.
  apply (redis_window "u1" 3 60 5 empty_server).
  - reflexivity.
  - lia.
  - lia.
  - lia.
  - intros j Hj. cbn [empty_server time issued]. lia.
Defined.

Lemma redis_window_not_positive_witness :
  (check_many 4 "u1" 1 0 empty_server).1 = Return [true; true; true; true].
Proof.
  apply (redis_window_not_positive "u1" 1 0 4 empty_server).
  - reflexivity.
  - lia.
Defined.

(** X27.  A cached token is read back until its time to live has run out,
    and not after.  A time to live of zero or less is refused by
    [SETEX]: [cacheAccessToken] throws and the token already cached, if
    any, stays. *)
Theorem cached_token_lifetime (igAccountId token : string) (expiresIn : Z)
    (w : World) :
  let written := time w (issued w) in
  let asked := time w (S (issued w)) in
  let '(outcome, w') := cacheAccessToken igAccountId token expiresIn w in
  if 0 <? expiresIn then
    outcome = Return tt
    /\ (getCachedAccessToken igAccountId w').1
       = Return (if asked <? written + expiresIn * 1000 then Some token
                 else None)
  else
    is_return outcome = false /\ data w' = data w.
Proof.
  unfold cacheAccessToken, getCachedAccessToken, bind, redis_setex,
    redis_get, command, ret.
  destruct (Z.ltb_spec 0 expiresIn) as [Hpositive|Hnot].
  - destruct (Z.leb_spec expiresIn 0) as [?|_]; [lia|].
    split; [reflexivity|].
    cbn [time issued data fst]. unfold read.
    rewrite lookup_insert_eq. cbn [expires].
    by destruct (_ <? _).
  - destruct (Z.leb_spec expiresIn 0) as [_|?]; [|lia].
    by split.
Qed.

End RedisProps.

(** ** Usage limits *)

Module UsageProps.

Import Usage.
Local Open Scope Z_scope.

Lemma increment_many_counts (userId : string) :
  forall (n : nat) (w : World) (row : User),
    user w !! userId = Some row ->
    exists w',
      increment_many n userId w = (Return tt, w')
      /\ user w' !! userId
         = Some {| usageCount := usageCount row + Z.of_nat n;
                   usageLimit := usageLimit row;
                   usageResetAt := usageResetAt row |}.
Proof.
  induction n as [|n IH]; intros w row Hrow.
  - exists w. split; [reflexivity|]. rewrite Hrow. destruct row. simpl.
    do 2 f_equal. lia.
  - cbn [increment_many].
    unfold bind at 1, incrementUsage, bind at 1, user_update, ret.
    rewrite Hrow.
    match goal with
    | |- context [increment_many n userId ?w1] =>
        destruct (IH w1 {| usageCount := usageCount row + 1;
                           usageLimit := usageLimit row;
                           usageResetAt := usageResetAt row |})
          as (w' & Hrun & Hrow')
    end.
    + cbn [user]. by rewrite lookup_insert_eq.
    + exists w'. split; [exact Hrun|]. rewrite Hrow'. cbn [usageCount
        usageLimit usageResetAt]. do 2 f_equal. lia.
Qed.

(** X28.  When more than 24 hours have passed since the last reset, the
    check answers [true] whatever the limit, also for a limit of zero,
    and restarts the count at the current time.  From then on and for
    the next 24 hours, the check made after [n] increments answers
    [n < usageLimit] and writes nothing. *)
Theorem usage_after_reset (userId : string) (row : User) (now later : Z)
    (n : nat) (w : World) :
  user w !! userId = Some row ->
  24 * 60 * 60 * 1000 < now - usageResetAt row ->
  later - now <= 24 * 60 * 60 * 1000 ->
  exists w1 w2,
    checkUsageLimit now userId w = (Return true, w1)
    /\ increment_many n userId w1 = (Return tt, w2)
    /\ checkUsageLimit later userId w2
       = (Return (Z.of_nat n <? usageLimit row), w2).
Proof.
  intros Hrow Hstale Hsoon.
  unfold checkUsageLimit at 1, bind at 1, user_findUnique.
  rewrite Hrow.
  destruct (Z.ltb_spec (24 * 60 * 60 * 1000) (now - usageResetAt row))
    as [_|?]; [|lia].
  unfold bind, user_update, ret. rewrite Hrow.
  eexists. 
  match goal with
  | |- exists w2, (_, ?w1) = _ /\ _ =>
      destruct (increment_many_counts userId n w1
                  {| usageCount := 0; usageLimit := usageLimit row;
                     usageResetAt := now |})
        as (w2 & Hrun & Hrow2)
  end.
  { cbn [user]. by rewrite lookup_insert_eq. }
  exists w2. split; [reflexivity|]. split; [exact Hrun|].
  unfold checkUsageLimit, bind, user_findUnique, ret.
  rewrite Hrow2. cbn [usageCount usageLimit usageResetAt].
  destruct (Z.ltb_spec (24 * 60 * 60 * 1000) (later - now)) as [?|_]; [lia|].
  reflexivity.
Qed.

Lemma usage_after_reset_witness :
  exists w1 w2,
    checkUsageLimit 172800001 "u1" stale = (Return true, w1)
    /\ increment_many 1 "u1" w1 = (Return tt, w2)
    /\ checkUsageLimit 172800002 "u1" w2 = (Return false, w2).
Proof.
  apply (usage_after_reset "u1"
           {| usageCount := 7; usageLimit := 0; usageResetAt := 0 |}
           172800001 172800002 1 stale).
  - reflexivity.
  - simpl. lia.
  - lia.
Defined.

End UsageProps.

(** ** Finding or creating a conversation *)

Module ConversationsProps.

Import Db Conversations ConversationProps.

Lemma findPair_found (a s : string) (table : gmap string Conversation)
    (id : string) (row : Conversation) :
  conversation_findPair a s table = Some (id, row) ->
  table !! id = Some row /\ igAccountId row = a /\ senderId row = s.
Proof.
  unfold conversation_findPair. intros Hfound.
  destruct (list_find _ _) as [[i entry]|] eqn:Hfind; [|done].
  injection Hfound as ->.
  apply list_find_Some in Hfind as (Hentry & [Ha Hs] & _).
  apply list_elem_of_lookup_2, elem_of_map_to_list in Hentry.
  by repeat split.
Qed.

Lemma findPair_known (a s : string) (table : gmap string Conversation)
    (id : string) (row : Conversation) :
  unique_pairs table ->
  table !! id = Some row ->
  igAccountId row = a ->
  senderId row = s ->
  conversation_findPair a s table = Some (id, row).
Proof.
  intros Hunique Hrow Ha Hs.
  destruct (conversation_findPair a s table) as [[id' row']|] eqn:Hfound.
  - apply findPair_found in Hfound as (Hrow' & Ha' & Hs').
    assert (id' = id) as -> by (eapply Hunique; eauto; congruence).
    congruence.
  - unfold conversation_findPair in Hfound.
    destruct (list_find _ _) eqn:Hfind; [done|].
    apply list_find_None in Hfind.
    rewrite Forall_forall in Hfind.
    exfalso. apply (Hfind (id, row)).
    + by apply elem_of_map_to_list.
    + by split.
Qed.

Lemma findPair_unknown (a s : string) (table : gmap string Conversation) :
  conversation_findPair a s table = None ->
  forall id row,
    table !! id = Some row -> ~ (igAccountId row = a /\ senderId row = s).
Proof.
  unfold conversation_findPair. intros Hnone id row Hrow Hpair.
  destruct (list_find _ _) eqn:Hfind; [done|].
  apply list_find_None in Hfind. rewrite Forall_forall in Hfind.
  apply (Hfind (id, row)); [by apply elem_of_map_to_list|exact Hpair].
Qed.

Lemma unique_pairs_touch (table : gmap string Conversation) (id : string)
    (row row' : Conversation) :
  unique_pairs table ->
  table !! id = Some row ->
  igAccountId row' = igAccountId row ->
  senderId row' = senderId row ->
  unique_pairs (<[id := row']> table).
Proof.
  intros Hunique Hrow Ha Hs id1 id2 row1 row2 H1 H2 Ha12 Hs12.
  destruct (decide (id1 = id)) as [->|Hne1];
    destruct (decide (id2 = id)) as [->|Hne2]; [done| | |].
  - rewrite lookup_insert_eq in H1. rewrite lookup_insert_ne in H2 by done.
    injection H1 as <-.
    symmetry. eapply Hunique; eauto; congruence.
  - rewrite lookup_insert_eq in H2. rewrite lookup_insert_ne in H1 by done.
    injection H2 as <-.
    eapply Hunique; eauto; congruence.
  - rewrite lookup_insert_ne in H1, H2 by done.
    eapply Hunique; eauto.
Qed.

Lemma unique_pairs_create (table : gmap string Conversation) (id : string)
    (row' : Conversation) :
  unique_pairs table ->
  (forall other row,
     table !! other = Some row ->
     ~ (igAccountId row = igAccountId row'
        /\ senderId row = senderId row')) ->
  unique_pairs (<[id := row']> table).
Proof.
  intros Hunique Hnew id1 id2 row1 row2 H1 H2 Ha12 Hs12.
  destruct (decide (id1 = id)) as [->|Hne1];
    destruct (decide (id2 = id)) as [->|Hne2]; [done| | |].
  - rewrite lookup_insert_eq in H1. rewrite lookup_insert_ne in H2 by done.
    injection H1 as <-. exfalso. by apply (Hnew id2 row2 H2).
  - rewrite lookup_insert_eq in H2. rewrite lookup_insert_ne in H1 by done.
    injection H2 as <-. exfalso. by apply (Hnew id1 row1 H1).
  - rewrite lookup_insert_ne in H1, H2 by done.
    eapply Hunique; eauto.
Qed.

Lemma thread_unique_pairs : unique_pairs (conversation thread).
Proof.
  intros id1 id2 row1 row2 H1 H2 _ _.
  unfold thread in H1, H2. cbn [conversation] in H1, H2.
  apply lookup_singleton_Some in H1 as [<- _].
  by apply lookup_singleton_Some in H2 as [<- _].
Qed.

Lemma upsert_returns_row (cuid : string) (created created' touched : Z)
    (a s : string) (name : option string) (w : World) :
  unique_pairs (conversation w) ->
  conversation w !! cuid = None ->
  exists id row w',
    getOrCreateConversation cuid created created' touched a s name w
    = (Return (id, row), w')
    /\ conversation w' !! id = Some row
    /\ unique_pairs (conversation w').
Proof.
  intros Hunique Hfresh.
  unfold getOrCreateConversation, conversation_upsert.
  destruct (conversation_findPair a s (conversation w))
    as [[id row0]|] eqn:Hfound.
  - apply findPair_found in Hfound as (Hrow0 & Ha & Hs).
    eexists id, _, _. split; [reflexivity|]. cbn [conversation].
    rewrite lookup_insert_eq. split; [done|].
    by eapply unique_pairs_touch.
  - rewrite Hfresh.
    eexists cuid, _, _. split; [reflexivity|]. cbn [conversation].
    rewrite lookup_insert_eq. split; [done|].
    apply unique_pairs_create; [exact Hunique|].
    intros other row Hrow. cbn [igAccountId senderId].
    by apply (findPair_unknown a s _ Hfound other row).
Qed.

(** X29.  One conversation for each sender of an account.  On a table where
    no two rows hold the same pair, [getOrCreateConversation] returns
    a row of the pair and leaves the table that way, touching no other
    row.  Asked again for the same pair, it returns the same row id and
    changes [lastMessageAt] only: the messages, the first-message time
    and the stored username stay, whatever username is passed. *)
Theorem one_conversation_per_sender (cuid : string)
    (created created' touched : Z)
    (a s : string) (name : option string) (w : World) :
  unique_pairs (conversation w) ->
  conversation w !! cuid = None ->
  exists id row w',
    getOrCreateConversation cuid created created' touched a s name w
    = (Return (id, row), w')
    /\ conversation w' !! id = Some row
    /\ igAccountId row = a /\ senderId row = s
    /\ unique_pairs (conversation w')
    /\ (forall other,
          other <> id -> conversation w' !! other = conversation w !! other)
    /\ (conversation_findPair a s (conversation w) = None ->
        id = cuid /\ messages row = [])
    /\ forall cuid' again again' touched' name',
         let row' :=
           {| igAccountId := a; senderId := s;
              senderUsername := senderUsername row;
              messages := messages row;
              firstMessageAt := firstMessageAt row;
              lastMessageAt := touched' |} in
         getOrCreateConversation cuid' again again' touched' a s name' w'
         = (Return (id, row'),
            {| conversation := <[id := row']> (conversation w') |}).
Proof.
  intros Hunique Hfresh.
  unfold getOrCreateConversation, conversation_upsert.
  destruct (conversation_findPair a s (conversation w))
    as [[id row0]|] eqn:Hfound.
  - apply findPair_found in Hfound as (Hrow0 & Ha & Hs).
    eexists id, _, _. split; [reflexivity|]. cbn [conversation].
    rewrite lookup_insert_eq.
    assert (unique_pairs
              (<[id := {| igAccountId := igAccountId row0;
                          senderId := senderId row0;
                          senderUsername := senderUsername row0;
                          messages := messages row0;
                          firstMessageAt := firstMessageAt row0;
                          lastMessageAt := touched |}]> (conversation w)))
      as Hunique'
      by (eapply unique_pairs_touch; eauto).
    split; [done|]. split; [done|]. split; [done|].
    split; [exact Hunique'|]. split; [|split; [done|]].
    + intros other Hother. by rewrite lookup_insert_ne.
    + intros cuid' again again' touched' name'.
      rewrite (findPair_known a s _ id _ Hunique'
                 (lookup_insert_eq _ _ _) Ha Hs).
      cbn [igAccountId senderId senderUsername messages
                       firstMessageAt]. by rewrite Ha, Hs.
  - rewrite Hfresh.
    eexists cuid, _, _. split; [reflexivity|]. cbn [conversation].
    rewrite lookup_insert_eq.
    assert (unique_pairs
              (<[cuid := {| igAccountId := a; senderId := s;
                            senderUsername := name; messages := [];
                            firstMessageAt := created;
                            lastMessageAt := created' |}]> (conversation w)))
      as Hunique'.
    { apply unique_pairs_create; [exact Hunique|].
      intros other row Hrow. cbn [igAccountId senderId].
      by apply (findPair_unknown a s _ Hfound other row). }
    split; [done|]. split; [done|]. split; [done|].
    split; [exact Hunique'|]. split; [|split; [done|]].
    + intros other Hother. by rewrite lookup_insert_ne.
    + intros cuid' again again' touched' name'.
      by rewrite (findPair_known a s _ cuid _ Hunique'
                    (lookup_insert_eq _ _ _) eq_refl eq_refl).
Qed.

(** A first message from ["sender2"] to the account of [thread]. *)
Lemma one_conversation_per_sender_witness :
  exists id row w',
    getOrCreateConversation "c2" 5000 5000 5001 "acct" "sender2"
      (Some "ann") thread
    = (Return (id, row), w')
    /\ conversation w' !! id = Some row.
Proof.
  destruct (one_conversation_per_sender "c2" 5000 5000 5001 "acct" "sender2"
              (Some "ann") thread)
    as (id & row & w' & Hrun & Hrow & _).
  - exact thread_unique_pairs.
  - reflexivity.
  - by exists id, row, w'.
Defined.

(** X30.  A conversation that [getOrCreateConversation] has returned can be
    appended to: [addMessageToConversation] on the returned id does not
    throw, the message becomes the last of the conversation, and the
    table still holds one row for each pair. *)
Theorem returned_conversation_accepts_messages (cuid : string)
    (created created' touched : Z) (a s : string) (name : option string)
    (message : Message) (w : World) :
  unique_pairs (conversation w) ->
  conversation w !! cuid = None ->
  exists id row w' row'' w'',
    getOrCreateConversation cuid created created' touched a s name w
    = (Return (id, row), w')
    /\ addMessageToConversation id message w' = (Return row'', w'')
    /\ messages row'' = (messages row ++ [message])%list
    /\ history w'' id = (history w' id ++ [message])%list
    /\ unique_pairs (conversation w'').
Proof.
  intros Hunique Hfresh.
  destruct (upsert_returns_row cuid created created' touched
              a s name w Hunique Hfresh)
    as (id & row & w' & Hrun & Hrow & Hunique').
  destruct (addMessageToConversation_appends id message w' row Hrow)
    as (row'' & Happend & Hmessages & _).
  exists id, row, w', row'',
    {| conversation := <[id := row'']> (conversation w') |}.
  split; [exact Hrun|]. split; [exact Happend|].
  split; [exact Hmessages|]. split.
  - unfold history. cbn [conversation].
    rewrite lookup_insert_eq, Hrow. simpl. by rewrite Hmessages.
  - cbn [conversation].
    pose proof Happend as Hshape.
    unfold addMessageToConversation, bind, conversation_findUnique,
      conversation_update in Hshape.
    rewrite Hrow in Hshape. simpl in Hshape. rewrite Hrow in Hshape.
    injection Hshape as Hshape _. subst row''.
    by eapply unique_pairs_touch.
Qed.

Lemma returned_conversation_accepts_messages_witness :
  exists id row w' row'' w'',
    getOrCreateConversation "c2" 5000 5000 5001 "acct" "sender"
      None thread
    = (Return (id, row), w')
    /\ addMessageToConversation id early w' = (Return row'', w'')
    /\ messages row'' = (messages row ++ [early])%list
    /\ history w'' id = (history w' id ++ [early])%list
    /\ unique_pairs (conversation w'').
Proof.
  apply (returned_conversation_accepts_messages "c2" 5000 5000 5001
           "acct" "sender" None early thread).
  - exact thread_unique_pairs.
  - reflexivity.
Defined.

End ConversationsProps.
